(** * The bookkeeping core of the text-adventure engine

    A shallow embedding of [models.py], [utils.py] ([parse_variables]),
    [game_world.py] ([GameWorld]), [game_ui.py] ([move], [perform_action],
    [calculate_room_positions], the lookups and the cell arithmetic of
    [draw_map] and [update_display]) and [main.py] (the two loops of
    [run_game]), followed by the properties of the canon-route check, the
    room graph, the variable store, the variable-line parser, the grid
    layout and a play session.

    Conventions of the embedding.
    - A Python [str] is a Rocq [string]; every [ascii] stands for one code
      point below 256, and the character classes below are Python's on that
      range.
    - [Room] instances are mutable objects that are shared by reference
      (the [rooms] dict, [current_room] and the [connections] of other rooms
      may all point to one object), so they live in a store, [heap], and are
      referred to by their identity, a [loc].
    - A [dict] whose iteration order is observed ([Room.connections]) is an
      insertion-ordered association list; the other dicts are [gmap]s.
    - A call that may raise returns a [result]; a method of [GameWorld] is a
      function [GameWorld -> result A * GameWorld], so that the writes made
      before an exception are kept, as they are in Python. *)

From Stdlib Require Import ZArith String Ascii List Lia.
From stdpp Require Import gmap strings list fin_maps fin_sets option.

Open Scope Z_scope.
Open Scope string_scope.

(** ** Python primitives *)

Module py.

Inductive exn :=
| KeyError
| ValueError
| GenerationFailed     (* any exception raised by an external generator call *)
| DanglingReference.   (* a [loc] outside the store: has no Python counterpart *)

Inductive result (A : Type) :=
| Ok (a : A)
| Raise (e : exn).
Arguments Ok {A} a.
Arguments Raise {A} e.

Definition code (c : ascii) : nat := nat_of_ascii c.

(** [str.isspace] on one code point below 256. *)
Definition isspace (c : ascii) : bool :=
  let n := code c in
  ((9 <=? n) && (n <=? 13) || (28 <=? n) && (n <=? 32)
   || (n =? 133) || (n =? 160))%nat.

Definition is_empty (s : string) : bool :=
  match s with EmptyString => true | String _ _ => false end.

Fixpoint lstrip_by (p : ascii -> bool) (s : string) : string :=
  match s with
  | EmptyString => EmptyString
  | String c r => if p c then lstrip_by p r else s
  end.

Fixpoint rstrip_by (p : ascii -> bool) (s : string) : string :=
  match s with
  | EmptyString => EmptyString
  | String c r =>
      let r' := rstrip_by p r in
      if is_empty r' && p c then EmptyString else String c r'
  end.

Definition strip_by (p : ascii -> bool) (s : string) : string :=
  lstrip_by p (rstrip_by p s).

(** [s.strip()] *)
Definition strip (s : string) : string := strip_by isspace s.

(** [s.strip(c)] for a one-character argument. *)
Definition strip_char (c : ascii) (s : string) : string :=
  strip_by (Ascii.eqb c) s.

Definition lower_char (c : ascii) : ascii :=
  let n := code c in
  if ((65 <=? n) && (n <=? 90) || (192 <=? n) && (n <=? 222) && negb (n =? 215))%nat
  then ascii_of_nat (n + 32) else c.

(** [s.lower()] *)
Fixpoint lower (s : string) : string :=
  match s with
  | EmptyString => EmptyString
  | String c r => String (lower_char c) (lower r)
  end.

(** [s.split(sep)] for a one-character separator: the first field and the
    fields after it (the list that Python returns is never empty). *)
Fixpoint split_fields (sep : ascii) (s : string) : string * list string :=
  match s with
  | EmptyString => (EmptyString, [])
  | String c r =>
      let '(h, t) := split_fields sep r in
      if Ascii.eqb c sep then (EmptyString, h :: t) else (String c h, t)
  end.

Definition split (sep : ascii) (s : string) : list string :=
  let '(h, t) := split_fields sep s in h :: t.

(** [c in s] for a character [c], and whether [s] is made of characters of
    one class only. *)
Fixpoint contains (c : ascii) (s : string) : bool :=
  match s with
  | EmptyString => false
  | String c' r => Ascii.eqb c' c || contains c r
  end.

Fixpoint all_chars (p : ascii -> bool) (s : string) : bool :=
  match s with
  | EmptyString => true
  | String c r => p c && all_chars p r
  end.

(** [int(s)], base 10.  The text is cut at both ends by the white space
    that the conversion accepts (the ASCII one, and the two other spaces
    below 256, which it first turns into blanks), then read as an optional
    sign and decimal digits, where single underscores may separate digits.
    A text with more digits than the interpreter's bound is refused as
    well; the bound is 4300 unless it is reconfigured, which the program
    does not do. *)
Definition is_int_space (c : ascii) : bool :=
  let n := code c in
  ((9 <=? n) && (n <=? 13) || (n =? 32) || (n =? 133) || (n =? 160))%nat.

Definition is_digit (c : ascii) : bool :=
  let n := code c in ((48 <=? n) && (n <=? 57))%nat.

Definition digit_value (c : ascii) : Z := Z.of_nat (code c) - 48.

Fixpoint int_digits (acc : Z) (s : string) : option Z :=
  match s with
  | EmptyString => Some acc
  | String c r =>
      if is_digit c then int_digits (10 * acc + digit_value c) r
      else if Ascii.eqb c "_" then
        match r with
        | String d r' =>
            if is_digit d then int_digits (10 * acc + digit_value d) r'
            else None
        | EmptyString => None
        end
      else None
  end.

Definition int_unsigned (s : string) : option Z :=
  match s with
  | String c r => if is_digit c then int_digits (digit_value c) r else None
  | EmptyString => None
  end.

(** [sys.get_int_max_str_digits()] *)
Definition int_max_str_digits : nat := 4300.

Fixpoint count_digits (s : string) : nat :=
  match s with
  | EmptyString => O
  | String c r => if is_digit c then S (count_digits r) else count_digits r
  end.

Definition int (s : string) : option Z :=
  let body := strip_by is_int_space s in
  if (int_max_str_digits <? count_digits body)%nat then None
  else
    match body with
    | String "+" r => int_unsigned r
    | String "-" r => Z.opp <$> int_unsigned r
    | body => int_unsigned body
    end.

(** The double-quote character. *)
Definition dquote : ascii := ascii_of_nat 34.

(** A [dict] in insertion order: [d[k]], [d[k] = v], [k in d]. *)
Section dict.
Context {K V : Type} `{EqDecision K}.

Fixpoint dict_get (k : K) (d : list (K * V)) : option V :=
  match d with
  | [] => None
  | (k', v) :: d' => if decide (k = k') then Some v else dict_get k d'
  end.

Fixpoint dict_set (k : K) (v : V) (d : list (K * V)) : list (K * V) :=
  match d with
  | [] => [(k, v)]
  | (k', v') :: d' =>
      if decide (k = k') then (k', v) :: d' else (k', v') :: dict_set k v d'
  end.

End dict.

End py.

Import py.

(** ** models.py *)

Module models.

Inductive Direction := NORTH | SOUTH | EAST | WEST.

#[global] Instance Direction_eq_dec : EqDecision Direction.
Proof. solve_decision. Defined.

(** The value of a [Direction] member.  The members are strings equal to
    their values, also as dict keys, and [move] is called with the four
    values only; it is modelled on the members. *)
Definition Direction_value (d : Direction) : string :=
  match d with
  | NORTH => "north" | SOUTH => "south" | EAST => "east" | WEST => "west"
  end.

(** [Direction(value)]: the member that has the value; any other value
    raises [ValueError] ([None]). *)
Definition Direction_of_value (value : string) : option Direction :=
  if String.eqb value "north" then Some NORTH
  else if String.eqb value "south" then Some SOUTH
  else if String.eqb value "east" then Some EAST
  else if String.eqb value "west" then Some WEST
  else None.

(** [Union[str, int, bool]] *)
Inductive PyVal :=
| VInt (z : Z)
| VBool (b : bool)
| VStr (s : string).

#[global] Instance PyVal_eq_dec : EqDecision PyVal.
Proof. solve_decision. Defined.

Record Action := mkAction {
  action_description : string;
  changed_variables : gmap string PyVal
}.

Record Actions := mkActions { actions : list Action }.

Record Event := mkEvent { event : string; is_canon : bool }.

(** The identity of a [Room] object. *)
Abbreviation loc := nat.

Record Room := mkRoom {
  name : string;
  description : string;
  image_prompt : string;
  image_path : option string;
  connections : list (Direction * option loc);
  canon_event : string
}.

(** [Room.__init__]: the fields of a new room. *)
Definition Room_init (name description image_prompt canon_event : string) : Room :=
  {| name := name;
     description := description;
     image_prompt := image_prompt;
     image_path := None;
     connections := [(NORTH, None); (SOUTH, None); (EAST, None); (WEST, None)];
     canon_event := canon_event |}.

Definition set_connections (c : list (Direction * option loc)) (r : Room) : Room :=
  {| name := name r;
     description := description r;
     image_prompt := image_prompt r;
     image_path := image_path r;
     connections := c;
     canon_event := canon_event r |}.

(** What [seen_events] holds: [move] appends the class [Event] itself, not
    the event it has just built. *)
Inductive SeenEntry :=
| EventClass
| EventValue (e : Event).

End models.

Import models.

(** ** utils.py *)

Module utils.

(** The external event and action generators, a request/response
    interface; [None] stands for a call that raises. *)
Class Generator := {
  generate_non_canon_event : Room -> list SeenEntry -> option string;
  generate_actions :
    option Room -> option Event -> gmap string PyVal -> option Actions
}.

(** The body of [parse_variables] from the assignment to [value] to the
    casts. *)
Definition parse_value (value : string) : PyVal :=
  let value := strip_char dquote (strip value) in
  match int value with
  | Some z => VInt z
  | None =>
      if String.eqb (lower value) "true" then VBool true
      else if String.eqb (lower value) "false" then VBool false
      else VStr value
  end.

(** One iteration of the loop of [parse_variables]. *)
Definition parse_line (result : gmap string PyVal) (variable : string)
  : py.result (gmap string PyVal) :=
  if is_empty (strip variable) then Ok result
  else
    match split ":" variable with
    | [key; value] => Ok (<[strip key := parse_value value]> result)
    | _ => Raise ValueError
    end.

Fixpoint parse_variables_from (result : gmap string PyVal)
    (variables : list string) : py.result (gmap string PyVal) :=
  match variables with
  | [] => Ok result
  | variable :: rest =>
      match parse_line result variable with
      | Ok result' => parse_variables_from result' rest
      | Raise e => Raise e
      end
  end.

Definition parse_variables (variables : list string)
  : py.result (gmap string PyVal) :=
  parse_variables_from ∅ variables.

End utils.

Import utils.

(** ** game_world.py *)

Module game_world.

Record GameWorld := mkGameWorld {
  heap : gmap loc Room;   (* the [Room] objects that the references below denote *)
  rooms : gmap string loc;
  current_room : option loc;
  original_room_visit_order : list string;
  current_event : option Event;
  visited_rooms : list string;
  seen_events : list SeenEntry;
  variables : gmap string PyVal;
  actions : option Actions
}.

Definition set_heap (v : gmap loc Room) (w : GameWorld) : GameWorld :=
  mkGameWorld v (rooms w) (current_room w) (original_room_visit_order w)
    (current_event w) (visited_rooms w) (seen_events w) (variables w) (actions w).

Definition set_rooms (v : gmap string loc) (w : GameWorld) : GameWorld :=
  mkGameWorld (heap w) v (current_room w) (original_room_visit_order w)
    (current_event w) (visited_rooms w) (seen_events w) (variables w) (actions w).

Definition set_current_room (v : option loc) (w : GameWorld) : GameWorld :=
  mkGameWorld (heap w) (rooms w) v (original_room_visit_order w)
    (current_event w) (visited_rooms w) (seen_events w) (variables w) (actions w).

Definition set_current_event (v : option Event) (w : GameWorld) : GameWorld :=
  mkGameWorld (heap w) (rooms w) (current_room w) (original_room_visit_order w)
    v (visited_rooms w) (seen_events w) (variables w) (actions w).

Definition set_visited_rooms (v : list string) (w : GameWorld) : GameWorld :=
  mkGameWorld (heap w) (rooms w) (current_room w) (original_room_visit_order w)
    (current_event w) v (seen_events w) (variables w) (actions w).

Definition set_seen_events (v : list SeenEntry) (w : GameWorld) : GameWorld :=
  mkGameWorld (heap w) (rooms w) (current_room w) (original_room_visit_order w)
    (current_event w) (visited_rooms w) v (variables w) (actions w).

Definition set_variables (v : gmap string PyVal) (w : GameWorld) : GameWorld :=
  mkGameWorld (heap w) (rooms w) (current_room w) (original_room_visit_order w)
    (current_event w) (visited_rooms w) (seen_events w) v (actions w).

Definition set_actions (v : option Actions) (w : GameWorld) : GameWorld :=
  mkGameWorld (heap w) (rooms w) (current_room w) (original_room_visit_order w)
    (current_event w) (visited_rooms w) (seen_events w) (variables w) v.

(** A method: it returns or raises, and leaves a world behind either way. *)
Definition M (A : Type) : Type := GameWorld -> result A * GameWorld.

#[global] Instance M_ret : MRet M := fun A a w => (Ok a, w).

#[global] Instance M_bind : MBind M := fun A B f m w =>
  match m w with
  | (Ok a, w') => f a w'
  | (Raise e, w') => (Raise e, w')
  end.

Definition raise {A} (e : exn) : M A := fun w => (Raise e, w).
Definition get : M GameWorld := fun w => (Ok w, w).
Definition modify (f : GameWorld -> GameWorld) : M unit := fun w => (Ok tt, f w).

(** Reading a field of the object behind a reference. *)
Definition deref (l : loc) : M Room := fun w =>
  match heap w !! l with
  | Some r => (Ok r, w)
  | None => (Raise DanglingReference, w)
  end.

(** [Room(name, description, image_prompt, canon_event)]: a new object. *)
Definition new_Room (name description image_prompt canon_event : string) : M loc :=
  fun w =>
    let l := fresh (dom (heap w)) in
    (Ok l, set_heap (<[l := Room_init name description image_prompt canon_event]> (heap w)) w).

(** [GameWorld.__init__]; the stored API client plays no part here. *)
Definition GameWorld_init (original_room_visit_order : list string)
    (variables : gmap string PyVal) : GameWorld :=
  {| heap := ∅;
     rooms := ∅;
     current_room := None;
     original_room_visit_order := original_room_visit_order;
     current_event := None;
     visited_rooms := [];
     seen_events := [];
     variables := variables;
     actions := None |}.

Definition is_canon_route (w : GameWorld) : bool :=
  bool_decide
    (visited_rooms w =
     take (Nat.min (length (original_room_visit_order w)) (length (visited_rooms w)))
       (original_room_visit_order w)).

(** The table that [connect_rooms] builds; its only use is commented out
    in the source. *)
Definition opposite (d : Direction) : Direction :=
  match d with
  | NORTH => SOUTH
  | SOUTH => NORTH
  | EAST => WEST
  | WEST => EAST
  end.

Section methods.
Context `{G : Generator}.

Definition generate_actions : M unit :=
  w ← get;
  room ← match current_room w with
          | Some l => r ← deref l; mret (Some r)
          | None => mret None
          end;
  match utils.generate_actions room (current_event w) (variables w) with
  | Some a => modify (set_actions (Some a))
  | None => raise GenerationFailed
  end.

Definition add_room (room : loc) : M unit :=
  r ← deref room;
  modify (fun w => set_rooms (<[name r := room]> (rooms w)) w);;
  w ← get;
  match current_room w with
  | None =>
      modify (fun w => set_visited_rooms (visited_rooms w ++ [name r]) w);;
      modify (set_current_room (Some room));;
      modify (set_current_event (Some (mkEvent (canon_event r) true)));;
      generate_actions
  | Some _ => mret tt
  end.

Definition connect_rooms (room1_name room2_name : string) (direction : Direction)
  : M unit :=
  w ← get;
  match rooms w !! room1_name, rooms w !! room2_name with
  | Some room1, Some room2 =>
      r1 ← deref room1;
      modify (fun w =>
        set_heap
          (<[room1 := set_connections
                        (dict_set direction (Some room2) (connections r1)) r1]>
             (heap w)) w)
  | _, _ => mret tt
  end.

Definition get_event (room : loc) : M (string * bool) :=
  w ← get;
  r ← deref room;
  if is_canon_route w then mret (canon_event r, true)
  else
    match generate_non_canon_event r (seen_events w) with
    | Some e => mret (e, false)
    | None => raise GenerationFailed
    end.

(** The loop of [update_variables] runs over the keys of
    [action.changed_variables]; the value that [map_fold] hands over is
    [action.changed_variables[variable]]. *)
Definition applied (vars changed : gmap string PyVal) : gmap string PyVal :=
  map_fold
    (fun variable value vars =>
       if decide (is_Some (vars !! variable))
       then <[variable := value]> vars else vars)
    vars changed.

Definition update_variables (action : Action) : M unit :=
  modify (fun w =>
    set_variables (applied (variables w) (changed_variables action)) w).

(** [any(var in self.variables for var in action.changed_variables.keys())];
    the method reads the world and writes nothing. *)
Definition has_valid_variables (action : Action) (w : GameWorld) : bool :=
  existsb (fun var => bool_decide (is_Some (variables w !! var)))
    (map_to_list (changed_variables action)).*1.

End methods.

End game_world.

Import game_world.

(** ** game_ui.py *)

Module game_ui.

(** [float('inf')], [float('-inf')] and the integers, as the extents hold
    them. *)
Inductive Ext := PosInf | NegInf | Fin (z : Z).

Definition ext_lt (a b : Ext) : bool :=
  match a, b with
  | PosInf, _ => false
  | NegInf, NegInf => false
  | NegInf, _ => true
  | Fin _, PosInf => true
  | Fin _, NegInf => false
  | Fin x, Fin y => Z.ltb x y
  end.

(** [min(a, b)] and [max(a, b)] *)
Definition py_min (a b : Ext) : Ext := if ext_lt b a then b else a.
Definition py_max (a b : Ext) : Ext := if ext_lt a b then b else a.

(** The fields that [calculate_room_positions] sets. *)
Record Layout := mkLayout {
  grid_positions : gmap string (Z * Z);
  min_x : Ext;
  max_x : Ext;
  min_y : Ext;
  max_y : Ext
}.

(** Those fields with the two locals of the traversal. *)
Record bfs_state := mkBfs {
  layout : Layout;
  visited : gset string;
  queue : list (loc * Z * Z)
}.

Definition offsets (d : Direction) : Z * Z :=
  match d with
  | NORTH => (0, -1)
  | SOUTH => (0, 1)
  | EAST => (1, 0)
  | WEST => (-1, 0)
  end.

(** The statements guarded by the test on [next_room]. *)
Definition place (next_room : loc) (next_name : string) (new_grid_x new_grid_y : Z)
    (st : bfs_state) : bfs_state :=
  let L := layout st in
  {| layout :=
       {| grid_positions := <[next_name := (new_grid_x, new_grid_y)]> (grid_positions L);
          min_x := py_min (min_x L) (Fin new_grid_x);
          max_x := py_max (max_x L) (Fin new_grid_x);
          min_y := py_min (min_y L) (Fin new_grid_y);
          max_y := py_max (max_y L) (Fin new_grid_y) |};
     visited := {[next_name]} ∪ visited st;
     queue := queue st ++ [(next_room, new_grid_x, new_grid_y)] |}.

(** One iteration of the [for] loop over [connections.items()].  [None]
    is a reference outside the store. *)
Definition scan_item (h : gmap loc Room) (grid_x grid_y : Z)
    (st : bfs_state) (item : Direction * option loc) : option bfs_state :=
  match item with
  | (_, None) => Some st
  | (direction, Some next_room) =>
      r ← h !! next_room;
      if decide (name r ∈ visited st) then Some st
      else
        let '(dx, dy) := offsets direction in
        Some (place next_room (name r) (grid_x + dx) (grid_y + dy) st)
  end.

Fixpoint scan_items (h : gmap loc Room) (grid_x grid_y : Z)
    (st : bfs_state) (items : list (Direction * option loc)) : option bfs_state :=
  match items with
  | [] => Some st
  | item :: rest =>
      st' ← scan_item h grid_x grid_y st item;
      scan_items h grid_x grid_y st' rest
  end.

(** One pass of the body of the [while queue] loop: take the first entry
    off the queue and scan its connections. *)
Definition bfs_iteration (h : gmap loc Room) (st : bfs_state) : option bfs_state :=
  match queue st with
  | [] => Some st
  | (current, grid_x, grid_y) :: rest =>
      r ← h !! current;
      scan_items h grid_x grid_y (mkBfs (layout st) (visited st) rest) (connections r)
  end.

(** The [while queue] loop; [None] also when [fuel] passes were not enough
    to empty the queue. *)
Fixpoint bfs_loop (fuel : nat) (h : gmap loc Room) (st : bfs_state)
  : option bfs_state :=
  match queue st with
  | [] => Some st
  | _ :: _ =>
      match fuel with
      | O => None
      | S fuel' => st' ← bfs_iteration h st; bfs_loop fuel' h st'
      end
  end.

(** The state after [k] passes of the loop. *)
Fixpoint bfs_after (k : nat) (h : gmap loc Room) (st : bfs_state)
  : option bfs_state :=
  match k with
  | O => Some st
  | S k' => st' ← bfs_iteration h st; bfs_after k' h st'
  end.

Definition empty_layout : Layout :=
  {| grid_positions := ∅;
     min_x := PosInf; max_x := NegInf; min_y := PosInf; max_y := NegInf |}.

Definition bfs_start (start_room : loc) (start_name : string) : bfs_state :=
  {| layout :=
       {| grid_positions := <[start_name := (0, 0)]> ∅;
          min_x := py_min PosInf (Fin 0);
          max_x := py_max NegInf (Fin 0);
          min_y := py_min PosInf (Fin 0);
          max_y := py_max NegInf (Fin 0) |};
     visited := {[start_name]};
     queue := [(start_room, 0, 0)] |}.

(** Every pass of the loop takes a room off the queue, and a room enters
    the queue once per name, so one pass per stored room is enough. *)
Definition calculate_room_positions (w : GameWorld) : option Layout :=
  match current_room w with
  | None => Some empty_layout
  | Some start_room =>
      r ← heap w !! start_room;
      st ← bfs_loop (size (heap w)) (heap w) (bfs_start start_room (name r));
      Some (layout st)
  end.

(** The state that [update_display] gives the button of a direction:
    enabled ([tk.NORMAL]) when the entry of the current room at that
    direction holds a room.  Without a current room the method returns
    before it comes to the buttons ([None]). *)
Definition button_state (direction : Direction) : M (option bool) :=
  w ← get;
  match current_room w with
  | None => mret None
  | Some current =>
      r ← deref current;
      match dict_get direction (connections r) with
      | Some next_room => mret (Some (bool_decide (is_Some next_room)))
      | None => raise KeyError
      end
  end.

(** The grid settings of [draw_map]. *)
Definition cell_size : Z := 100.
Definition margin : Z := 20.
Definition border_width : Z := 2.

(** An extent as the integer it is once a start room was laid out; the
    arithmetic of [draw_map] on the infinite extents of an empty layout is
    arithmetic on floats and is left out ([None]). *)
Definition ext_int (e : Ext) : option Z :=
  match e with Fin z => Some z | _ => None end.

(** [canvas_width] and [canvas_height] of [draw_map]. *)
Definition canvas_size (L : Layout) : option (Z * Z) :=
  mnx ← ext_int (min_x L); mxx ← ext_int (max_x L);
  mny ← ext_int (min_y L); mxy ← ext_int (max_y L);
  let grid_cols := mxx - mnx + 1 in
  let grid_rows := mxy - mny + 1 in
  Some (grid_cols * cell_size + 2 * margin + border_width,
        grid_rows * cell_size + 2 * margin + border_width).

(** [cell_x] and [cell_y] of [draw_map] for a grid coordinate. *)
Definition cell_origin (L : Layout) (grid_x grid_y : Z) : option (Z * Z) :=
  mnx ← ext_int (min_x L); mny ← ext_int (min_y L);
  Some ((grid_x - mnx) * cell_size + margin, (grid_y - mny) * cell_size + margin).

(** The corners that [draw_map] passes to [create_rectangle] for the cell
    of a room: left, top, right, bottom. *)
Definition room_rectangle (L : Layout) (grid_x grid_y : Z) : option (Z * Z * Z * Z) :=
  c ← cell_origin L grid_x grid_y;
  Some (c.1, c.2, c.1 + cell_size, c.2 + cell_size).

(** [self.game_world.rooms[room_name]] in the first loop of [draw_map]. *)
Definition draw_map_room (room_name : string) : M Room :=
  w ← get;
  match rooms w !! room_name with
  | Some l => deref l
  | None => raise KeyError
  end.

Section methods.
Context `{G : Generator}.

(** [update_display] writes widgets and leaves the world as it is, which
    is what is modelled here.  The lookups that it makes in the world on
    the way, and that can raise, are modelled apart: [button_state] for the
    buttons and [draw_map_room] for the map, which is drawn from the layout
    that the window computed when it was made. *)
Definition update_display : M unit := mret tt.

Definition move (direction : Direction) : M unit :=
  w ← get;
  match current_room w with
  | None => mret tt
  | Some current =>
      r ← deref current;
      next_room ← match dict_get direction (connections r) with
                   | Some v => mret v
                   | None => raise KeyError
                   end;
      match next_room with
      | None => mret tt
      | Some next =>
          modify (set_current_room (Some next));;
          n ← deref next;
          modify (fun w => set_visited_rooms (visited_rooms w ++ [name n]) w);;
          ev ← game_world.get_event next;
          modify (set_current_event (Some (mkEvent ev.1 ev.2)));;
          modify (fun w => set_seen_events (seen_events w ++ [EventClass]) w);;
          game_world.generate_actions;;
          update_display
      end
  end.

Definition perform_action (action : Action) : M unit :=
  game_world.update_variables action;;
  update_display.

End methods.

End game_ui.

Import game_ui.

(** ** main.py: building the world *)

Module main.

(** [d[k]] for an object of the world definition; the values that the
    loops read are taken to be strings, as the typed dicts of [models.py]
    declare them. *)
Definition getitem (d : gmap string string) (k : string) : M string :=
  match d !! k with
  | Some v => mret v
  | None => raise KeyError
  end.

Section run_game.
Context `{G : Generator}.

(** The two loops of [run_game] over the rooms and the connections of the
    world definition. *)
Fixpoint add_rooms (rooms : list (gmap string string)) : M unit :=
  match rooms with
  | [] => mret tt
  | room_data :: rest =>
      n ← getitem room_data "name";
      d ← getitem room_data "description";
      i ← getitem room_data "image_prompt";
      c ← getitem room_data "canon_event";
      room ← new_Room n d i c;
      add_room room;;
      add_rooms rest
  end.

Fixpoint connect_all (connections : list (gmap string string)) : M unit :=
  match connections with
  | [] => mret tt
  | conn :: rest =>
      room1 ← getitem conn "room1";
      room2 ← getitem conn "room2";
      value ← getitem conn "direction";
      direction ← match Direction_of_value value with
                   | Some d => mret d
                   | None => raise ValueError
                   end;
      connect_rooms room1 room2 direction;;
      connect_all rest
  end.

Definition load_world (order : list string) (vars : gmap string PyVal)
    (rooms connections : list (gmap string string)) : GameWorld :=
  ((add_rooms rooms;; connect_all connections) (GameWorld_init order vars)).2.

End run_game.

End main.

(** ** The structural invariant of the room graph *)

(** [l] is one of the values of the [rooms] dict. *)
Definition is_member (w : GameWorld) (l : loc) : Prop :=
  ∃ n, rooms w !! n = Some l.

(** The connections of a room: the four keys, and members as targets. *)
Definition room_ok (w : GameWorld) (r : Room) : Prop :=
  (connections r).*1 = [NORTH; SOUTH; EAST; WEST] ∧
  ∀ d l, dict_get d (connections r) = Some (Some l) → is_member w l.

Definition graph_inv (w : GameWorld) : Prop :=
  (∀ n l, rooms w !! n = Some l → ∃ r, heap w !! l = Some r ∧ room_ok w r) ∧
  (∀ l, current_room w = Some l → is_member w l).

(** ** The event of a room that is entered *)

(** The event that [move] stores for the room [rn] it enters, when
    [get_event] returns. *)
Definition event_for `{G : Generator} (w : GameWorld) (rn : Room) : option Event :=
  if is_canon_route w then Some (mkEvent (canon_event rn) true)
  else e ← generate_non_canon_event rn (seen_events w); Some (mkEvent e false).

(** ** Notions used to describe the grid layout *)

(** No reference leaves the store (in Python none can). *)
Definition store_closed (h : gmap loc Room) : Prop :=
  ∀ l r d l', h !! l = Some r → (d, Some l') ∈ connections r → is_Some (h !! l').

(** The same, as a test that runs. *)
Definition store_closedb (h : gmap loc Room) : bool :=
  forallb
    (fun lr : loc * Room =>
       forallb
         (fun item : Direction * option loc =>
            match item.2 with
            | Some l' => bool_decide (is_Some (h !! l'))
            | None => true
            end)
         (connections lr.2))
    (map_to_list h).

(** The coordinate one step from [p] in direction [d]: north is up and
    east is right on a grid whose second coordinate grows downwards. *)
Definition shift (p : Z * Z) (d : Direction) : Z * Z :=
  match d with
  | NORTH => (p.1, p.2 - 1)
  | SOUTH => (p.1, p.2 + 1)
  | EAST => (p.1 + 1, p.2)
  | WEST => (p.1 - 1, p.2)
  end.

(** The extents of [L] bound the coordinate [p]. *)
Definition within (L : Layout) (p : Z * Z) : Prop :=
  ext_lt (Fin p.1) (min_x L) = false ∧ ext_lt (max_x L) (Fin p.1) = false ∧
  ext_lt (Fin p.2) (min_y L) = false ∧ ext_lt (max_y L) (Fin p.2) = false.

(** The room object [l] has a coordinate in [L], and so has the name of
    every room that one of its connections refers to. *)
Definition traversed (h : gmap loc Room) (L : Layout) (l : loc) : Prop :=
  ∃ r p, h !! l = Some r ∧ grid_positions L !! name r = Some p ∧
    ∀ d lc, (d, Some lc) ∈ connections r →
      ∃ rc, h !! lc = Some rc ∧ is_Some (grid_positions L !! name rc).

(** The name [n] was given [p] as the start room [rs], or as the room that
    a connection, in direction [d], of a room object of [ds] refers to, one
    step in that direction from the coordinate of that room. *)
Definition assigned_from (h : gmap loc Room) (rs : Room) (ds : list loc)
    (L : Layout) (n : string) (p : Z * Z) : Prop :=
  (n = name rs ∧ p = (0, 0)) ∨
  ∃ lp rp pp d lc rc,
    lp ∈ ds ∧ h !! lp = Some rp ∧ grid_positions L !! name rp = Some pp ∧
    (d, Some lc) ∈ connections rp ∧ h !! lc = Some rc ∧ name rc = n ∧
    p = shift pp d.

(** The stored rooms whose name the traversal has not met. *)
Definition unplaced (h : gmap loc Room) (st : bfs_state) : nat :=
  length (filter (fun lr : loc * Room => name lr.2 ∉ visited st) (map_to_list h)).

(** What holds of the state of the traversal from the start room [rs]
    whenever the queue is looked at, [ds] being the room objects taken off
    the queue so far. *)
Record bfs_base (h : gmap loc Room) (rs : Room) (ds : list loc)
    (st : bfs_state) : Prop := mkBase {
  base_root : grid_positions (layout st) !! name rs = Some (0, 0);
  base_visited :
    ∀ n, n ∈ visited st ↔ is_Some (grid_positions (layout st) !! n);
  base_queue :
    ∀ l x y, (l, x, y) ∈ queue st →
      ∃ r, h !! l = Some r ∧ grid_positions (layout st) !! name r = Some (x, y);
  base_parent :
    ∀ n p, grid_positions (layout st) !! n = Some p →
      assigned_from h rs ds (layout st) n p;
  base_within :
    ∀ n p, grid_positions (layout st) !! n = Some p → within (layout st) p
}.

Definition bfs_inv (h : gmap loc Room) (s : loc) (rs : Room) (ds : list loc)
    (st : bfs_state) : Prop :=
  bfs_base h rs ds st ∧
  (∀ l, l ∈ ds → traversed h (layout st) l) ∧
  (s ∈ ds ∨ (s, 0, 0) ∈ queue st).

(** ** Notions used to describe a play session *)

(** The world after the key or button events for the directions [ds], one
    call of [move] each; Tk reports an exception that a callback raises and
    goes on with the next event, so the world that a failed call leaves is
    the one the next call finds. *)
Fixpoint moves `{G : Generator} (ds : list Direction) (w : GameWorld) : GameWorld :=
  match ds with
  | [] => w
  | d :: ds' => moves ds' (move d w).2
  end.

(** The last entry of the history names the current room. *)
Definition history_tracks_current (w : GameWorld) : Prop :=
  match current_room w with
  | None => visited_rooms w = []
  | Some l => ∃ r, heap w !! l = Some r ∧ list.last (visited_rooms w) = Some (name r)
  end.

(** Every room object of the store is the room that [rooms] holds under
    its name, and [rooms] holds nothing else. *)
Definition keyed_by_name (w : GameWorld) : Prop :=
  (∀ n l, rooms w !! n = Some l → ∃ r, heap w !! l = Some r ∧ name r = n) ∧
  (∀ l r, heap w !! l = Some r → rooms w !! name r = Some l).

Definition world_wf (w : GameWorld) : Prop := graph_inv w ∧ keyed_by_name w.

(** No two room objects of the store have one name. *)
Definition names_unique (h : gmap loc Room) : Prop :=
  ∀ l1 l2 r1 r2, h !! l1 = Some r1 → h !! l2 = Some r2 →
    name r1 = name r2 → l1 = l2.

(** A connection leads from [l] to [l']; the rooms that connections lead
    to from [s]. *)
Definition connected (h : gmap loc Room) (l l' : loc) : Prop :=
  ∃ r d, h !! l = Some r ∧ (d, Some l') ∈ connections r.

Definition reachable (h : gmap loc Room) (s l : loc) : Prop :=
  rtc (connected h) s l.

(** More of what holds of the state of the traversal: a name with a
    coordinate is the name of a room object taken off the queue or waiting
    in it; these objects are reachable from the start; the extents are
    integers around 0; and the columns and rows they span are at most one
    more than the names placed, which are at most the stored rooms. *)
Record bfs_more (h : gmap loc Room) (s : loc) (ds : list loc)
    (st : bfs_state) : Prop := mkMore {
  more_named :
    ∀ n, is_Some (grid_positions (layout st) !! n) →
      ∃ l r, (l ∈ ds ∨ l ∈ (queue st).*1.*1) ∧ h !! l = Some r ∧ name r = n;
  more_reachable :
    ∀ l, l ∈ ds ∨ l ∈ (queue st).*1.*1 → reachable h s l;
  more_extents :
    ∃ a b c d,
      min_x (layout st) = Fin a ∧ max_x (layout st) = Fin b ∧
      min_y (layout st) = Fin c ∧ max_y (layout st) = Fin d ∧
      (a ≤ 0 ≤ b)%Z ∧ (c ≤ 0 ≤ d)%Z ∧
      ((b - a + 1) + (d - c + 1)
       ≤ Z.of_nat (size (grid_positions (layout st))) + 1)%Z;
  more_count :
    (size (grid_positions (layout st)) + unplaced h st ≤ size h)%nat
}.

(** The value of an object of the world definition under a key that it
    has. *)
Definition field (k : string) (d : gmap string string) : string :=
  default EmptyString (d !! k).

(** A room of the world definition has the four keys that [run_game]
    reads; a connection has its three, and a member value as direction. *)
Definition room_data_ok (d : gmap string string) : Prop :=
  is_Some (d !! "name") ∧ is_Some (d !! "description") ∧
  is_Some (d !! "image_prompt") ∧ is_Some (d !! "canon_event").

Definition connection_keys (d : gmap string string) : Prop :=
  is_Some (d !! "room1") ∧ is_Some (d !! "room2") ∧ is_Some (d !! "direction").

Definition connection_ok (d : gmap string string) : Prop :=
  is_Some (d !! "room1") ∧ is_Some (d !! "room2") ∧
  ∃ direction, d !! "direction" = Some (Direction_value direction).

(** The room that [run_game] constructs from a room of the world
    definition. *)
Definition room_of (d : gmap string string) : Room :=
  Room_init (field "name" d) (field "description" d)
    (field "image_prompt" d) (field "canon_event" d).

(** [s.count(c)] for a character [c]. *)
Fixpoint count_char (c : ascii) (s : string) : nat :=
  match s with
  | EmptyString => O
  | String c' r => if Ascii.eqb c' c then S (count_char c r) else count_char c r
  end.

(** A line that [parse_variables] takes: blank, or with one colon. *)
Definition line_ok (line : string) : Prop :=
  is_empty (strip line) = true ∨ count_char ":" line = 1%nat.

(** What [parse_variables] stores for a value: an integer, a boolean, or
    a text that reads as neither. *)
Definition typed_value (v : PyVal) : Prop :=
  match v with
  | VStr s => int s = None ∧ lower s ≠ "true" ∧ lower s ≠ "false"
  | _ => True
  end.

(** [t] is [s] without the characters of the class [p] at its two ends:
    what [s.strip()], for the white space, and [s.strip(c)], for the
    character [c], leave of [s]. *)
Definition stripped_of (p : ascii → bool) (s t : string) : Prop :=
  ∃ a b, s = a +:+ t +:+ b ∧ all_chars p a = true ∧ all_chars p b = true ∧
    (∀ c r, t = String c r → p c = false) ∧
    (∀ r c, t = r +:+ String c EmptyString → p c = false).

(** The number that a text of decimal digits denotes. *)
Definition decimal (s : string) : Z :=
  fold_left (fun acc c => 10 * acc + (Z.of_nat (nat_of_ascii c) - 48))
    (list_ascii_of_string s) 0.

(** ** Example worlds and generators *)

Module examples.

(** The event generator raises; the action generator offers nothing. *)
Definition failing_events : Generator :=
  Build_Generator (fun _ _ => None) (fun _ _ _ => Some (mkActions [])).

(** The event generator answers; the action generator raises when asked
    about the room called [n]. *)
Definition failing_actions_in (n : string) : Generator :=
  Build_Generator
    (fun r _ => Some ("Something else happens in " +:+ name r))
    (fun room _ _ =>
       match room with
       | Some r => if String.eqb (name r) n then None else Some (mkActions [])
       | None => None
       end).

(** Both answer; the one action on offer restates the variables it was
    asked about. *)
Definition answering : Generator :=
  Build_Generator (fun r _ => Some ("Something else happens in " +:+ name r))
                  (fun _ _ vars => Some (mkActions [mkAction "rest" vars])).

Definition room_data (name description image_prompt canon_event : string)
  : gmap string string :=
  {["name" := name; "description" := description;
    "image_prompt" := image_prompt; "canon_event" := canon_event]}.

Definition connection (room1 room2 direction : string) : gmap string string :=
  {["room1" := room1; "room2" := room2; "direction" := direction]}.

Definition three_rooms : list (gmap string string) :=
  [room_data "A" "the bridge" "a bridge" "event of A";
   room_data "B" "the hangar" "a hangar" "event of B";
   room_data "C" "the brig" "a brig" "event of C"].

(** A is the start; B lies north of A, C east of A and east of B. *)
Definition triangle : list (gmap string string) :=
  [connection "A" "B" "north"; connection "A" "C" "east";
   connection "B" "C" "east"].

(** B lies north of A and C east of B: the way to C leads through B. *)
Definition chain : list (gmap string string) :=
  [connection "A" "B" "north"; connection "B" "C" "east"].

Definition health : gmap string PyVal := {["health" := VInt 100]}.

Definition world (G : Generator) (order : list string) : GameWorld :=
  main.load_world (G := G) order health three_rooms triangle.

Definition chain_world (G : Generator) (order : list string) : GameWorld :=
  main.load_world (G := G) order health three_rooms chain.

(** Two rooms of one name. *)
Definition two_named_A (G : Generator) : GameWorld :=
  ((room ← new_Room "A" "the bridge" "a bridge" "first";
    add_room (G := G) room;;
    new_Room "A" "a copy" "a copy" "second") (GameWorld_init [] ∅)).2.

(** A text of [n] digits. *)
Fixpoint ones (n : nat) : string :=
  match n with
  | O => EmptyString
  | S n' => String "1" (ones n')
  end.

Definition hurt : Action := mkAction "fight" {["health" := VInt 90; "luck" := VInt 1]}.

End examples.

(** * Properties *)

(** ** Running a method *)

Ltac run :=
  unfold perform_action, move, update_display, add_room, connect_rooms,
    get_event, game_world.generate_actions, update_variables, deref, get,
    modify, raise, mbind, M_bind, mret, M_ret in *;
  simpl in *.

(** ** Dicts in insertion order *)

Section dict_facts.
Context {K V : Type} `{EqDecision K}.
Implicit Types (k : K) (v : V) (d : list (K * V)).

Lemma dict_get_set_eq k v d : dict_get k (dict_set k v d) = Some v.
Proof.
  induction d as [|[k' v'] d IH]; simpl.
  - by rewrite decide_True.
  - destruct (decide (k = k')) as [->|Hne]; simpl.
    + by rewrite decide_True.
    + by rewrite decide_False.
Qed.

Lemma dict_get_set_ne k k' v d :
  k' ≠ k → dict_get k' (dict_set k v d) = dict_get k' d.
Proof.
  intros Hne. induction d as [|[k0 v0] d IH]; simpl.
  - by rewrite decide_False.
  - destruct (decide (k = k0)) as [->|Hk]; simpl.
    + by rewrite !decide_False.
    + destruct (decide (k' = k0)); [done | apply IH].
Qed.

Lemma dict_get_set k k' v d :
  dict_get k' (dict_set k v d) = if decide (k' = k) then Some v else dict_get k' d.
Proof.
  destruct (decide (k' = k)) as [->|Hne].
  - apply dict_get_set_eq.
  - by apply dict_get_set_ne.
Qed.

(** Assigning to a key that is there keeps the keys and their order. *)
Lemma dict_set_keys k v d : k ∈ d.*1 → (dict_set k v d).*1 = d.*1.
Proof.
  induction d as [|[k' v'] d IH]; simpl.
  - by intros ?%elem_of_nil.
  - intros Hin. destruct (decide (k = k')) as [->|Hne]; simpl; [done|].
    f_equal. apply IH. apply elem_of_cons in Hin as [?|?]; [done | done].
Qed.

End dict_facts.

(** ** The canon-route check *)

Lemma is_canon_route_true (w : GameWorld) :
  is_canon_route w = true ↔
  visited_rooms w =
    take (Nat.min (length (original_room_visit_order w)) (length (visited_rooms w)))
      (original_room_visit_order w).
Proof. unfold is_canon_route. apply bool_decide_eq_true. Qed.

(** C1, as stated, fails: against the reference order [A, B] the history
    [A, B, C] agrees with the reference on the first min(3, 2) entries, and
    yet [is_canon_route] returns false. *)
Lemma C1_longer_history_is_off_canon :
  let w := set_visited_rooms ["A"; "B"; "C"] (GameWorld_init ["A"; "B"] ∅) in
  let m := Nat.min (length (visited_rooms w)) (length (original_room_visit_order w)) in
  take m (visited_rooms w) = take m (original_room_visit_order w) ∧
  is_canon_route w = false.
Proof. split; reflexivity. Qed.

(** C1, amended: [is_canon_route] returns true iff the whole history (not a
    truncation of it) is a prefix of the reference order, that is, iff the
    history is no longer than the reference order and agrees with it entry
    by entry; so [A, B] and [A] are on the canon route [A, B], while
    [A, B, C] and [A, C] are not. *)
Theorem C1_is_canon_route_iff_prefix :
  (∀ w : GameWorld,
     (is_canon_route w = true ↔
      visited_rooms w `prefix_of` original_room_visit_order w) ∧
     (is_canon_route w = true ↔
      (length (visited_rooms w) ≤ length (original_room_visit_order w))%nat ∧
      let m := Nat.min (length (visited_rooms w))
                 (length (original_room_visit_order w)) in
      take m (visited_rooms w) = take m (original_room_visit_order w))) ∧
  (∀ hist : list string,
     is_canon_route (set_visited_rooms hist (GameWorld_init ["A"; "B"] ∅)) =
     bool_decide (hist = [] ∨ hist = ["A"] ∨ hist = ["A"; "B"])).
Proof.
  split.
  - intros w. rewrite is_canon_route_true.
    set (H := visited_rooms w). set (R := original_room_visit_order w).
    split; split.
    + intros Heq. exists (drop (length H) R).
      rewrite Heq at 1. rewrite Heq at 2.
      rewrite length_take.
      replace (Nat.min (length R) (length H) `min` length R)%nat
        with (Nat.min (length R) (length H)) by lia.
      by rewrite take_drop.
    + intros [rest ->]. rewrite length_app.
      replace (Nat.min (length H + length rest) (length H)) with (length H) by lia.
      by rewrite take_app_length.
    + intros Heq.
      assert (length H ≤ length R)%nat as Hle.
      { rewrite Heq, length_take. lia. }
      split; [done|]. simpl.
      replace (Nat.min (length H) (length R)) with (length H) by lia.
      rewrite firstn_all. rewrite Heq at 1.
      f_equal. lia.
    + intros [Hle Heq]. simpl in Heq.
      replace (Nat.min (length H) (length R)) with (length H) in Heq by lia.
      rewrite firstn_all in Heq.
      replace (Nat.min (length R) (length H)) with (length H) by lia.
      done.
  - intros hist. unfold is_canon_route. simpl.
    apply bool_decide_ext.
    destruct hist as [|a [|b [|c hist]]]; simpl.
    all: split; intros Hyp.
    all: repeat match goal with Hor : _ ∨ _ |- _ => destruct Hor end.
    all: simplify_eq; auto.
Qed.

(** ** The variable store *)

Lemma applied_lookup (vars changed : gmap string PyVal) (k : string) :
  applied vars changed !! k =
  match vars !! k with
  | Some old => Some (default old (changed !! k))
  | None => None
  end.
Proof.
  unfold applied.
  apply (map_fold_weak_ind
           (fun (acc chg : gmap string PyVal) =>
              acc !! k = match vars !! k with
                         | Some old => Some (default old (chg !! k))
                         | None => None
                         end)).
  - rewrite lookup_empty. by destruct (vars !! k).
  - intros i x m acc Hfresh IH.
    destruct (decide (i = k)) as [->|Hne].
    + rewrite lookup_insert_eq. rewrite Hfresh in IH.
      destruct (vars !! k) as [old|] eqn:Hk; simpl in *.
      * rewrite decide_True by (rewrite IH; eauto). by rewrite lookup_insert_eq.
      * rewrite decide_False; [done|]. rewrite IH. by intros [? ?].
    + rewrite (lookup_insert_ne m) by done.
      case_decide; [by rewrite lookup_insert_ne | done].
Qed.

Lemma update_variables_run (action : Action) (w : GameWorld) :
  update_variables action w =
  (Ok tt, set_variables (applied (variables w) (changed_variables action)) w).
Proof. reflexivity. Qed.

(** C4: [update_variables] returns, and afterwards a name that the action
    changes and the store holds maps to the action's value, a name that the
    action does not mention maps to what it did, a name that the store did
    not hold is still not held (the keys of the store are the same), and
    nothing but the store has changed. *)
Theorem C4_update_variables_overwrites_known_only (w : GameWorld) (a : Action) :
  ∃ w', update_variables a w = (Ok tt, w') ∧
    (∀ k v, changed_variables a !! k = Some v → is_Some (variables w !! k) →
       variables w' !! k = Some v) ∧
    (∀ k, changed_variables a !! k = None →
       variables w' !! k = variables w !! k) ∧
    (∀ k, variables w !! k = None → variables w' !! k = None) ∧
    dom (variables w') = dom (variables w) ∧
    w' = set_variables (variables w') w.
Proof.
  eexists. split; [apply update_variables_run|]. simpl.
  repeat split.
  - intros k v Hk [old Hold]. by rewrite applied_lookup, Hold, Hk.
  - intros k Hk. rewrite applied_lookup, Hk. by destruct (variables w !! k).
  - intros k Hk. by rewrite applied_lookup, Hk.
  - apply set_eq. intros k. rewrite !elem_of_dom, applied_lookup.
    destruct (variables w !! k); split; intros [? ?]; eauto; done.
Qed.

Lemma C4_witness :
  ∃ w', update_variables examples.hurt (examples.world examples.answering ["A"]) = (Ok tt, w') ∧
    variables w' !! "health" = Some (VInt 90) ∧ variables w' !! "luck" = None.
Proof.
  destruct (C4_update_variables_overwrites_known_only
              (examples.world examples.answering ["A"]) examples.hurt)
    as (w' & Hrun & Hknown & _ & Hold & _).
  exists w'. split; [exact Hrun|]. split.
  - apply Hknown; [reflexivity|]. exists (VInt 100). reflexivity.
  - apply Hold. reflexivity.
Defined.

(** ** The room graph *)

Lemma opposite_ne (d : Direction) : opposite d ≠ d.
Proof. by destruct d. Qed.

Lemma connect_rooms_absent (w : GameWorld) (A B : string) (D : Direction) :
  rooms w !! A = None ∨ rooms w !! B = None →
  connect_rooms A B D w = (Ok tt, w).
Proof.
  intros Habs. run.
  destruct (rooms w !! A), (rooms w !! B); by destruct Habs.
Qed.

Lemma connect_rooms_present (w : GameWorld) (A B : string) (D : Direction)
    (a b : loc) (ra : Room) :
  rooms w !! A = Some a → rooms w !! B = Some b → heap w !! a = Some ra →
  connect_rooms A B D w =
  (Ok tt,
   set_heap (<[a := set_connections (dict_set D (Some b) (connections ra)) ra]> (heap w)) w).
Proof. intros HA HB Ha. run. by rewrite HA, HB, Ha. Qed.

(** C5: [connect_rooms] leaves the world as it is when a name is not a key
    of [rooms]; when both are, it returns after one write, which makes the
    entry at D of room A refer to room B: the other entries of A, every
    other room and the rest of the world are as before, and so is the entry
    of B at the opposite direction (also when A and B are one room). *)
Theorem C5_connect_rooms_one_way (w : GameWorld) (A B : string) (D : Direction) :
  (rooms w !! A = None ∨ rooms w !! B = None →
   connect_rooms A B D w = (Ok tt, w)) ∧
  (∀ a b ra,
     rooms w !! A = Some a → rooms w !! B = Some b → heap w !! a = Some ra →
     ∃ w' ra',
       connect_rooms A B D w = (Ok tt, w') ∧
       w' = set_heap (heap w') w ∧
       (∀ l, l ≠ a → heap w' !! l = heap w !! l) ∧
       heap w' !! a = Some ra' ∧
       ra' = set_connections (connections ra') ra ∧
       dict_get D (connections ra') = Some (Some b) ∧
       (∀ d, d ≠ D →
          dict_get d (connections ra') = dict_get d (connections ra)) ∧
       (∀ rb, heap w !! b = Some rb →
          ∃ rb', heap w' !! b = Some rb' ∧
            dict_get (opposite D) (connections rb') =
            dict_get (opposite D) (connections rb))).
Proof.
  split; [apply connect_rooms_absent|].
  intros a b ra HA HB Ha.
  eexists _, _. split; [by apply connect_rooms_present|]. simpl.
  split; [done|].
  split; [by intros l Hl; rewrite lookup_insert_ne|].
  split; [by rewrite lookup_insert_eq|]. simpl.
  split; [done|].
  split; [apply dict_get_set_eq|].
  split; [by intros d Hd; apply dict_get_set_ne|].
  intros rb Hb. destruct (decide (b = a)) as [->|Hne].
  - rewrite lookup_insert_eq. eexists. split; [done|]. simpl.
    assert (rb = ra) as -> by congruence.
    apply dict_get_set_ne, opposite_ne.
  - rewrite lookup_insert_ne by done. eauto.
Qed.

Lemma C5_witness :
  let w := examples.world examples.answering ["A"] in
  (rooms w !! "A" = None ∨ rooms w !! "Z" = None) ∧
  connect_rooms "A" "Z" NORTH w = (Ok tt, w) ∧
  ∃ w' rc,
    connect_rooms "C" "A" WEST w = (Ok tt, w') ∧
    heap w' !! 2%nat = Some rc ∧
    dict_get WEST (connections rc) = Some (Some 0%nat) ∧
    ∃ ra', heap w' !! 0%nat = Some ra' ∧
      dict_get EAST (connections ra') = Some (Some 2%nat).
Proof.
  intros w.
  assert (rooms w !! "A" = None ∨ rooms w !! "Z" = None) as Habs
    by (right; reflexivity).
  split; [exact Habs|].
  split; [exact (proj1 (C5_connect_rooms_one_way w "A" "Z" NORTH) Habs)|].
  destruct (proj2 (C5_connect_rooms_one_way w "C" "A" WEST) 2%nat 0%nat
              (set_connections [(NORTH, None); (SOUTH, None); (EAST, None); (WEST, None)]
                 (Room_init "C" "the brig" "a brig" "event of C")))
    as (w' & rc & Hrun & _ & _ & Hc & _ & Hwest & _ & Hback);
    [reflexivity | reflexivity | reflexivity |].
  exists w', rc. split; [exact Hrun|]. split; [exact Hc|]. split; [exact Hwest|].
  destruct (Hback
              (set_connections [(NORTH, Some 1%nat); (SOUTH, None); (EAST, Some 2%nat); (WEST, None)]
                 (Room_init "A" "the bridge" "a bridge" "event of A")))
    as (ra' & Ha' & Heast); [reflexivity|].
  exists ra'. split; [exact Ha'|]. exact (eq_trans Heast eq_refl).
Defined.

(** What [add_room] does when a current room is set. *)
Lemma add_room_further `{G : Generator} (w : GameWorld) (room c : loc) (r : Room) :
  current_room w = Some c → heap w !! room = Some r →
  add_room room w = (Ok tt, set_rooms (<[name r := room]> (rooms w)) w).
Proof. intros Hc Hr. run. by rewrite Hr, Hc. Qed.

(** The world that [add_room] leaves when no current room is set, whether
    or not the call of the action generator that ends it raises. *)
Lemma add_room_first `{G : Generator} (w : GameWorld) (room : loc) (r : Room) :
  current_room w = None → heap w !! room = Some r →
  let w1 :=
    set_current_event (Some (mkEvent (canon_event r) true))
      (set_current_room (Some room)
         (set_visited_rooms (visited_rooms w ++ [name r])
            (set_rooms (<[name r := room]> (rooms w)) w))) in
  add_room room w =
  match utils.generate_actions (Some r) (current_event w1) (variables w1) with
  | Some a => (Ok tt, set_actions (Some a) w1)
  | None => (Raise GenerationFailed, w1)
  end.
Proof.
  intros Hc Hr. run. rewrite Hr, Hc. simpl. rewrite Hr. simpl.
  by destruct (utils.generate_actions _ _ _).
Qed.

(** C8: in a world just constructed, whatever objects the store holds,
    [add_room] makes the room the current room, makes its canon event the
    current event, flagged canon, and makes its name the one entry of the
    visitation history; this is so whether the action generator answers or
    raises. *)
Theorem C8_first_room_becomes_current `{G : Generator}
    (h : gmap loc Room) (order : list string) (vars : gmap string PyVal)
    (room : loc) (r : Room) :
  h !! room = Some r →
  let w' := (add_room room (set_heap h (GameWorld_init order vars))).2 in
  current_room w' = Some room ∧
  current_event w' = Some (mkEvent (canon_event r) true) ∧
  visited_rooms w' = [name r] ∧
  visited_rooms w' !! 0%nat = Some (name r) ∧
  rooms w' !! name r = Some room.
Proof.
  intros Hr w'. subst w'.
  rewrite (add_room_first _ room r) by done. simpl.
  destruct (utils.generate_actions _ _ _); simpl;
    repeat split; try done; apply lookup_insert_eq.
Qed.

Lemma C8_witness :
  let h : gmap loc Room := {[ 7%nat := Room_init "A" "the bridge" "a bridge" "event of A" ]} in
  let w' := (add_room (G := examples.failing_actions_in "A") 7%nat
               (set_heap h (GameWorld_init ["A"; "B"] examples.health))).2 in
  h !! 7%nat = Some (Room_init "A" "the bridge" "a bridge" "event of A") ∧
  current_room w' = Some 7%nat ∧
  current_event w' = Some (mkEvent "event of A" true) ∧
  visited_rooms w' = ["A"].
Proof.
  intros h w'.
  assert (h !! 7%nat = Some (Room_init "A" "the bridge" "a bridge" "event of A"))
    as Hr by reflexivity.
  split; [exact Hr|].
  destruct (C8_first_room_becomes_current (G := examples.failing_actions_in "A")
              h ["A"; "B"] examples.health 7%nat _ Hr) as (H1 & H2 & H3 & _).
  split; [exact H1|]. split; [exact H2 | exact H3].
Defined.

(** C10: when a current room is set, [add_room] returns after binding the
    name of the room in [rooms], over any binding the name had; the store of
    objects and every other field of the world are as before. *)
Theorem C10_add_room_frame `{G : Generator} (w : GameWorld) (room c : loc) (r : Room) :
  current_room w = Some c → heap w !! room = Some r →
  ∃ w', add_room room w = (Ok tt, w') ∧
    rooms w' = <[name r := room]> (rooms w) ∧
    current_room w' = current_room w ∧
    current_event w' = current_event w ∧
    visited_rooms w' = visited_rooms w ∧
    variables w' = variables w ∧
    actions w' = actions w ∧
    seen_events w' = seen_events w ∧
    original_room_visit_order w' = original_room_visit_order w ∧
    heap w' = heap w.
Proof.
  intros Hc Hr. eexists. split; [by eapply add_room_further|].
  repeat split.
Qed.

Lemma C10_witness :
  let w := examples.two_named_A examples.answering in
  current_room w = Some 0%nat ∧
  ∃ w', add_room (G := examples.answering) 1%nat w = (Ok tt, w') ∧
    rooms w' !! "A" = Some 1%nat ∧ current_room w' = Some 0%nat.
Proof.
  intros w. split; [reflexivity|].
  destruct (C10_add_room_frame (G := examples.answering) w 1%nat 0%nat
              (Room_init "A" "a copy" "a copy" "second"))
    as (w' & Hrun & Hrooms & Hcur & _); [reflexivity | reflexivity |].
  exists w'. split; [exact Hrun|]. split.
  - rewrite Hrooms. apply lookup_insert_eq.
  - rewrite Hcur. reflexivity.
Defined.

(** ** Taking an action *)

Lemma perform_action_run (action : Action) (w : GameWorld) :
  perform_action action w =
  (Ok tt, set_variables (applied (variables w) (changed_variables action)) w).
Proof. reflexivity. Qed.

(** C3, as stated, fails: with a generator whose offer depends on the
    variables, [perform_action] changes the store and leaves the action set
    that was generated for the old store, which is not the one the
    generator gives for the current room, the current event and the new
    store. *)
Lemma C3_action_set_is_stale :
  let G := examples.answering in
  let w := examples.world G ["A"] in
  let w' := (perform_action examples.hurt w).2 in
  variables w !! "health" = Some (VInt 100) ∧
  variables w' !! "health" = Some (VInt 90) ∧
  actions w' = actions w ∧
  actions w' ≠
    @utils.generate_actions G (current_room w' ≫= (heap w' !!.))
      (current_event w') (variables w').
Proof.
  repeat split.
  intros Heq.
  apply (f_equal (fun o : option Actions =>
                    a ← o; act ← head (models.actions a);
                    changed_variables act !! "health")) in Heq.
  vm_compute in Heq. discriminate Heq.
Qed.

(** C3, amended: [perform_action] returns after applying the changes of the
    action to the variable store (a name that the store holds takes the
    action's value, if the action has one) and does nothing else: the
    action set is the one that was there (it is not generated again), and
    the current event, the current room and the rest of the world are
    unchanged. *)
Theorem C3_perform_action_updates_the_store_only (w : GameWorld) (a : Action) :
  ∃ w', perform_action a w = (Ok tt, w') ∧
    (∀ k, variables w' !! k =
          match variables w !! k with
          | Some old => Some (default old (changed_variables a !! k))
          | None => None
          end) ∧
    actions w' = actions w ∧
    current_event w' = current_event w ∧
    current_room w' = current_room w ∧
    w' = set_variables (variables w') w.
Proof.
  eexists. split; [apply perform_action_run|]. simpl.
  split; [apply applied_lookup | done].
Qed.

(** ** Moving *)

(** C2, as stated, fails: on the way from A north to B, off the canon
    route [A, C], the event generator is asked and raises; the move raises
    too, and the current room is B already, and B is in the history. *)
Lemma C2_failed_move_has_moved :
  let G := examples.failing_events in
  let w := examples.world G ["A"; "C"] in
  let '(outcome, w') := move (G := G) NORTH w in
  outcome = Raise GenerationFailed ∧
  current_room w = Some 0%nat ∧ current_room w' = Some 1%nat ∧
  visited_rooms w = ["A"] ∧ visited_rooms w' = ["A"; "B"].
Proof. vm_compute. repeat split. Qed.

(** [move] towards a neighbour, step by step. *)
Lemma move_run `{G : Generator} (w : GameWorld) (d : Direction)
    (cur next : loc) (rc rn : Room) :
  current_room w = Some cur → heap w !! cur = Some rc →
  dict_get d (connections rc) = Some (Some next) →
  heap w !! next = Some rn →
  let w1 := set_visited_rooms (visited_rooms w ++ [name rn])
              (set_current_room (Some next) w) in
  move d w =
  match event_for w1 rn with
  | None => (Raise GenerationFailed, w1)
  | Some ev =>
      let w2 := set_seen_events (seen_events w ++ [EventClass])
                  (set_current_event (Some ev) w1) in
      match utils.generate_actions (Some rn) (Some ev) (variables w) with
      | Some a => (Ok tt, set_actions (Some a) w2)
      | None => (Raise GenerationFailed, w2)
      end
  end.
Proof.
  intros Hcur Hrc Hd Hrn w1. subst w1. unfold event_for. run.
  rewrite Hcur, Hrc, Hd. simpl. rewrite Hrn. simpl.
  destruct (is_canon_route _); simpl.
  - repeat (rewrite Hrn; simpl). by destruct (utils.generate_actions _ _ _).
  - repeat (rewrite Hrn; simpl).
    destruct (generate_non_canon_event rn (seen_events w)); simpl; [|done].
    repeat (rewrite Hrn; simpl). by destruct (utils.generate_actions _ _ _).
Qed.

(** [move] without a current room, or towards no neighbour. *)
Lemma move_stays `{G : Generator} (w : GameWorld) (d : Direction) :
  current_room w = None ∨
  (∃ cur rc, current_room w = Some cur ∧ heap w !! cur = Some rc ∧
     dict_get d (connections rc) = Some None) →
  move d w = (Ok tt, w).
Proof.
  run. intros [Hcur|(cur & rc & Hcur & Hrc & Hd)].
  - by rewrite Hcur.
  - by rewrite Hcur, Hrc, Hd.
Qed.

(** C2, amended: when a generator call made by [move] raises, the variable
    store, the action set, the rooms, the store of objects and the
    reference order are what they were before the move, but the move has
    been made: the current room is the neighbour and its name is the last
    entry of the history.  When it was the event generator that raised
    (it is asked off the canon route only), the current event and the list
    of seen events are as before.  When it was the action generator, they
    are already those of the new room: the current event is the one that
    [get_event] gives for the neighbour in the world with the new history,
    that is, its canon event flagged canon when the new history is on the
    canon route, and else the answer of the event generator, asked with the
    list of seen events of before the move, flagged non-canon; and the list
    of seen events has its new entry. *)
Theorem C2_state_after_failed_move `{G : Generator}
    (w w' : GameWorld) (d : Direction) :
  move d w = (Raise GenerationFailed, w') →
  ∃ cur rc next rn,
    current_room w = Some cur ∧ heap w !! cur = Some rc ∧
    dict_get d (connections rc) = Some (Some next) ∧
    heap w !! next = Some rn ∧
    current_room w' = Some next ∧
    visited_rooms w' = (visited_rooms w ++ [name rn])%list ∧
    variables w' = variables w ∧
    actions w' = actions w ∧
    rooms w' = rooms w ∧
    heap w' = heap w ∧
    original_room_visit_order w' = original_room_visit_order w ∧
    ((is_canon_route w' = false ∧
      generate_non_canon_event rn (seen_events w) = None ∧
      current_event w' = current_event w ∧
      seen_events w' = seen_events w) ∨
     (∃ ev,
        current_event w' = Some ev ∧
        event_for (set_visited_rooms (visited_rooms w ++ [name rn])
                     (set_current_room (Some next) w)) rn = Some ev ∧
        is_canon ev = is_canon_route w' ∧
        (if is_canon_route w' then event ev = canon_event rn
         else generate_non_canon_event rn (seen_events w) = Some (event ev)) ∧
        utils.generate_actions (Some rn) (Some ev) (variables w) = None ∧
        seen_events w' = (seen_events w ++ [EventClass])%list)).
Proof.
  intros Hmove.
  destruct (current_room w) as [cur|] eqn:Hcur;
    [|by rewrite move_stays in Hmove by (by left)].
  destruct (heap w !! cur) as [rc|] eqn:Hrc;
    [|by run; rewrite Hcur, Hrc in Hmove].
  destruct (dict_get d (connections rc)) as [[next|]|] eqn:Hd;
    [| by rewrite move_stays in Hmove by (right; eauto)
     | by run; rewrite Hcur, Hrc, Hd in Hmove].
  destruct (heap w !! next) as [rn|] eqn:Hrn;
    [|by run; rewrite Hcur, Hrc, Hd in Hmove; simpl in Hmove;
         rewrite Hrn in Hmove].
  rewrite (move_run w d cur next rc rn) in Hmove by done.
  exists cur, rc, next, rn. repeat (split; [done|]).
  destruct (event_for _ rn) as [ev|] eqn:Hev.
  - destruct (utils.generate_actions _ _ _) eqn:Hgen; cbv zeta in Hmove;
      simplify_eq.
    simpl. repeat (split; [done|]). right. exists ev.
    split; [done|]. split; [done|].
    unfold event_for in Hev. revert Hev.
    match goal with
    | |- context [is_canon_route ?x] =>
        change (is_canon_route x) with
          (is_canon_route (set_visited_rooms (visited_rooms w ++ [name rn])
                             (set_current_room (Some next) w)))
    end.
    destruct (is_canon_route _); simpl; intros Hev.
    + by simplify_eq.
    + destruct (generate_non_canon_event rn (seen_events w)) as [e|] eqn:He;
        simpl in Hev; by simplify_eq.
  - simplify_eq. simpl. repeat (split; [done|]). left.
    unfold event_for in Hev. revert Hev.
    match goal with
    | |- context [is_canon_route ?x] =>
        change (is_canon_route x) with
          (is_canon_route (set_visited_rooms (visited_rooms w ++ [name rn])
                             (set_current_room (Some next) w)))
    end.
    destruct (is_canon_route _); simpl; [done|].
    by destruct (generate_non_canon_event rn (seen_events w)).
Qed.

Lemma C2_witness :
  let G := examples.failing_actions_in "B" in
  let w := examples.world G ["A"; "B"] in
  ∃ w', move (G := G) NORTH w = (Raise GenerationFailed, w') ∧
    current_room w' = Some 1%nat ∧
    variables w' = variables w ∧
    current_event w' = Some (mkEvent "event of B" true) ∧
    seen_events w' = [EventClass].
Proof.
  intros G w.
  exists (move (G := G) NORTH w).2.
  assert (move (G := G) NORTH w = (Raise GenerationFailed, (move (G := G) NORTH w).2))
    as Hmove by (vm_compute; reflexivity).
  split; [exact Hmove|].
  destruct (C2_state_after_failed_move (G := G) w _ NORTH Hmove)
    as (cur & rc & next & rn & _ & _ & _ & _ & _ & _ & Hvars & _).
  split; [reflexivity|]. split; [exact Hvars|]. split; reflexivity.
Defined.

(** ** The variable-line parser *)

Section strings.
Implicit Types (p : ascii → bool) (s : string) (c : ascii).

Lemma rstrip_by_empty p s :
  is_empty (rstrip_by p s) = true → all_chars p s = true.
Proof.
  induction s as [|c r IH]; simpl; [done|].
  destruct (is_empty (rstrip_by p r)) eqn:Hr; simpl.
  - destruct (p c); simpl; [auto | done].
  - done.
Qed.

Lemma rstrip_by_all p s :
  all_chars p (rstrip_by p s) = true → all_chars p s = true.
Proof.
  induction s as [|c r IH]; simpl; [done|].
  destruct (is_empty (rstrip_by p r)) eqn:Hr; simpl.
  - destruct (p c) eqn:Hc; simpl.
    + intros _. by apply rstrip_by_empty.
    + by rewrite Hc.
  - destruct (p c); simpl; [exact IH | done].
Qed.

Lemma lstrip_by_empty p s :
  is_empty (lstrip_by p s) = true → all_chars p s = true.
Proof.
  induction s as [|c r IH]; simpl; [done|].
  destruct (p c); simpl; [exact IH | done].
Qed.

Lemma rstrip_by_all_empty p s : all_chars p s = true → rstrip_by p s = EmptyString.
Proof.
  induction s as [|c r IH]; simpl; [done|].
  destruct (p c); simpl; [|done].
  intros Hr. by rewrite (IH Hr).
Qed.

(** What [strip] leaves is empty exactly for the strings of white space. *)
Lemma strip_by_empty p s :
  is_empty (strip_by p s) = true ↔ all_chars p s = true.
Proof.
  unfold strip_by. split.
  - intros He. by apply rstrip_by_all, lstrip_by_empty.
  - intros Hall. by rewrite rstrip_by_all_empty.
Qed.

Lemma all_chars_contains p s c :
  contains c s = true → p c = false → all_chars p s = false.
Proof.
  induction s as [|c' r IH]; simpl; [done|].
  destruct (Ascii.eqb_spec c' c) as [->|Hne]; simpl.
  - intros _ ->. done.
  - intros Hc Hp. rewrite IH by done. apply andb_false_r.
Qed.

Lemma contains_append c s1 s2 :
  contains c (s1 +:+ s2) = contains c s1 || contains c s2.
Proof.
  induction s1 as [|c' r IH]; simpl; [done|].
  by rewrite IH, orb_assoc.
Qed.

Lemma split_fields_none c s :
  contains c s = false → split_fields c s = (s, []).
Proof.
  induction s as [|c' r IH]; simpl; [done|].
  intros [Hc Hr]%orb_false_elim. by rewrite IH, Hc.
Qed.

Lemma split_fields_append c s1 s2 :
  contains c s1 = false →
  split_fields c (s1 +:+ String c s2) = (s1, split c s2).
Proof.
  induction s1 as [|c' r IH]; simpl.
  - intros _. rewrite Ascii.eqb_refl. unfold split.
    by destruct (split_fields c s2).
  - intros [Hc Hr]%orb_false_elim. by rewrite IH, Hc.
Qed.

(** A text without the separator is one field; a key, the separator and a
    value, both without it, are two. *)
Lemma split_none c s : contains c s = false → split c s = [s].
Proof. intros Hc. unfold split. by rewrite split_fields_none. Qed.

Lemma split_key_value c key value :
  contains c key = false → contains c value = false →
  split c (key +:+ String c value) = [key; value].
Proof.
  intros Hk Hv. unfold split at 1.
  by rewrite split_fields_append, split_none.
Qed.

End strings.

Lemma parse_line_blank (m : gmap string PyVal) (line : string) :
  is_empty (strip line) = true → parse_line m line = Ok m.
Proof. unfold parse_line. by intros ->. Qed.

Lemma parse_line_key_value (m : gmap string PyVal) (key value : string) :
  contains ":" key = false → contains ":" value = false →
  parse_line m (key +:+ String ":" value) = Ok (<[strip key := parse_value value]> m).
Proof.
  intros Hk Hv. unfold parse_line.
  rewrite split_key_value by done.
  destruct (is_empty (strip _)) eqn:He; [|done].
  apply strip_by_empty in He.
  rewrite (all_chars_contains isspace _ ":") in He; [done| |done].
  rewrite contains_append. simpl. apply orb_true_r.
Qed.

Lemma parse_variables_from_app (m : gmap string PyVal) (l1 l2 : list string) :
  parse_variables_from m (l1 ++ l2) =
  match parse_variables_from m l1 with
  | Ok m' => parse_variables_from m' l2
  | Raise e => Raise e
  end.
Proof.
  revert m. induction l1 as [|l l1 IH]; intros m; simpl; [done|].
  destruct (parse_line m l); [apply IH | done].
Qed.

Section strings_more.
Implicit Types (p : ascii → bool) (s : string) (c : ascii).

Lemma split_fields_length c s :
  length (split_fields c s).2 = count_char c s.
Proof.
  induction s as [|c' r IH]; simpl; [done|].
  destruct (split_fields c r) as [h t]. simpl in IH.
  destruct (Ascii.eqb c' c); simpl; by rewrite IH.
Qed.

(** [split] gives one field more than there are separators. *)
Lemma split_length c s : length (split c s) = S (count_char c s).
Proof.
  unfold split. pose proof (split_fields_length c s) as Hl.
  destruct (split_fields c s) as [h t]. simpl in *. by rewrite Hl.
Qed.

Lemma rstrip_by_idemp p s : rstrip_by p (rstrip_by p s) = rstrip_by p s.
Proof.
  induction s as [|c r IH]; simpl; [done|].
  destruct (is_empty (rstrip_by p r) && p c) eqn:Hc; simpl; [done|].
  by rewrite IH, Hc.
Qed.

Lemma lstrip_by_idemp p s : lstrip_by p (lstrip_by p s) = lstrip_by p s.
Proof.
  induction s as [|c r IH]; simpl; [done|].
  destruct (p c) eqn:Hc; simpl; [done|]. by rewrite Hc.
Qed.

Lemma rstrip_lstrip_fixed p s :
  rstrip_by p s = s → rstrip_by p (lstrip_by p s) = lstrip_by p s.
Proof.
  induction s as [|c r IH]; simpl; [done|].
  destruct (is_empty (rstrip_by p r) && p c) eqn:Hc; [done|].
  intros [= Hr]. destruct (p c) eqn:Hp; simpl.
  - by apply IH.
  - by rewrite Hr, Hp, andb_false_r.
Qed.

(** [strip] leaves a text that [strip] leaves as it is. *)
Lemma strip_by_idemp p s : strip_by p (strip_by p s) = strip_by p s.
Proof.
  unfold strip_by.
  rewrite (rstrip_lstrip_fixed p (rstrip_by p s)) by apply rstrip_by_idemp.
  apply lstrip_by_idemp.
Qed.

End strings_more.

Lemma parse_line_cases (m : gmap string PyVal) (line : string) :
  (line_ok line ∧ ∃ m', parse_line m line = Ok m') ∨
  (¬ line_ok line ∧ parse_line m line = Raise ValueError).
Proof.
  unfold line_ok, parse_line.
  destruct (is_empty (strip line)) eqn:Hblank; [left; eauto|].
  pose proof (split_length ":" line) as Hlen.
  destruct (split ":" line) as [|key [|value [|more rest]]]; simpl in Hlen.
  - lia.
  - right. split; [|done]. intros [?|?]; [done|lia].
  - left. split; [right; lia | eauto].
  - right. split; [|done]. intros [?|?]; [done|lia].
Qed.

Lemma parse_variables_from_cases (lines : list string) :
  ∀ m,
    (Forall line_ok lines ∧ ∃ m', parse_variables_from m lines = Ok m') ∨
    (¬ Forall line_ok lines ∧ parse_variables_from m lines = Raise ValueError).
Proof.
  induction lines as [|line lines IH]; intros m; simpl.
  - left. split; [constructor | eauto].
  - destruct (parse_line_cases m line) as [[Hok [m' ->]]|[Hbad ->]].
    + destruct (IH m') as [[Hall Hrun]|[Hnot Hrun]].
      * left. split; [by constructor | done].
      * right. split; [|done]. by intros [? ?]%Forall_cons_1.
    + right. split; [|done]. by intros [? ?]%Forall_cons_1.
Qed.

(** [append] does not unfold under [simpl]; its two equations. *)
Ltac sapp :=
  repeat (change (String ?c ?r +:+ ?s) with (String c (r +:+ s)) in * ||
          change (EmptyString +:+ ?s) with s in * ).

Section strings_spec.
Implicit Types (p : ascii → bool) (s t : string) (c : ascii).

Lemma append_assoc s1 s2 s3 : (s1 +:+ s2) +:+ s3 = s1 +:+ s2 +:+ s3.
Proof. induction s1 as [|c r IH]; sapp; [done|]. by rewrite IH. Qed.

Lemma append_empty_r s : s +:+ EmptyString = s.
Proof. induction s as [|c r IH]; sapp; [done|]. by rewrite IH. Qed.

Lemma is_empty_eq s : is_empty s = true → s = EmptyString.
Proof. by destruct s. Qed.

Lemma count_char_contains c s : count_char c s = 0%nat ↔ contains c s = false.
Proof.
  induction s as [|c' r IH]; simpl; [done|].
  destruct (Ascii.eqb c' c); simpl; [split; discriminate | exact IH].
Qed.

(** A text with one separator is a key, the separator and a value, both
    without it. *)
Lemma count_char_one c s :
  count_char c s = 1%nat →
  ∃ key value, s = key +:+ String c value ∧
    contains c key = false ∧ contains c value = false.
Proof.
  induction s as [|c' r IH]; simpl; [done|].
  destruct (Ascii.eqb_spec c' c) as [->|Hne].
  - intros [= Hr%count_char_contains]. exists EmptyString, r. done.
  - intros Hr. destruct (IH Hr) as (key & value & -> & Hk & Hv).
    exists (String c' key), value. sapp. simpl.
    split; [done|]. split; [|done].
    rewrite Hk. by destruct (Ascii.eqb_spec c' c).
Qed.

Lemma rstrip_by_split p s :
  ∃ b, s = rstrip_by p s +:+ b ∧ all_chars p b = true ∧
    ∀ r c, rstrip_by p s = r +:+ String c EmptyString → p c = false.
Proof.
  induction s as [|c0 s IH]; simpl.
  - exists EmptyString. split; [done|]. split; [done|].
    intros [|? ?] c; sapp; discriminate.
  - destruct IH as (b & Hs & Hb & Hlast).
    destruct (is_empty (rstrip_by p s) && p c0) eqn:Hc.
    + apply andb_true_iff in Hc as [He%is_empty_eq Hp].
      rewrite He in Hs. sapp. subst b.
      exists (String c0 s). simpl. rewrite Hp, Hb.
      split; [done|]. split; [done|].
      intros [|? ?] c; sapp; discriminate.
    + exists b. sapp. split; [by rewrite <- Hs|]. split; [done|].
      intros [|c1 r] c; sapp.
      * intros [= -> He]. rewrite He in Hc. simpl in Hc. exact Hc.
      * intros [= -> Hr]. by apply (Hlast r).
Qed.

Lemma lstrip_by_split p s :
  ∃ a, s = a +:+ lstrip_by p s ∧ all_chars p a = true ∧
    ∀ c r, lstrip_by p s = String c r → p c = false.
Proof.
  induction s as [|c0 s IH]; simpl.
  - exists EmptyString. by repeat split.
  - destruct (p c0) eqn:Hp.
    + destruct IH as (a & Hs & Ha & Hfirst).
      exists (String c0 a). sapp. simpl. rewrite Hp, Ha.
      split; [by rewrite <- Hs|]. done.
    + exists EmptyString. split; [done|]. split; [done|].
      by intros c r [= <- _].
Qed.

(** What [strip] leaves of a text. *)
Lemma strip_by_spec p s : stripped_of p s (strip_by p s).
Proof.
  unfold strip_by.
  destruct (rstrip_by_split p s) as (b & Hs & Hb & Hlast).
  destruct (lstrip_by_split p (rstrip_by p s)) as (a & Hr & Ha & Hfirst).
  exists a, b. split; [|split; [done|split; [done|split; [done|]]]].
  - rewrite <- append_assoc, <- Hr. exact Hs.
  - intros r c Hl. apply (Hlast (a +:+ r)).
    rewrite append_assoc, <- Hl. exact Hr.
Qed.

Lemma rstrip_by_append_all p s b :
  all_chars p b = true → rstrip_by p (s +:+ b) = rstrip_by p s.
Proof.
  intros Hb. induction s as [|c r IH]; sapp; simpl.
  - by apply rstrip_by_all_empty.
  - by rewrite IH.
Qed.

Lemma rstrip_by_fixed p s :
  (∀ r c, s = r +:+ String c EmptyString → p c = false) → rstrip_by p s = s.
Proof.
  induction s as [|c0 s IH]; simpl; [done|].
  intros Hlast. rewrite IH.
  - destruct s as [|c1 s]; simpl; [|done].
    by rewrite (Hlast EmptyString c0).
  - intros r c ->. by apply (Hlast (String c0 r)).
Qed.

Lemma lstrip_by_append_all p a s :
  all_chars p a = true → lstrip_by p (a +:+ s) = lstrip_by p s.
Proof.
  induction a as [|c r IH]; sapp; simpl; [done|].
  destruct (p c); simpl; [exact IH | done].
Qed.

Lemma lstrip_by_fixed p s :
  (∀ c r, s = String c r → p c = false) → lstrip_by p s = s.
Proof.
  destruct s as [|c r]; simpl; [done|].
  intros Hfirst. by rewrite (Hfirst c r).
Qed.

Lemma append_last a t r c :
  t ≠ EmptyString → a +:+ t = r +:+ String c EmptyString →
  ∃ r', t = r' +:+ String c EmptyString.
Proof.
  revert r. induction a as [|c0 a IH]; intros r Ht; sapp; [eauto|].
  destruct r as [|c1 r]; sapp.
  - intros [= _ He]. destruct a; sapp; [by destruct t | done].
  - intros [= _ He]. by apply (IH r).
Qed.

(** [strip] leaves nothing else. *)
Lemma stripped_of_unique p s t : stripped_of p s t → strip_by p s = t.
Proof.
  intros (a & b & -> & Ha & Hb & Hfirst & Hlast). unfold strip_by.
  rewrite <- append_assoc, rstrip_by_append_all by done.
  destruct (decide (t = EmptyString)) as [->|Ht].
  - rewrite append_empty_r, rstrip_by_all_empty by done. done.
  - rewrite rstrip_by_fixed.
    + rewrite lstrip_by_append_all by done. by apply lstrip_by_fixed.
    + intros r c Hr.
      destruct (append_last a t r c) as [r' Hr']; [done|done|].
      by apply (Hlast r').
Qed.

Lemma strip_by_none p q s :
  (∀ c, q c = true → p c = false) → all_chars q s = true → strip_by p s = s.
Proof.
  intros Hqp Hs. apply stripped_of_unique.
  exists EmptyString, EmptyString. sapp. rewrite append_empty_r.
  split; [done|]. split; [done|]. split; [done|]. split.
  - intros c r ->. simpl in Hs. apply andb_true_iff in Hs as [Hc _]. auto.
  - intros r c ->. apply Hqp. clear Hqp.
    induction r as [|c' r IH]; sapp; simpl in Hs.
    + by apply andb_true_iff in Hs as [Hc _].
    + apply andb_true_iff in Hs as [_ Hs]. auto.
Qed.

End strings_spec.

(** [int] on a text of decimal digits. *)
Lemma is_digit_not_space (c : ascii) : is_digit c = true → is_int_space c = false.
Proof. by destruct c as [[] [] [] [] [] [] [] []]. Qed.

Lemma count_digits_all (s : string) :
  all_chars is_digit s = true → count_digits s = String.length s.
Proof.
  induction s as [|c r IH]; simpl; [done|].
  intros [-> Hr]%andb_true_iff. by rewrite IH.
Qed.

Lemma int_digits_all (s : string) :
  ∀ acc, all_chars is_digit s = true →
    int_digits acc s =
    Some (fold_left (fun acc c => 10 * acc + (Z.of_nat (nat_of_ascii c) - 48))
            (list_ascii_of_string s) acc).
Proof.
  induction s as [|c r IH]; intros acc; simpl; [done|].
  intros [Hc Hr]%andb_true_iff. rewrite Hc. by apply IH.
Qed.

Lemma int_decimal (text : string) :
  text ≠ EmptyString → all_chars is_digit text = true →
  int text =
  if decide (String.length text ≤ int_max_str_digits)%nat
  then Some (decimal text) else None.
Proof.
  intros Hne Hall. unfold int.
  rewrite (strip_by_none is_int_space is_digit text)
    by (done || apply is_digit_not_space).
  rewrite count_digits_all by done.
  destruct (Nat.ltb_spec int_max_str_digits (String.length text)) as [Hlt|Hle].
  { rewrite decide_False by lia. done. }
  rewrite decide_True by done.
  destruct text as [|c r]; [done|]. simpl in Hall.
  apply andb_true_iff in Hall as [Hc Hr].
  transitivity (int_unsigned (String c r)).
  { clear -Hc. by destruct c as [[] [] [] [] [] [] [] []]. }
  unfold int_unsigned, decimal. rewrite Hc, int_digits_all by done.
  done.
Qed.

Lemma parse_variables_from_raises (m : gmap string PyVal) (lines : list string)
    (line : string) :
  line ∈ lines → ¬ line_ok line →
  parse_variables_from m lines = Raise ValueError.
Proof.
  intros Hin Hbad.
  destruct (parse_variables_from_cases lines m) as [[Hall _]|[_ Hrun]]; [|done].
  rewrite list.Forall_forall in Hall. destruct Hbad.
  by apply Hall.
Qed.

(** C6, as stated, fails: a line of a key, a colon and a value that holds
    a colon itself is not blank and has the separator, and it makes the
    parse raise; the entry of the line before it is lost with it. *)
Lemma C6_colon_in_value_raises :
  let line := "time" +:+ ":" +:+ " 12:30" in
  is_empty (strip line) = false ∧ contains ":" line = true ∧
  parse_variables ["health: 100"] = Ok {["health" := VInt 100]} ∧
  parse_variables ["health: 100"; line] = Raise ValueError.
Proof. vm_compute. repeat split. Qed.

(** C6, amended.  [parse_variables] passes over a line that [strip]
    empties.  A line with exactly one colon is a key, the colon and a
    value; it binds, in the mapping parsed so far, the key without the
    white space at its ends to what the value gives once the white space
    at its ends and then the double quotes at its ends are taken off: the
    integer that [int] reads in that text, or else the boolean that its
    lower-case form names, or else that text.  Every other line with text,
    one without a colon and one with two colons or more alike, makes the
    whole parse raise [ValueError].  [int] reads a text of decimal digits
    as the number it denotes when it has at most 4300 digits, and refuses
    it when it has more, so that such a value is kept as a text. *)
Theorem C6_parse_variables_typed_entries :
  (∀ before line after,
     is_empty (strip line) = true →
     parse_variables (before ++ line :: after) = parse_variables (before ++ after)) ∧
  (∀ line,
     count_char ":" line = 1%nat →
     is_empty (strip line) = false ∧
     ∃ key value, line = key +:+ ":" +:+ value ∧
       contains ":" key = false ∧ contains ":" value = false) ∧
  (∀ before key value m k inner text,
     parse_variables before = Ok m →
     contains ":" key = false → contains ":" value = false →
     stripped_of isspace key k →
     stripped_of isspace value inner →
     stripped_of (Ascii.eqb dquote) inner text →
     ∃ v,
       parse_variables (before ++ [key +:+ ":" +:+ value]) =
         Ok (<[k := v]> m) ∧
       (∀ z, int text = Some z → v = VInt z) ∧
       (int text = None → lower text = "true" → v = VBool true) ∧
       (int text = None → lower text = "false" → v = VBool false) ∧
       (int text = None → lower text ≠ "true" → lower text ≠ "false" →
        v = VStr text)) ∧
  (∀ lines line,
     line ∈ lines → is_empty (strip line) = false →
     count_char ":" line ≠ 1%nat →
     parse_variables lines = Raise ValueError) ∧
  (∀ text,
     text ≠ EmptyString → all_chars is_digit text = true →
     int text =
     if decide (String.length text ≤ 4300)%nat then Some (decimal text) else None).
Proof.
  split; [|split; [|split; [|split]]].
  - intros before line after Hblank. unfold parse_variables.
    rewrite !parse_variables_from_app. simpl.
    destruct (parse_variables_from ∅ before); [|done].
    by rewrite parse_line_blank.
  - intros line Hone.
    destruct (count_char_one _ _ Hone) as (key & value & -> & Hk & Hv).
    split; [|by exists key, value].
    destruct (is_empty (strip _)) eqn:He; [|done].
    apply strip_by_empty in He.
    rewrite (all_chars_contains isspace _ ":") in He; [done| |done].
    rewrite contains_append. simpl. apply orb_true_r.
  - intros before key value m k inner text Hbefore Hk Hv Hkey Hinner Htext.
    apply stripped_of_unique in Hkey, Hinner, Htext.
    exists (parse_value value). split.
    + unfold parse_variables in *. rewrite parse_variables_from_app, Hbefore.
      simpl. change (":" +:+ value) with (String ":" value).
      rewrite parse_line_key_value by done. by rewrite <- Hkey.
    + unfold parse_value, strip_char, strip. rewrite Hinner, Htext.
      destruct (int text) as [z|]; [repeat split; congruence|].
      destruct (String.eqb_spec (lower text) "true") as [Ht|Ht].
      { repeat split; try done. rewrite Ht. done. }
      destruct (String.eqb_spec (lower text) "false") as [Hf|Hf];
        repeat split; done.
  - intros lines line Hin He Hcount. apply (parse_variables_from_raises _ _ line).
    + done.
    + intros [Hblank|Hone]; [by rewrite Hblank in He | done].
  - exact int_decimal.
Qed.

Lemma C6_witness :
  let quoted := " " +:+ String dquote ("Zed" +:+ String dquote " ") in
  let quoted_int := String dquote (" 42 " +:+ String dquote EmptyString) in
  parse_variables ["health: 100"; "  "; " name :" +:+ quoted] =
    Ok (<["name" := VStr "Zed"]> {["health" := VInt 100]}) ∧
  parse_variables ["health: 100"; "is_armed: True"] =
    Ok (<["is_armed" := VBool true]> {["health" := VInt 100]}) ∧
  parse_variables ["is_armed:FALSE"] = Ok (<["is_armed" := VBool false]> ∅) ∧
  parse_variables ["debt: -5"] = Ok (<["debt" := VInt (-5)]> ∅) ∧
  parse_variables ["gold: 1_000"] = Ok (<["gold" := VInt 1000]> ∅) ∧
  parse_variables ["gold: 1__0"] = Ok (<["gold" := VStr "1__0"]> ∅) ∧
  parse_variables ["age:" +:+ quoted_int] = Ok (<["age" := VInt 42]> ∅) ∧
  parse_variables ["health: 100"; "armed and ready"] = Raise ValueError ∧
  parse_variables ["health: 100"; "time: 12:30"] = Raise ValueError.
Proof.
  intros quoted quoted_int.
  destruct C6_parse_variables_typed_entries
    as (Hblank & _ & Hline & Hraise & _).
  assert (∀ key value,
            contains ":" key = false → contains ":" value = false →
            ∃ v,
              parse_variables [key +:+ ":" +:+ value] =
                Ok (<[strip key := v]> ∅) ∧
              let text := strip_by (Ascii.eqb dquote) (strip value) in
              (∀ z, int text = Some z → v = VInt z) ∧
              (int text = None → lower text = "true" → v = VBool true) ∧
              (int text = None → lower text = "false" → v = VBool false) ∧
              (int text = None → lower text ≠ "true" → lower text ≠ "false" →
               v = VStr text)) as Hone.
  { intros key value Hk Hv.
    exact (Hline [] key value ∅ _ _ _ eq_refl Hk Hv
             (strip_by_spec isspace key) (strip_by_spec isspace value)
             (strip_by_spec (Ascii.eqb dquote) (strip value))). }
  split; [|split; [|split; [|split; [|split; [|split; [|split; [|split]]]]]]].
  - etrans;
      [exact (Hblank ["health: 100"] "  " [" name :" +:+ quoted] eq_refl)|].
    destruct (Hline ["health: 100"] " name " quoted {["health" := VInt 100]}
                "name" (String dquote ("Zed" +:+ String dquote EmptyString)) "Zed"
                eq_refl eq_refl eq_refl
                (strip_by_spec isspace " name ")
                (strip_by_spec isspace quoted)
                (strip_by_spec (Ascii.eqb dquote)
                   (String dquote ("Zed" +:+ String dquote EmptyString))))
      as (v & Hrun & _ & _ & _ & Hstr).
    rewrite (Hstr eq_refl) in Hrun; [exact Hrun | discriminate | discriminate].
  - destruct (Hline ["health: 100"] "is_armed" " True" {["health" := VInt 100]}
                "is_armed" "True" "True" eq_refl eq_refl eq_refl
                (strip_by_spec isspace "is_armed")
                (strip_by_spec isspace " True")
                (strip_by_spec (Ascii.eqb dquote) "True"))
      as (v & Hrun & _ & Htrue & _).
    rewrite (Htrue eq_refl eq_refl) in Hrun. exact Hrun.
  - destruct (Hone "is_armed" "FALSE" eq_refl eq_refl)
      as (v & Hrun & _ & _ & Hfalse & _).
    rewrite (Hfalse eq_refl eq_refl) in Hrun. exact Hrun.
  - destruct (Hone "debt" " -5" eq_refl eq_refl) as (v & Hrun & Hint & _).
    rewrite (Hint (-5) eq_refl) in Hrun. exact Hrun.
  - destruct (Hone "gold" " 1_000" eq_refl eq_refl) as (v & Hrun & Hint & _).
    rewrite (Hint 1000 eq_refl) in Hrun. exact Hrun.
  - destruct (Hone "gold" " 1__0" eq_refl eq_refl)
      as (v & Hrun & _ & _ & _ & Hstr).
    rewrite (Hstr eq_refl) in Hrun; [exact Hrun | discriminate | discriminate].
  - destruct (Hone "age" quoted_int eq_refl eq_refl) as (v & Hrun & Hint & _).
    rewrite (Hint 42 eq_refl) in Hrun. exact Hrun.
  - apply (Hraise _ "armed and ready"); [|reflexivity|discriminate].
    apply elem_of_cons; right. apply elem_of_cons; by left.
  - apply (Hraise _ "time: 12:30"); [|reflexivity|discriminate].
    apply elem_of_cons; right. apply elem_of_cons; by left.
Defined.

(** A value of 4301 digits is a text for [int], and is kept as one. *)
Example int_bound_examples :
  is_Some (int (examples.ones 4300)) ∧ int (examples.ones 4301) = None ∧
  parse_variables ["big: " +:+ examples.ones 4301] =
    Ok {["big" := VStr (examples.ones 4301)]}.
Proof. vm_compute. split; [eauto | done]. Qed.

(** What [int] reads and what it refuses. *)
Example int_examples :
  int "100" = Some 100 ∧ int "-5" = Some (-5) ∧ int "+5" = Some 5 ∧
  int "007" = Some 7 ∧ int "1_000" = Some 1000 ∧ int " 42 " = Some 42 ∧
  int "1__0" = None ∧ int "_1" = None ∧ int "1_" = None ∧
  int "0x10" = None ∧ int "12a" = None ∧ int "- 5" = None ∧
  int "true" = None ∧ int EmptyString = None.
Proof. repeat split. Qed.

(** The lines of the parser's examples: an integer, a boolean, a quoted
    string, and a blank line that leaves no entry. *)
Example parse_variables_examples :
  parse_variables ["health: 100"] = Ok {["health" := VInt 100]} ∧
  parse_variables ["is_armed: true"] = Ok {["is_armed" := VBool true]} ∧
  parse_variables ["name: " +:+ String dquote ("Zed" +:+ String dquote EmptyString)] =
    Ok {["name" := VStr "Zed"]} ∧
  parse_variables ["  health  :  100  "; " "; "shields:50"] =
    Ok {["health" := VInt 100; "shields" := VInt 50]}.
Proof. repeat split; vm_compute; reflexivity. Qed.

(** ** The invariant of the room graph *)

Lemma graph_inv_frame (w w' : GameWorld) :
  heap w' = heap w → rooms w' = rooms w →
  (∀ l, current_room w' = Some l → is_member w l) →
  graph_inv w → graph_inv w'.
Proof.
  intros Hh Hr Hc [Hrooms _]. unfold graph_inv, room_ok, is_member in *.
  rewrite Hh, Hr. split; [exact Hrooms | exact Hc].
Qed.

Lemma direction_in_keys (d : Direction) : d ∈ [NORTH; SOUTH; EAST; WEST].
Proof. destruct d; set_solver. Qed.

Lemma connect_rooms_inv (w : GameWorld) (A B : string) (D : Direction) :
  graph_inv w → graph_inv (connect_rooms A B D w).2.
Proof.
  intros Hinv.
  destruct (rooms w !! A) as [a|] eqn:HA;
    [|by rewrite connect_rooms_absent by (by left)].
  destruct (rooms w !! B) as [b|] eqn:HB;
    [|by rewrite connect_rooms_absent by (by right)].
  destruct (proj1 Hinv A a HA) as (ra & Ha & Hkeys & Htargets).
  rewrite (connect_rooms_present w A B D a b ra) by done. simpl.
  split; simpl; [|exact (proj2 Hinv)].
  intros n l Hn. destruct (decide (l = a)) as [->|Hne].
  - rewrite lookup_insert_eq. eexists. split; [done|]. split; simpl.
    + rewrite dict_set_keys; [done|]. rewrite Hkeys. apply direction_in_keys.
    + intros d l'. rewrite dict_get_set. case_decide.
      * intros [= <-]. by exists B.
      * apply Htargets.
  - rewrite lookup_insert_ne by done. exact (proj1 Hinv n l Hn).
Qed.

Lemma move_inv `{G : Generator} (w : GameWorld) (d : Direction) :
  graph_inv w → graph_inv (move d w).2.
Proof.
  intros Hinv.
  destruct (current_room w) as [cur|] eqn:Hcur;
    [|by rewrite move_stays by (by left)].
  destruct (proj2 Hinv cur Hcur) as [n Hn].
  destruct (proj1 Hinv n cur Hn) as (rc & Hrc & Hkeys & Htargets).
  destruct (dict_get d (connections rc)) as [[next|]|] eqn:Hd.
  - destruct (Htargets d next Hd) as [n' Hn'].
    destruct (proj1 Hinv n' next Hn') as (rn & Hrn & _).
    rewrite (move_run w d cur next rc rn) by done.
    assert (is_member w next) as Hnext by (by exists n').
    destruct (event_for _ _); simpl;
      [destruct (utils.generate_actions _ _ _); simpl|];
      (eapply graph_inv_frame; [..|exact Hinv]; simpl; try done;
       by intros l [= <-]).
  - rewrite move_stays; [done|]. right. eauto.
  - run. by rewrite Hcur, Hrc, Hd.
Qed.

Lemma update_variables_inv (w : GameWorld) (a : Action) :
  graph_inv w → graph_inv (update_variables a w).2.
Proof.
  intros Hinv. rewrite update_variables_run. simpl.
  eapply graph_inv_frame; [..|exact Hinv]; simpl; try done.
  exact (proj2 Hinv).
Qed.

(** The world after [add_room], up to the action set. *)
Lemma add_room_graph `{G : Generator} (w : GameWorld) (room : loc) (r : Room) :
  heap w !! room = Some r →
  let w' := (add_room room w).2 in
  heap w' = heap w ∧
  rooms w' = <[name r := room]> (rooms w) ∧
  current_room w' = Some (default room (current_room w)).
Proof.
  intros Hr. destruct (current_room w) as [c|] eqn:Hc.
  - rewrite (add_room_further w room c r) by done. simpl. by rewrite Hc.
  - rewrite (add_room_first w room r) by done. simpl.
    by destruct (utils.generate_actions _ _ _).
Qed.

Lemma add_room_inv `{G : Generator} (w : GameWorld) (room : loc) (r : Room) :
  heap w !! room = Some r →
  (∀ l, rooms w !! name r = Some l → l = room) →
  (connections r).*1 = [NORTH; SOUTH; EAST; WEST] →
  (∀ d l, dict_get d (connections r) = Some (Some l) → l = room ∨ is_member w l) →
  graph_inv w → graph_inv (add_room room w).2.
Proof.
  intros Hr Hname Hkeys Htargets Hinv.
  destruct (add_room_graph w room r Hr) as (Hh & Hrooms & Hcur).
  set (w' := (add_room room w).2) in *.
  assert (is_member w' room) as Hroom.
  { exists (name r). rewrite Hrooms. apply lookup_insert_eq. }
  assert (∀ l, is_member w l → is_member w' l) as Hmono.
  { intros l [n Hn]. destruct (decide (n = name r)) as [->|Hne].
    - by rewrite (Hname l Hn).
    - exists n. by rewrite Hrooms, lookup_insert_ne. }
  split.
  - intros n l. rewrite Hrooms, Hh.
    destruct (decide (n = name r)) as [->|Hne].
    + rewrite lookup_insert_eq. intros [= <-]. exists r. split; [done|].
      split; [done|]. intros d l Hd.
      destruct (Htargets d l Hd) as [->|Hl]; auto.
    + rewrite lookup_insert_ne by done. intros Hn.
      destruct (proj1 Hinv n l Hn) as (rl & Hl & Hk & Ht).
      exists rl. split; [done|]. split; [done|]. intros d l' Hd. eauto.
  - intros l. rewrite Hcur. intros [= <-].
    destruct (current_room w) as [c|] eqn:Hc; simpl; [|done].
    apply Hmono, (proj2 Hinv c Hc).
Qed.

Lemma two_named_A_inv : graph_inv (examples.two_named_A examples.answering).
Proof.
  assert (rooms (examples.two_named_A examples.answering) = {["A" := 0%nat]})
    as Hrooms by reflexivity.
  split.
  - intros n l. rewrite Hrooms. intros [<- <-]%lookup_singleton_Some.
    eexists. split; [reflexivity|]. split; [reflexivity|].
    intros [] l; simpl; discriminate.
  - intros l [= <-]. exists "A". reflexivity.
Qed.

(** C9, as stated, fails: in a world that has the invariant and holds a
    second room object named like the current room, [add_room] of that
    object rebinds the name, after which the current room is no value of
    [rooms]. *)
Lemma C9_duplicate_name_evicts_current_room :
  let G := examples.answering in
  let w := examples.two_named_A G in
  let w' := (add_room (G := G) 1%nat w).2 in
  graph_inv w ∧
  current_room w' = Some 0%nat ∧ ¬ is_member w' 0%nat ∧ ¬ graph_inv w'.
Proof.
  intros G w w'.
  assert (rooms w' = {["A" := 1%nat]}) as Hrooms' by reflexivity.
  assert (¬ is_member w' 0%nat) as Hout.
  { intros [n Hn]. rewrite Hrooms' in Hn.
    apply lookup_singleton_Some in Hn as [_ ?]. done. }
  split; [apply two_named_A_inv|].
  split; [reflexivity|]. split; [exact Hout|].
  intros [_ Hcur]. apply Hout, Hcur. reflexivity.
Qed.

(** C9, amended: [connect_rooms], [move] (whether it returns or raises) and
    [update_variables] preserve the invariant that every room of [rooms]
    has the four connection keys, each entry empty or a room of [rooms],
    and that the current room, if set, is a room of [rooms]; [add_room]
    preserves it when the name of the added room is not bound to another
    room object and the added room has the four keys with entries that are
    empty, itself or rooms of [rooms] (as a room just constructed has). *)
Theorem C9_graph_invariant_preserved `{G : Generator} (w : GameWorld) :
  graph_inv w →
  (∀ A B D, graph_inv (connect_rooms A B D w).2) ∧
  (∀ d, graph_inv (move d w).2) ∧
  (∀ a, graph_inv (update_variables a w).2) ∧
  (∀ room r,
     heap w !! room = Some r →
     (∀ l, rooms w !! name r = Some l → l = room) →
     (connections r).*1 = [NORTH; SOUTH; EAST; WEST] →
     (∀ d l, dict_get d (connections r) = Some (Some l) →
        l = room ∨ is_member w l) →
     graph_inv (add_room room w).2).
Proof.
  intros Hinv. split; [|split; [|split]].
  - intros A B D. by apply connect_rooms_inv.
  - intros d. by apply move_inv.
  - intros a. by apply update_variables_inv.
  - intros room r Hr Hname Hkeys Htargets. by apply (add_room_inv w room r).
Qed.

Lemma C9_witness :
  let G := examples.answering in
  let w := examples.two_named_A G in
  graph_inv w ∧
  graph_inv (connect_rooms "A" "A" NORTH w).2 ∧
  graph_inv (move (G := G) NORTH (connect_rooms "A" "A" NORTH w).2).2 ∧
  graph_inv (update_variables examples.hurt w).2.
Proof.
  intros G w.
  pose proof two_named_A_inv as Hinv.
  destruct (C9_graph_invariant_preserved (G := G) w Hinv)
    as (Hconnect & _ & Hupdate & _).
  split; [exact Hinv|]. split; [exact (Hconnect "A" "A" NORTH)|].
  split; [|exact (Hupdate examples.hurt)].
  destruct (C9_graph_invariant_preserved (G := G) _ (Hconnect "A" "A" NORTH))
    as (_ & Hmove & _).
  exact (Hmove NORTH).
Defined.

(** ** The grid layout *)

Lemma store_closedb_sound (h : gmap loc Room) :
  store_closedb h = true → store_closed h.
Proof.
  unfold store_closedb. rewrite forallb_forall.
  intros Hall l r d l' Hl Hitem.
  specialize (Hall (l, r)). rewrite forallb_forall in Hall.
  assert (In (l, r) (map_to_list h)) as Hin
    by (by apply list_elem_of_In, elem_of_map_to_list).
  specialize (Hall Hin (d, Some l')). simpl in Hall.
  eapply bool_decide_eq_true_1, Hall. by apply list_elem_of_In.
Qed.

Lemma py_min_low (m : Ext) (a b : Z) :
  ext_lt (Fin a) m = false → ext_lt (Fin a) (py_min m (Fin b)) = false.
Proof.
  unfold py_min. destruct m as [| |z]; simpl; try done.
  intros Ha%Z.ltb_ge. destruct (Z.ltb_spec b z); simpl; apply Z.ltb_ge; lia.
Qed.

Lemma py_min_new (m : Ext) (b : Z) : ext_lt (Fin b) (py_min m (Fin b)) = false.
Proof.
  unfold py_min. destruct m as [| |z]; simpl; try apply Z.ltb_irrefl; try done.
  destruct (Z.ltb_spec b z); simpl; apply Z.ltb_ge; lia.
Qed.

Lemma py_max_high (m : Ext) (a b : Z) :
  ext_lt m (Fin a) = false → ext_lt (py_max m (Fin b)) (Fin a) = false.
Proof.
  unfold py_max. destruct m as [| |z]; simpl; try done.
  intros Ha%Z.ltb_ge. destruct (Z.ltb_spec z b); simpl; apply Z.ltb_ge; lia.
Qed.

Lemma py_max_new (m : Ext) (b : Z) : ext_lt (py_max m (Fin b)) (Fin b) = false.
Proof.
  unfold py_max. destruct m as [| |z]; simpl; try apply Z.ltb_irrefl; try done.
  destruct (Z.ltb_spec z b); simpl; apply Z.ltb_ge; lia.
Qed.

Lemma shift_offsets (gx gy : Z) (d : Direction) :
  (gx + (offsets d).1, gy + (offsets d).2) = shift (gx, gy) d.
Proof. destruct d; simpl; f_equal; lia. Qed.

Lemma within_place_old (l : loc) (n : string) (x y : Z) (st : bfs_state) (p : Z * Z) :
  within (layout st) p → within (layout (place l n x y st)) p.
Proof.
  intros (H1 & H2 & H3 & H4). unfold within. simpl.
  repeat split; by (apply py_min_low || apply py_max_high).
Qed.

Lemma within_place_new (l : loc) (n : string) (x y : Z) (st : bfs_state) :
  within (layout (place l n x y st)) (x, y).
Proof.
  unfold within. simpl.
  repeat split; (apply py_min_new || apply py_max_new).
Qed.

Lemma filter_shrinks {A : Type} (P Q : A → Prop)
    `{∀ x, Decision (P x)} `{∀ x, Decision (Q x)} (l : list A) (x : A) :
  (∀ y, Q y → P y) → x ∈ l → P x → ¬ Q x →
  (length (filter Q l) < length (filter P l))%nat.
Proof.
  intros HQP Hin HP HQ.
  assert (∀ k : list A, (length (filter Q k) ≤ length (filter P k))%nat) as Hle.
  { induction k as [|y k IH]; [done|].
    rewrite !filter_cons. destruct (decide (Q y)) as [Hy|Hy].
    - rewrite decide_True by auto. simpl. lia.
    - destruct (decide (P y)); simpl; lia. }
  induction l as [|y l IH]; [by apply elem_of_nil in Hin|].
  rewrite !filter_cons. apply elem_of_cons in Hin as [<-|Hin].
  - destruct (decide (Q x)); [done|]. destruct (decide (P x)); [|done].
    simpl. specialize (Hle l). lia.
  - specialize (IH Hin). destruct (decide (Q y)) as [Hy|Hy].
    + rewrite decide_True by auto. simpl. lia.
    + destruct (decide (P y)); simpl; lia.
Qed.

Lemma unplaced_place (h : gmap loc Room) (l : loc) (r : Room) (x y : Z)
    (st : bfs_state) :
  h !! l = Some r → name r ∉ visited st →
  (unplaced h (place l (name r) x y st) < unplaced h st)%nat.
Proof.
  intros Hl Hfresh. unfold unplaced. simpl.
  apply (filter_shrinks _ _ _ (l, r)).
  - intros [l' r']. simpl. set_solver.
  - by apply elem_of_map_to_list.
  - done.
  - simpl. set_solver.
Qed.

Lemma traversed_weaken (h : gmap loc Room) (L L' : Layout) (l : loc) :
  grid_positions L ⊆ grid_positions L' → traversed h L l → traversed h L' l.
Proof.
  intros Hsub (r & p & Hr & Hp & Hn). exists r, p.
  split; [done|]. split; [by eapply lookup_weaken|].
  intros d lc Hd. destruct (Hn d lc Hd) as (rc & Hrc & [q Hq]).
  exists rc. split; [done|]. exists q. by eapply lookup_weaken.
Qed.

Lemma assigned_from_weaken (h : gmap loc Room) (rs : Room) (ds ds' : list loc)
    (L L' : Layout) (n : string) (p : Z * Z) :
  grid_positions L ⊆ grid_positions L' → ds ⊆ ds' →
  assigned_from h rs ds L n p → assigned_from h rs ds' L' n p.
Proof.
  intros Hsub Hds [?|(lp & rp & pp & d & lc & rc & H1 & H2 & H3 & H4)];
    [by left|].
  right. exists lp, rp, pp, d, lc, rc.
  split; [by apply Hds|]. split; [done|]. split; [by eapply lookup_weaken|done].
Qed.

Section traversal.
Context (h : gmap loc Room) (s : loc) (rs : Room).
Context (Hclosed : store_closed h).
Implicit Types (st : bfs_state) (ds : list loc).

Lemma place_base ds cur rcur gx gy d lc rc st :
  cur ∈ ds → h !! cur = Some rcur →
  grid_positions (layout st) !! name rcur = Some (gx, gy) →
  (d, Some lc) ∈ connections rcur → h !! lc = Some rc →
  name rc ∉ visited st →
  bfs_base h rs ds st →
  bfs_base h rs ds
    (place lc (name rc) (gx + (offsets d).1) (gy + (offsets d).2) st) ∧
  grid_positions (layout st) ⊆
    grid_positions (layout (place lc (name rc) (gx + (offsets d).1)
                              (gy + (offsets d).2) st)).
Proof.
  intros Hcur Hrcur Hpos Hd Hrc Hfresh Hbase.
  assert (grid_positions (layout st) !! name rc = None) as Hnone.
  { apply eq_None_not_Some. by rewrite <- (base_visited _ _ _ _ Hbase). }
  assert (grid_positions (layout st) ⊆
          <[name rc := (gx + (offsets d).1, gy + (offsets d).2)]>
            (grid_positions (layout st))) as Hsub
    by (by apply insert_subseteq).
  split; [|exact Hsub].
  constructor; simpl.
  - eapply lookup_weaken; [apply (base_root _ _ _ _ Hbase) | done].
  - intros n. rewrite elem_of_union, elem_of_singleton, (base_visited _ _ _ _ Hbase).
    destruct (decide (n = name rc)) as [->|Hne].
    + rewrite lookup_insert_eq. split; eauto.
    + rewrite lookup_insert_ne by done. split; [by intros [?|?]|by right].
  - intros l x y [Hold|Hnew%list_elem_of_singleton]%elem_of_app.
    + destruct (base_queue _ _ _ _ Hbase l x y Hold) as (r & Hr & Hp).
      exists r. split; [done|]. by eapply lookup_weaken.
    + injection Hnew as -> -> ->. exists rc. split; [done|].
      apply lookup_insert_eq.
  - intros n p Hn. destruct (decide (n = name rc)) as [->|Hne].
    + rewrite lookup_insert_eq in Hn. injection Hn as <-.
      right. exists cur, rcur, (gx, gy), d, lc, rc.
      repeat (split; [done|]). split; [by eapply lookup_weaken|].
      repeat (split; [done|]). apply shift_offsets.
    + rewrite lookup_insert_ne in Hn by done.
      eapply (assigned_from_weaken _ _ ds ds (layout st)); [done|done|].
      by apply (base_parent _ _ _ _ Hbase).
  - intros n p Hn. destruct (decide (n = name rc)) as [->|Hne].
    + rewrite lookup_insert_eq in Hn. injection Hn as <-.
      apply (within_place_new lc (name rc) _ _ st).
    + rewrite lookup_insert_ne in Hn by done.
      apply (within_place_old lc (name rc) _ _ st).
      by apply (base_within _ _ _ _ Hbase n).
Qed.


Lemma scan_item_spec ds cur rcur gx gy st item :
  cur ∈ ds → h !! cur = Some rcur →
  grid_positions (layout st) !! name rcur = Some (gx, gy) →
  item ∈ connections rcur →
  bfs_base h rs ds st →
  ∃ st', scan_item h gx gy st item = Some st' ∧
    bfs_base h rs ds st' ∧
    grid_positions (layout st) ⊆ grid_positions (layout st') ∧
    queue st `prefix_of` queue st' ∧
    (unplaced h st' + length (queue st') ≤ unplaced h st + length (queue st))%nat ∧
    (∀ lc, item.2 = Some lc →
       ∃ rc, h !! lc = Some rc ∧
         is_Some (grid_positions (layout st') !! name rc)).
Proof.
  intros Hcur Hrcur Hpos Hitem Hbase. destruct item as [d [lc|]]; simpl.
  - destruct (Hclosed cur rcur d lc Hrcur Hitem) as [rc Hrc].
    rewrite Hrc. simpl.
    destruct (decide (name rc ∈ visited st)) as [Hv|Hv].
    + exists st. repeat (split; [done|]).
      intros ? [= <-]. exists rc. split; [done|].
      by apply (base_visited _ _ _ _ Hbase).
    + destruct (place_base ds cur rcur gx gy d lc rc st) as [Hbase' Hsub];
        try done.
      pose proof (unplaced_place h lc rc (gx + (offsets d).1)
                    (gy + (offsets d).2) st Hrc Hv) as Hless.
      destruct (offsets d) as [dx dy]. simpl in *.
      eexists. split; [done|]. split; [done|]. split; [done|].
      split; [by apply prefix_app_r|].
      split; [simpl; rewrite length_app; simpl; lia|].
      intros ? [= <-]. exists rc. split; [done|]. simpl.
      rewrite lookup_insert_eq. eauto.
  - exists st. repeat (split; [done|]). done.
Qed.

Lemma scan_items_spec ds cur rcur gx gy items :
  ∀ st,
    cur ∈ ds → h !! cur = Some rcur →
    grid_positions (layout st) !! name rcur = Some (gx, gy) →
    items ⊆ connections rcur →
    bfs_base h rs ds st →
    ∃ st', scan_items h gx gy st items = Some st' ∧
      bfs_base h rs ds st' ∧
      grid_positions (layout st) ⊆ grid_positions (layout st') ∧
      queue st `prefix_of` queue st' ∧
      (unplaced h st' + length (queue st') ≤ unplaced h st + length (queue st))%nat ∧
      (∀ d lc, (d, Some lc) ∈ items →
         ∃ rc, h !! lc = Some rc ∧
           is_Some (grid_positions (layout st') !! name rc)).
Proof.
  induction items as [|item items IH]; intros st Hcur Hrcur Hpos Hitems Hbase.
  - exists st. repeat (split; [done|]). by intros d lc ?%elem_of_nil.
  - destruct (scan_item_spec ds cur rcur gx gy st item)
      as (st1 & Hrun1 & Hbase1 & Hsub1 & Hq1 & Hm1 & Hn1); try done.
    { apply Hitems. apply elem_of_cons; by left. }
    destruct (IH st1) as (st2 & Hrun2 & Hbase2 & Hsub2 & Hq2 & Hm2 & Hn2);
      try done.
    { by eapply lookup_weaken. }
    { intros x Hx. apply Hitems. apply elem_of_cons; by right. }
    exists st2. simpl. rewrite Hrun1. simpl.
    split; [done|]. split; [done|].
    split; [by etrans|]. split; [by etrans|]. split; [lia|].
    intros d lc [<-|Hin]%elem_of_cons; [|by eapply Hn2].
    destruct (Hn1 lc eq_refl) as (rc & Hrc & [q Hq]).
    exists rc. split; [done|]. exists q. by eapply lookup_weaken.
Qed.

Lemma bfs_iteration_spec ds st cur gx gy rest :
  queue st = (cur, gx, gy) :: rest →
  bfs_inv h s rs ds st →
  ∃ st', bfs_iteration h st = Some st' ∧
    bfs_inv h s rs (ds ++ [cur]) st' ∧
    grid_positions (layout st) ⊆ grid_positions (layout st') ∧
    (unplaced h st' + length (queue st') < unplaced h st + length (queue st))%nat ∧
    rest `prefix_of` queue st'.
Proof.
  intros Hqueue (Hbase & Htrav & Hroot).
  destruct (base_queue _ _ _ _ Hbase cur gx gy) as (rcur & Hrcur & Hpos).
  { rewrite Hqueue. apply elem_of_cons; by left. }
  set (st0 := mkBfs (layout st) (visited st) rest).
  assert (bfs_base h rs (ds ++ [cur]) st0) as Hbase0.
  { constructor; simpl.
    - apply (base_root _ _ _ _ Hbase).
    - apply (base_visited _ _ _ _ Hbase).
    - intros l x y Hin. apply (base_queue _ _ _ _ Hbase).
      rewrite Hqueue. apply elem_of_cons; by right.
    - intros n p Hn.
      eapply (assigned_from_weaken _ _ ds _ (layout st)); [done| |].
      + intros l Hl. apply elem_of_app; by left.
      + by apply (base_parent _ _ _ _ Hbase).
    - apply (base_within _ _ _ _ Hbase). }
  destruct (scan_items_spec (ds ++ [cur]) cur rcur gx gy (connections rcur) st0)
    as (st' & Hrun & Hbase' & Hsub & Hq & Hm & Hn); try done.
  { apply elem_of_app; right. by apply list_elem_of_singleton. }
  exists st'. unfold bfs_iteration. rewrite Hqueue, Hrcur. simpl.
  split; [done|]. split; [|split; [done|split; [|exact Hq]]].
  - split; [done|]. split.
    + intros l [Hl|Hl%list_elem_of_singleton]%elem_of_app.
      * eapply traversed_weaken; [exact Hsub|]. by apply Htrav.
      * subst l. exists rcur, (gx, gy). split; [done|].
        split; [by eapply lookup_weaken|]. exact Hn.
    + destruct Hroot as [Hs|Hs].
      * left. apply elem_of_app; by left.
      * rewrite Hqueue in Hs. apply elem_of_cons in Hs as [[= -> -> ->]|Hs].
        -- left. apply elem_of_app; right. by apply list_elem_of_singleton.
        -- right. destruct Hq as [more ->]. apply elem_of_app; by left.
  - simpl.
    change (unplaced h st0) with (unplaced h st) in Hm. simpl in Hm. lia.
Qed.

Lemma bfs_loop_mono fuel :
  ∀ ds st stf,
    bfs_inv h s rs ds st → bfs_loop fuel h st = Some stf →
    grid_positions (layout st) ⊆ grid_positions (layout stf).
Proof.
  induction fuel as [|fuel IH]; intros ds st stf Hinv Hloop; simpl in Hloop.
  - destruct (queue st); by simplify_eq.
  - destruct (queue st) as [|[[cur gx] gy] rest] eqn:Hq; [by simplify_eq|].
    destruct (bfs_iteration_spec ds st cur gx gy rest Hq Hinv)
      as (st1 & Hrun & Hinv1 & Hsub1 & _).
    rewrite Hrun in Hloop. simpl in Hloop.
    etrans; [exact Hsub1|]. by eapply IH.
Qed.

Lemma bfs_after_inv k :
  ∀ ds st stk,
    bfs_inv h s rs ds st → bfs_after k h st = Some stk →
    ∃ dsk, bfs_inv h s rs dsk stk.
Proof.
  induction k as [|k IH]; intros ds st stk Hinv Hafter; simpl in Hafter.
  - simplify_eq. by exists ds.
  - destruct (queue st) as [|[[cur gx] gy] rest] eqn:Hq.
    + unfold bfs_iteration in Hafter. rewrite Hq in Hafter. simpl in Hafter.
      by eapply IH.
    + destruct (bfs_iteration_spec ds st cur gx gy rest Hq Hinv)
        as (st1 & Hrun & Hinv1 & _).
      rewrite Hrun in Hafter. simpl in Hafter.
      by eapply IH.
Qed.

Lemma bfs_after_loop k :
  ∀ fuel ds st stk stf,
    bfs_inv h s rs ds st →
    bfs_loop fuel h st = Some stf → bfs_after k h st = Some stk →
    grid_positions (layout stk) ⊆ grid_positions (layout stf).
Proof.
  induction k as [|k IH]; intros fuel ds st stk stf Hinv Hloop Hafter;
    simpl in Hafter.
  - simplify_eq. by eapply bfs_loop_mono.
  - destruct (queue st) as [|[[cur gx] gy] rest] eqn:Hq.
    + unfold bfs_iteration in Hafter. rewrite Hq in Hafter. simpl in Hafter.
      by eapply IH.
    + destruct (bfs_iteration_spec ds st cur gx gy rest Hq Hinv)
        as (st1 & Hrun & Hinv1 & _).
      rewrite Hrun in Hafter. simpl in Hafter.
      destruct fuel as [|fuel]; simpl in Hloop; rewrite Hq in Hloop; [done|].
      rewrite Hrun in Hloop. simpl in Hloop.
      by eapply IH.
Qed.

End traversal.

Lemma bfs_start_inv (h : gmap loc Room) (s : loc) (rs : Room) :
  h !! s = Some rs →
  bfs_inv h s rs [] (bfs_start s (name rs)) ∧
  (unplaced h (bfs_start s (name rs)) + length (queue (bfs_start s (name rs)))
   ≤ size h)%nat.
Proof.
  intros Hs. split; [split; [|split]|].
  - constructor; simpl.
    + apply lookup_insert_eq.
    + intros n. rewrite elem_of_singleton.
      destruct (decide (n = name rs)) as [->|Hne].
      * rewrite lookup_insert_eq. split; eauto.
      * rewrite lookup_insert_ne, lookup_empty by done.
        split; [done|]. by intros [? ?].
    + intros l x y [= -> -> ->]%list_elem_of_singleton.
      exists rs. split; [done|]. apply lookup_insert_eq.
    + intros n p [[<- <-] | [_ Hn]]%lookup_insert_Some; [by left|].
      by rewrite lookup_empty in Hn.
    + intros n p [[<- <-] | [_ Hn]]%lookup_insert_Some;
        [|by rewrite lookup_empty in Hn].
      by repeat split.
  - by intros l ?%elem_of_nil.
  - right. by apply list_elem_of_singleton.
  - unfold unplaced. simpl. rewrite <- (length_map_to_list h).
    enough (length (filter (fun lr : loc * Room => name lr.2 ∉ ({[name rs]} : gset string))
                      (map_to_list h)) < length (map_to_list h))%nat by lia.
    apply (length_filter_lt _ _ (s, rs)).
    + by apply elem_of_map_to_list.
    + simpl. set_solver.
Qed.

(** Where two paths lead to a room, the first one that the traversal takes
    decides: C lies east of A and also east of B, which lies north of A,
    and C gets (1, 0) from A, which is scanned before B. *)
Example layout_of_the_triangle :
  calculate_room_positions (examples.world examples.answering ["A"]) =
  Some {| grid_positions := {["A" := (0, 0); "B" := (0, -1); "C" := (1, 0)]};
          min_x := Fin 0; max_x := Fin 1; min_y := Fin (-1); max_y := Fin 0 |}.
Proof. vm_compute. reflexivity. Qed.

(** * Further properties *)

(** ** The variable store, continued *)

Lemma set_variables_same (w : GameWorld) : set_variables (variables w) w = w.
Proof. by destruct w. Qed.

Lemma has_valid_variables_true (a : Action) (w : GameWorld) :
  has_valid_variables a w = true ↔
  ∃ k, is_Some (changed_variables a !! k) ∧ is_Some (variables w !! k).
Proof.
  unfold has_valid_variables. rewrite existsb_exists. split.
  - intros (k & Hin & Hk). apply bool_decide_eq_true in Hk.
    exists k. split; [|done].
    apply list_elem_of_In, list_elem_of_fmap in Hin as ([k' v] & -> & Hkv).
    apply elem_of_map_to_list in Hkv. eauto.
  - intros (k & [v Hv] & Hk). exists k. split; [|by apply bool_decide_eq_true].
    apply list_elem_of_In, list_elem_of_fmap. exists (k, v).
    split; [done|]. by apply elem_of_map_to_list.
Qed.

(** X1: [has_valid_variables] returns true exactly when a name that the
    action changes is a name of the variable store; so it returns false
    for an action that changes nothing and for an empty store. *)
Theorem X1_has_valid_variables_shared_name (a : Action) (w : GameWorld) :
  (has_valid_variables a w = true ↔
   ∃ k, k ∈ dom (changed_variables a) ∧ k ∈ dom (variables w)) ∧
  (changed_variables a = ∅ → has_valid_variables a w = false) ∧
  (variables w = ∅ → has_valid_variables a w = false).
Proof.
  split; [|split].
  - rewrite has_valid_variables_true.
    split; intros (k & H1 & H2); exists k; by rewrite ?elem_of_dom in *.
  - intros Hempty. apply not_true_is_false.
    intros (k & [v Hv] & _)%has_valid_variables_true.
    by rewrite Hempty, lookup_empty in Hv.
  - intros Hempty. apply not_true_is_false.
    intros (k & _ & [v Hv])%has_valid_variables_true.
    by rewrite Hempty, lookup_empty in Hv.
Qed.

Lemma X1_witness :
  has_valid_variables examples.hurt (examples.world examples.answering ["A"]) = true ∧
  has_valid_variables examples.hurt (GameWorld_init ["A"] ∅) = false.
Proof.
  split.
  - apply (proj1 (X1_has_valid_variables_shared_name _ _)).
    exists "health". split; apply elem_of_dom; eexists; reflexivity.
  - apply (proj2 (proj2 (X1_has_valid_variables_shared_name _ _))). reflexivity.
Defined.

Lemma applied_unchanged (vars changed : gmap string PyVal) :
  applied vars changed = vars ↔
  ∀ k v old, changed !! k = Some v → vars !! k = Some old → v = old.
Proof.
  split.
  - intros Heq k v old Hk Hold.
    assert (applied vars changed !! k = Some old) as Hl by (by rewrite Heq).
    rewrite applied_lookup, Hold, Hk in Hl. simpl in Hl. congruence.
  - intros Hsame. apply map_eq. intros k. rewrite applied_lookup.
    destruct (vars !! k) as [old|] eqn:Hold; [|done].
    destruct (changed !! k) as [v|] eqn:Hk; simpl; [|done].
    f_equal. eauto.
Qed.

(** X2: an action for which [has_valid_variables] returns false (its
    button is the one coloured red) changes nothing when it is taken:
    [update_variables] and [perform_action] return the world they were
    given. *)
Theorem X2_flagged_action_changes_nothing (a : Action) (w : GameWorld) :
  has_valid_variables a w = false →
  update_variables a w = (Ok tt, w) ∧ perform_action a w = (Ok tt, w).
Proof.
  intros Hflag.
  assert (applied (variables w) (changed_variables a) = variables w) as Heq.
  { apply applied_unchanged. intros k v old Hk Hold.
    assert (has_valid_variables a w = true) as Htrue
      by (apply has_valid_variables_true; eauto).
    congruence. }
  rewrite perform_action_run, update_variables_run, Heq, set_variables_same.
  done.
Qed.

Lemma X2_witness :
  let a := mkAction "pray" {["luck" := VInt 1]} in
  let w := examples.world examples.answering ["A"] in
  has_valid_variables a w = false ∧ perform_action a w = (Ok tt, w).
Proof.
  intros a w.
  assert (has_valid_variables a w = false) as Hflag by reflexivity.
  split; [exact Hflag|].
  exact (proj2 (X2_flagged_action_changes_nothing a w Hflag)).
Defined.

(** X3: taking an action and then another leaves, for a name of the
    store, the value of the second action if it has one, else that of the
    first if it has one, else the old value, and no new name; so taking
    an action twice is the same as taking it once. *)
Theorem X3_update_variables_composes (a b : Action) (w : GameWorld) :
  (∀ k,
     variables ((update_variables a;; update_variables b) w).2 !! k =
     match variables w !! k with
     | Some old =>
         Some (default (default old (changed_variables a !! k))
                 (changed_variables b !! k))
     | None => None
     end) ∧
  (update_variables a;; update_variables a) w = update_variables a w.
Proof.
  split.
  - intros k. unfold mbind, M_bind. rewrite !update_variables_run. simpl.
    rewrite !applied_lookup. by destruct (variables w !! k).
  - unfold mbind, M_bind. rewrite !update_variables_run. simpl.
    f_equal. destruct w; unfold set_variables; simpl. f_equal.
    apply map_eq. intros k. rewrite !applied_lookup.
    destruct (variables0 !! k) as [old|]; [|done]. simpl.
    by destruct (changed_variables a !! k).
Qed.

(** ** The room graph, continued *)

Section dict_more.
Context {K V : Type} `{EqDecision K}.
Implicit Types (k : K) (v : V) (d : list (K * V)).

Lemma dict_set_set k v1 v2 d : dict_set k v2 (dict_set k v1 d) = dict_set k v2 d.
Proof.
  induction d as [|[k' v'] d IH]; simpl.
  - by rewrite decide_True.
  - destruct (decide (k = k')) as [->|Hne]; simpl.
    + by rewrite decide_True.
    + rewrite decide_False by done. by rewrite IH.
Qed.

Lemma dict_get_elem_of k v d : dict_get k d = Some v → (k, v) ∈ d.
Proof.
  induction d as [|[k' v'] d IH]; simpl; [done|].
  destruct (decide (k = k')) as [->|Hne].
  - intros [= ->]. apply elem_of_cons; by left.
  - intros Hget. apply elem_of_cons; right. by apply IH.
Qed.

Lemma dict_elem_of_get k v d : NoDup d.*1 → (k, v) ∈ d → dict_get k d = Some v.
Proof.
  induction d as [|[k' v'] d IH]; simpl.
  - by intros _ ?%elem_of_nil.
  - intros [Hk' Hnd]%list.NoDup_cons [[= -> ->]|Hin]%elem_of_cons.
    + by rewrite decide_True.
    + rewrite decide_False; [by apply IH|].
      intros ->. apply Hk'. apply list_elem_of_fmap. by exists (k', v).
Qed.

End dict_more.

(** X4: when the third name is a key of [rooms], connecting A to B and
    then A to C in one direction leaves what connecting A to C alone
    leaves: the later connection of a direction replaces the earlier one,
    and a connection made twice is made once. *)
Theorem X4_connect_rooms_last_wins (w : GameWorld) (A B C : string) (D : Direction) :
  is_Some (rooms w !! C) →
  (connect_rooms A B D;; connect_rooms A C D) w = connect_rooms A C D w.
Proof.
  intros [c HC]. unfold mbind at 1, M_bind at 1.
  destruct (rooms w !! A) as [a|] eqn:HA;
    [|by rewrite connect_rooms_absent by (by left)].
  destruct (rooms w !! B) as [b|] eqn:HB;
    [|by rewrite connect_rooms_absent by (by right)].
  destruct (heap w !! a) as [ra|] eqn:Ha.
  - rewrite (connect_rooms_present w A B D a b ra) by done.
    erewrite (connect_rooms_present _ A C D a c); [|done|done|apply lookup_insert_eq].
    rewrite (connect_rooms_present w A C D a c ra) by done.
    simpl. unfold set_heap, set_connections. simpl.
    by rewrite insert_insert_eq, dict_set_set.
  - run. by rewrite HA, HB, HC, Ha.
Qed.

Lemma X4_witness :
  let w := examples.world examples.answering ["A"] in
  is_Some (rooms w !! "C") ∧
  (connect_rooms "A" "B" EAST;; connect_rooms "A" "C" EAST) w = (Ok tt, w).
Proof.
  intros w.
  assert (is_Some (rooms w !! "C")) as HC by (eexists; reflexivity).
  split; [exact HC|].
  rewrite (X4_connect_rooms_last_wins w "A" "B" "C" EAST HC).
  vm_compute. reflexivity.
Defined.

(** ** Moving, continued *)

(** The three ways of [move]: the world stays as it is; the neighbour is a
    reference outside the store; or the step is taken ([move_run]). *)
Lemma move_outcome `{G : Generator} (w : GameWorld) (d : Direction) :
  (∃ res, move d w = (res, w) ∧ res ≠ Raise GenerationFailed) ∨
  (∃ cur rc next,
     current_room w = Some cur ∧ heap w !! cur = Some rc ∧
     dict_get d (connections rc) = Some (Some next) ∧ heap w !! next = None ∧
     move d w = (Raise DanglingReference, set_current_room (Some next) w)) ∨
  (∃ cur rc next rn,
     current_room w = Some cur ∧ heap w !! cur = Some rc ∧
     dict_get d (connections rc) = Some (Some next) ∧ heap w !! next = Some rn).
Proof.
  destruct (current_room w) as [cur|] eqn:Hcur;
    [|left; exists (Ok tt); by rewrite move_stays by (by left)].
  destruct (heap w !! cur) as [rc|] eqn:Hrc;
    [|left; exists (Raise DanglingReference); run; by rewrite Hcur, Hrc].
  destruct (dict_get d (connections rc)) as [[next|]|] eqn:Hd.
  - destruct (heap w !! next) as [rn|] eqn:Hrn.
    + right; right. by exists cur, rc, next, rn.
    + right; left. exists cur, rc, next. repeat (split; [done|]).
      run. rewrite Hcur, Hrc, Hd. simpl. by rewrite Hrn.
  - left. exists (Ok tt). by rewrite move_stays by (right; eauto).
  - left. exists (Raise KeyError). run. by rewrite Hcur, Hrc, Hd.
Qed.

(** The world after a step, whatever the generators do. *)
Lemma move_step_world `{G : Generator} (w : GameWorld) (d : Direction)
    (cur next : loc) (rc rn : Room) :
  current_room w = Some cur → heap w !! cur = Some rc →
  dict_get d (connections rc) = Some (Some next) →
  heap w !! next = Some rn →
  let w' := (move d w).2 in
  heap w' = heap w ∧ rooms w' = rooms w ∧ variables w' = variables w ∧
  original_room_visit_order w' = original_room_visit_order w ∧
  current_room w' = Some next ∧
  visited_rooms w' = (visited_rooms w ++ [name rn])%list ∧
  (seen_events w' = seen_events w ∨
   seen_events w' = (seen_events w ++ [EventClass])%list).
Proof.
  intros Hcur Hrc Hd Hrn. simpl.
  rewrite (move_run w d cur next rc rn) by done.
  destruct (event_for _ _); simpl;
    [destruct (utils.generate_actions _ _ _); simpl|]; auto 10.
Qed.

(** What [connect_rooms] and [add_room] leave alone. *)
Lemma connect_rooms_frame (w : GameWorld) (A B : string) (D : Direction) :
  let w' := (connect_rooms A B D w).2 in
  rooms w' = rooms w ∧ current_room w' = current_room w ∧
  visited_rooms w' = visited_rooms w ∧
  original_room_visit_order w' = original_room_visit_order w ∧
  seen_events w' = seen_events w ∧ variables w' = variables w ∧
  current_event w' = current_event w ∧ actions w' = actions w.
Proof.
  simpl.
  destruct (rooms w !! A) as [a|] eqn:HA;
    [|by rewrite connect_rooms_absent by (by left)].
  destruct (rooms w !! B) as [b|] eqn:HB;
    [|by rewrite connect_rooms_absent by (by right)].
  destruct (heap w !! a) as [ra|] eqn:Ha.
  - by rewrite (connect_rooms_present w A B D a b ra).
  - run. by rewrite HA, HB, Ha.
Qed.

Lemma add_room_history `{G : Generator} (w : GameWorld) (room : loc) :
  let w' := (add_room room w).2 in
  (visited_rooms w' = visited_rooms w ∨
   ∃ r, heap w !! room = Some r ∧ current_room w = None ∧
     visited_rooms w' = (visited_rooms w ++ [name r])%list) ∧
  original_room_visit_order w' = original_room_visit_order w ∧
  seen_events w' = seen_events w ∧ variables w' = variables w.
Proof.
  simpl. destruct (heap w !! room) as [r|] eqn:Hr;
    [|run; rewrite Hr; auto].
  destruct (current_room w) as [c|] eqn:Hc.
  - rewrite (add_room_further w room c r) by done. simpl. auto.
  - rewrite (add_room_first w room r) by done.
    destruct (utils.generate_actions _ _ _); simpl;
      (split; [right; eauto|done]).
Qed.

(** X5: the visitation history only grows at its end and the reference
    order never changes: after [add_room], [connect_rooms], [move],
    [update_variables] or [perform_action], whether it returns or raises,
    the history it found is a prefix of the history it leaves. *)
Theorem X5_history_is_append_only `{G : Generator} (w : GameWorld) :
  let kept (w' : GameWorld) :=
    visited_rooms w `prefix_of` visited_rooms w' ∧
    original_room_visit_order w' = original_room_visit_order w in
  (∀ room, kept (add_room room w).2) ∧
  (∀ A B D, kept (connect_rooms A B D w).2) ∧
  (∀ d, kept (move d w).2) ∧
  (∀ a, kept (update_variables a w).2) ∧
  (∀ a, kept (perform_action a w).2).
Proof.
  intros kept. subst kept. simpl.
  split; [|split; [|split; [|split]]].
  - intros room.
    destruct (add_room_history w room) as ([->|(r & _ & _ & ->)] & -> & _);
      split; try done. by apply prefix_app_r.
  - intros A B D.
    by destruct (connect_rooms_frame w A B D) as (_ & _ & -> & -> & _).
  - intros d. destruct (move_outcome w d) as
      [(res & -> & _)|[(cur & rc & next & _ & _ & _ & _ & ->)
                      |(cur & rc & next & rn & H1 & H2 & H3 & H4)]]; try done.
    destruct (move_step_world w d cur next rc rn H1 H2 H3 H4)
      as (_ & _ & _ & -> & _ & -> & _). split; [by apply prefix_app_r|done].
  - done.
  - done.
Qed.

Lemma move_history `{G : Generator} (w : GameWorld) (d : Direction) :
  visited_rooms w `prefix_of` visited_rooms (move d w).2 ∧
  original_room_visit_order (move d w).2 = original_room_visit_order w.
Proof.
  destruct (move_outcome w d) as
    [(res & -> & _)|[(cur & rc & next & _ & _ & _ & _ & ->)
                    |(cur & rc & next & rn & H1 & H2 & H3 & H4)]]; try done.
  destruct (move_step_world w d cur next rc rn H1 H2 H3 H4)
    as (_ & _ & _ & -> & _ & -> & _). split; [by apply prefix_app_r|done].
Qed.

Lemma is_canon_route_prefix (w : GameWorld) :
  is_canon_route w = true ↔
  visited_rooms w `prefix_of` original_room_visit_order w.
Proof.
  rewrite is_canon_route_true.
  set (H := visited_rooms w). set (R := original_room_visit_order w). split.
  - intros Heq. exists (drop (length H) R).
    rewrite Heq at 1. rewrite Heq at 2. rewrite length_take.
    replace (Nat.min (length R) (length H) `min` length R)%nat
      with (Nat.min (length R) (length H)) by lia.
    by rewrite take_drop.
  - intros [rest ->]. rewrite length_app.
    replace (Nat.min (length H + length rest) (length H)) with (length H) by lia.
    by rewrite take_app_length.
Qed.

Lemma off_canon_kept (w w' : GameWorld) :
  visited_rooms w `prefix_of` visited_rooms w' →
  original_room_visit_order w' = original_room_visit_order w →
  is_canon_route w = false → is_canon_route w' = false.
Proof.
  intros Hpre Horder Hoff. apply not_true_is_false. intros Hon.
  apply is_canon_route_prefix in Hon. rewrite Horder in Hon.
  assert (is_canon_route w = true) as Hw
    by (apply is_canon_route_prefix; by etrans).
  congruence.
Qed.

Lemma moves_history `{G : Generator} (ds : list Direction) :
  ∀ w, visited_rooms w `prefix_of` visited_rooms (moves ds w) ∧
       original_room_visit_order (moves ds w) = original_room_visit_order w.
Proof.
  induction ds as [|d ds IH]; intros w; simpl; [done|].
  destruct (IH (move d w).2) as [Hpre Horder].
  destruct (move_history w d) as [Hpre1 Horder1].
  split; [by etrans | congruence].
Qed.

(** X6: a world that is off the canon route stays off it: after
    [add_room], [connect_rooms], [update_variables], [move] or any
    sequence of moves, [is_canon_route] returns false again. *)
Theorem X6_off_canon_is_final `{G : Generator} (w : GameWorld) :
  is_canon_route w = false →
  (∀ room, is_canon_route (add_room room w).2 = false) ∧
  (∀ A B D, is_canon_route (connect_rooms A B D w).2 = false) ∧
  (∀ a, is_canon_route (update_variables a w).2 = false) ∧
  (∀ d, is_canon_route (move d w).2 = false) ∧
  (∀ ds, is_canon_route (moves ds w) = false).
Proof.
  intros Hoff. split; [|split; [|split; [|split]]].
  - intros room.
    destruct (add_room_history w room) as (Hv & Ho & _).
    apply (off_canon_kept w); [|done|done].
    destruct Hv as [->|(r & _ & _ & ->)]; [done | by apply prefix_app_r].
  - intros A B D.
    destruct (connect_rooms_frame w A B D) as (_ & _ & Hv & Ho & _).
    apply (off_canon_kept w); [by rewrite Hv|done|done].
  - intros a. by apply (off_canon_kept w).
  - intros d. apply (off_canon_kept w); [| |done]; apply move_history.
  - intros ds. apply (off_canon_kept w); [| |done]; apply moves_history.
Qed.

Lemma X6_witness :
  let G := examples.answering in
  let w := (move (G := G) EAST (examples.world G ["A"; "B"])).2 in
  is_canon_route w = false ∧
  is_canon_route (moves (G := G) [NORTH; EAST; SOUTH] w) = false.
Proof.
  intros G w.
  assert (is_canon_route w = false) as Hoff by reflexivity.
  split; [exact Hoff|].
  exact (proj2 (proj2 (proj2 (proj2 (X6_off_canon_is_final (G := G) w Hoff))))
           [NORTH; EAST; SOUTH]).
Defined.

(** X7: when [move] takes a step and returns, the current event carries
    as its flag what [is_canon_route] returns for the history with the new
    room; its text is the canon event of the new room when the flag is
    true and the answer of the event generator, asked with the events seen
    before the move, when it is false. *)
Theorem X7_event_flag_follows_route `{G : Generator} (w w' : GameWorld)
    (d : Direction) (cur next : loc) (rc rn : Room) :
  current_room w = Some cur → heap w !! cur = Some rc →
  dict_get d (connections rc) = Some (Some next) →
  heap w !! next = Some rn →
  move d w = (Ok tt, w') →
  ∃ e,
    current_event w' = Some (mkEvent e (is_canon_route w')) ∧
    (is_canon_route w' = true → e = canon_event rn) ∧
    (is_canon_route w' = false →
     generate_non_canon_event rn (seen_events w) = Some e).
Proof.
  intros Hcur Hrc Hd Hrn.
  rewrite (move_run w d cur next rc rn) by done.
  unfold event_for.
  set (w1 := set_visited_rooms _ _).
  destruct (is_canon_route w1) eqn:Hroute; simpl.
  - destruct (utils.generate_actions _ _ _); [|done]. intros [= <-].
    change (is_canon_route _) with (is_canon_route w1). rewrite Hroute.
    exists (canon_event rn). by repeat split.
  - destruct (generate_non_canon_event rn (seen_events w)) as [e|] eqn:He;
      simpl; [|done].
    destruct (utils.generate_actions _ _ _); [|done]. intros [= <-].
    change (is_canon_route _) with (is_canon_route w1). rewrite Hroute.
    exists e. by repeat split.
Qed.

Lemma X7_witness :
  let G := examples.answering in
  let w := examples.world G ["A"; "B"] in
  ∃ w', move (G := G) EAST w = (Ok tt, w') ∧
    current_event w' = Some (mkEvent "Something else happens in C" false).
Proof.
  intros G w. exists (move (G := G) EAST w).2.
  assert (move (G := G) EAST w = (Ok tt, (move (G := G) EAST w).2)) as Hrun
    by (vm_compute; reflexivity).
  split; [exact Hrun|].
  destruct (X7_event_flag_follows_route (G := G) w _ EAST 0%nat 2%nat
              (set_connections
                 [(NORTH, Some 1%nat); (SOUTH, None); (EAST, Some 2%nat); (WEST, None)]
                 (Room_init "A" "the bridge" "a bridge" "event of A"))
              (Room_init "C" "the brig" "a brig" "event of C")
              eq_refl eq_refl eq_refl eq_refl Hrun) as (e & Hev & _ & Hoff).
  rewrite Hev.
  assert (Some e = Some "Something else happens in C") as Heq
    by (rewrite <- (Hoff eq_refl); reflexivity).
  injection Heq as ->. reflexivity.
Defined.

(** X8: a step along the canon route does not ask the event generator:
    when the history with the name of the neighbour is a prefix of the
    reference order, [move] does the same under two generators that agree
    on actions, and the current event it leaves is the canon event of the
    neighbour, flagged canon. *)
Theorem X8_canon_step_ignores_event_generator (G1 G2 : Generator)
    (w : GameWorld) (d : Direction) (cur next : loc) (rc rn : Room) :
  current_room w = Some cur → heap w !! cur = Some rc →
  dict_get d (connections rc) = Some (Some next) →
  heap w !! next = Some rn →
  (visited_rooms w ++ [name rn])%list `prefix_of` original_room_visit_order w →
  (∀ r e v, @utils.generate_actions G1 r e v = @utils.generate_actions G2 r e v) →
  move (G := G1) d w = move (G := G2) d w ∧
  current_event (move (G := G1) d w).2 = Some (mkEvent (canon_event rn) true).
Proof.
  intros Hcur Hrc Hd Hrn Hpre Hsame.
  rewrite !(move_run w d cur next rc rn) by done.
  unfold event_for.
  set (w1 := set_visited_rooms _ _).
  assert (is_canon_route w1 = true) as ->
    by (by apply is_canon_route_prefix).
  rewrite Hsame. by destruct (utils.generate_actions _ _ _).
Qed.

Lemma X8_witness :
  let G2 := Build_Generator (fun r _ => Some (name r))
              (fun _ _ _ => Some (mkActions [])) in
  let w := examples.world examples.answering ["A"; "B"] in
  move (G := examples.failing_events) NORTH w = move (G := G2) NORTH w ∧
  current_event (move (G := examples.failing_events) NORTH w).2 =
    Some (mkEvent "event of B" true).
Proof.
  intros G2 w.
  refine (X8_canon_step_ignores_event_generator
            examples.failing_events G2 w NORTH 0%nat 1%nat
            (set_connections
               [(NORTH, Some 1%nat); (SOUTH, None); (EAST, Some 2%nat); (WEST, None)]
               (Room_init "A" "the bridge" "a bridge" "event of A"))
            (set_connections
               [(NORTH, None); (SOUTH, None); (EAST, Some 2%nat); (WEST, None)]
               (Room_init "B" "the hangar" "a hangar" "event of B"))
            eq_refl eq_refl eq_refl eq_refl _ _).
  - exists []. reflexivity.
  - reflexivity.
Defined.

Lemma dict_get_key {K V : Type} `{EqDecision K} (k : K) (d : list (K * V)) :
  k ∈ d.*1 → is_Some (dict_get k d).
Proof.
  induction d as [|[k' v'] d IH]; simpl.
  - by intros ?%elem_of_nil.
  - intros Hin. destruct (decide (k = k')); [eauto|].
    apply IH. by apply elem_of_cons in Hin as [?|?].
Qed.

(** With the invariant of the room graph, [move] finds the four keys and
    no reference outside the store: it raises only when a generator call
    raises. *)
Lemma move_raises `{G : Generator} (w w' : GameWorld) (d : Direction) (e : exn) :
  graph_inv w → move d w = (Raise e, w') → e = GenerationFailed.
Proof.
  intros Hinv Hmove.
  destruct (current_room w) as [cur|] eqn:Hcur;
    [|by rewrite move_stays in Hmove by (by left)].
  destruct (proj2 Hinv cur Hcur) as [n Hn].
  destruct (proj1 Hinv n cur Hn) as (rc & Hrc & Hkeys & Htargets).
  destruct (dict_get_key d (connections rc)) as [[next|] Hd].
  { rewrite Hkeys. apply direction_in_keys. }
  - destruct (Htargets d next Hd) as [n' Hn'].
    destruct (proj1 Hinv n' next Hn') as (rn & Hrn & _).
    rewrite (move_run w d cur next rc rn) in Hmove by done.
    destruct (event_for _ _); simpl in Hmove;
      [destruct (utils.generate_actions _ _ _)|]; congruence.
  - rewrite move_stays in Hmove; [done|]. right. eauto.
Qed.

Lemma button_state_run (w : GameWorld) (d : Direction) (cur : loc) (rc : Room) :
  current_room w = Some cur → heap w !! cur = Some rc →
  button_state d w =
  match dict_get d (connections rc) with
  | Some v => (Ok (Some (bool_decide (is_Some v))), w)
  | None => (Raise KeyError, w)
  end.
Proof.
  intros Hcur Hrc. unfold button_state. run. rewrite Hcur, Hrc. simpl.
  by destruct (dict_get d (connections rc)).
Qed.

(** X10: with a current room, the button of a direction is disabled
    exactly when [move] in that direction leaves the world as it is; when
    it is enabled the entry of the current room at that direction holds a
    room, and [move] makes that room the current room. *)
Theorem X10_button_state_tells_move `{G : Generator} (w : GameWorld)
    (d : Direction) (cur : loc) (rc : Room) (b : bool) :
  current_room w = Some cur → heap w !! cur = Some rc →
  button_state d w = (Ok (Some b), w) →
  (b = false ↔ (move d w).2 = w) ∧
  (b = false → move d w = (Ok tt, w)) ∧
  (b = true →
   ∃ next, dict_get d (connections rc) = Some (Some next) ∧
     current_room (move d w).2 = Some next).
Proof.
  intros Hcur Hrc. rewrite (button_state_run w d cur rc) by done.
  destruct (dict_get d (connections rc)) as [[next|]|] eqn:Hd;
    [rewrite bool_decide_true by eauto
    |rewrite bool_decide_false by (by intros [? ?])
    |done]; intros [= <-].
  - assert (current_room (move d w).2 = Some next ∧ (move d w).2 ≠ w)
      as [Hnext Hne].
    { destruct (heap w !! next) as [rn|] eqn:Hrn.
      - destruct (move_step_world w d cur next rc rn) as
          (_ & _ & _ & _ & Hc & Hv & _); try done.
        split; [done|]. intros Heq. rewrite Heq in Hv.
        apply (f_equal length) in Hv. rewrite length_app in Hv. simpl in Hv. lia.
      - assert (move d w = (Raise DanglingReference, set_current_room (Some next) w))
          as ->.
        { run. rewrite Hcur, Hrc, Hd. simpl. by rewrite Hrn. }
        split; [done|]. simpl. intros Heq.
        apply (f_equal current_room) in Heq. simpl in Heq.
        rewrite Hcur in Heq. injection Heq as ->. congruence. }
    split; [split; [done | intros Heq; destruct (Hne Heq)]|].
    split; [done|]. eauto.
  - assert (move d w = (Ok tt, w)) as Hstay
      by (apply move_stays; right; eauto).
    split; [split; [by rewrite Hstay | done]|]. split; [done|]. done.
Qed.

Lemma X10_witness :
  let G := examples.answering in
  let w := examples.world G ["A"] in
  button_state SOUTH w = (Ok (Some false), w) ∧ move (G := G) SOUTH w = (Ok tt, w) ∧
  button_state EAST w = (Ok (Some true), w) ∧
  current_room (move (G := G) EAST w).2 = Some 2%nat.
Proof.
  intros G w.
  pose (ra := set_connections
                [(NORTH, Some 1%nat); (SOUTH, None); (EAST, Some 2%nat); (WEST, None)]
                (Room_init "A" "the bridge" "a bridge" "event of A")).
  assert (button_state SOUTH w = (Ok (Some false), w)) as Hs by reflexivity.
  assert (button_state EAST w = (Ok (Some true), w)) as He by reflexivity.
  split; [exact Hs|]. split.
  - exact (proj1 (proj2 (X10_button_state_tells_move (G := G) w SOUTH 0%nat ra
                           false eq_refl eq_refl Hs)) eq_refl).
  - split; [exact He|].
    destruct (proj2 (proj2 (X10_button_state_tells_move (G := G) w EAST 0%nat ra
                              true eq_refl eq_refl He)) eq_refl)
      as (next & Hd & Hnext).
    rewrite Hnext. f_equal.
    assert (Some (Some next) = Some (Some 2%nat)) as Heq
      by (rewrite <- Hd; reflexivity).
    by injection Heq.
Defined.

Lemma history_tracks_current_frame (w w' : GameWorld) :
  current_room w' = current_room w → visited_rooms w' = visited_rooms w →
  (∀ l r, current_room w = Some l → heap w !! l = Some r →
     ∃ r', heap w' !! l = Some r' ∧ name r' = name r) →
  history_tracks_current w → history_tracks_current w'.
Proof.
  unfold history_tracks_current. intros -> -> Hheap.
  destruct (current_room w) as [l|]; [|done].
  intros (r & Hr & Hlast). destruct (Hheap l r eq_refl Hr) as (r' & Hr' & Hn).
  exists r'. split; [done|]. by rewrite Hn.
Qed.

(** X11: the last entry of the visitation history is the name of the
    current room, and the history is empty while there is none: this holds
    of a world just constructed and is kept by the construction of a room,
    [add_room], [connect_rooms] and [update_variables], and by [move] when
    no connection refers outside the store. *)
Theorem X11_history_ends_with_current_room `{G : Generator} :
  (∀ order vars, history_tracks_current (GameWorld_init order vars)) ∧
  (∀ w, history_tracks_current w →
     (∀ n d i c, history_tracks_current (new_Room n d i c w).2) ∧
     (∀ room, history_tracks_current (add_room room w).2) ∧
     (∀ A B D, history_tracks_current (connect_rooms A B D w).2) ∧
     (∀ a, history_tracks_current (update_variables a w).2) ∧
     (store_closed (heap w) → ∀ d, history_tracks_current (move d w).2)).
Proof.
  split; [done|]. intros w Hw.
  split; [|split; [|split; [|split]]].
  - intros n d i c. apply (history_tracks_current_frame w); try done.
    intros l r _ Hr. exists r. split; [|done]. simpl.
    rewrite lookup_insert_ne; [done|]. intros <-.
    apply (is_fresh (dom (heap w))). apply elem_of_dom. eauto.
  - intros room. destruct (heap w !! room) as [r|] eqn:Hr;
      [|by run; rewrite Hr].
    destruct (current_room w) as [c|] eqn:Hc.
    + rewrite (add_room_further w room c r) by done.
      apply (history_tracks_current_frame w); simpl; eauto.
    + rewrite (add_room_first w room r) by done.
      unfold history_tracks_current in *. rewrite Hc in Hw.
      destruct (utils.generate_actions _ _ _); simpl;
        (exists r; split; [done|]; apply last_snoc).
  - intros A B D.
    destruct (rooms w !! A) as [a|] eqn:HA;
      [|by rewrite connect_rooms_absent by (by left)].
    destruct (rooms w !! B) as [b|] eqn:HB;
      [|by rewrite connect_rooms_absent by (by right)].
    destruct (heap w !! a) as [ra|] eqn:Ha; [|by run; rewrite HA, HB, Ha].
    rewrite (connect_rooms_present w A B D a b ra) by done.
    apply (history_tracks_current_frame w); simpl; try done.
    intros l r _ Hr. destruct (decide (l = a)) as [->|Hne].
    + rewrite lookup_insert_eq. eexists. split; [done|]. simpl. congruence.
    + rewrite lookup_insert_ne by done. eauto.
  - intros a. apply (history_tracks_current_frame w); simpl; eauto.
  - intros Hclosed d.
    destruct (move_outcome w d) as
      [(res & -> & _)|[(cur & rc & next & H1 & H2 & H3 & H4 & _)
                      |(cur & rc & next & rn & H1 & H2 & H3 & H4)]]; [done| |].
    + destruct (Hclosed cur rc d next H2 (dict_get_elem_of _ _ _ H3)) as [? ?].
      congruence.
    + destruct (move_step_world w d cur next rc rn H1 H2 H3 H4)
        as (Hh & _ & _ & _ & Hc & Hv & _).
      unfold history_tracks_current. rewrite Hc, Hh, Hv.
      exists rn. split; [done|]. apply last_snoc.
Qed.

Lemma X11_witness :
  let G := examples.answering in
  let w := examples.world G ["A"] in
  history_tracks_current w ∧ store_closed (heap w) ∧
  history_tracks_current (move (G := G) NORTH w).2.
Proof.
  intros G w.
  assert (history_tracks_current w) as Hw by (eexists; split; reflexivity).
  assert (store_closed (heap w)) as Hclosed
    by (apply store_closedb_sound; vm_compute; reflexivity).
  split; [exact Hw|]. split; [exact Hclosed|].
  exact (proj2 (proj2 (proj2 (proj2
           (proj2 (X11_history_ends_with_current_room (G := G)) w Hw))))
           Hclosed NORTH).
Defined.

(** X12: [seen_events] never holds an event: every entry is the class
    [Event], which [move] appends once per step in place of the event it
    built; so the list that the event generator is given says how many
    events were seen and nothing else.  This holds of a world just
    constructed and is kept by every operation. *)
Theorem X12_seen_events_hold_the_class_only `{G : Generator} :
  (∀ order vars, Forall (eq EventClass) (seen_events (GameWorld_init order vars))) ∧
  (∀ w, Forall (eq EventClass) (seen_events w) →
     (∀ room, Forall (eq EventClass) (seen_events (add_room room w).2)) ∧
     (∀ A B D, Forall (eq EventClass) (seen_events (connect_rooms A B D w).2)) ∧
     (∀ a, Forall (eq EventClass) (seen_events (perform_action a w).2)) ∧
     (∀ d, Forall (eq EventClass) (seen_events (move d w).2)) ∧
     (∀ ds, Forall (eq EventClass) (seen_events (moves ds w)))).
Proof.
  split; [by constructor|].
  assert (∀ w d, Forall (eq EventClass) (seen_events w) →
                 Forall (eq EventClass) (seen_events (move d w).2)) as Hmove.
  { intros w d Hw.
    destruct (move_outcome w d) as
      [(res & -> & _)|[(cur & rc & next & _ & _ & _ & _ & ->)
                      |(cur & rc & next & rn & H1 & H2 & H3 & H4)]]; try done.
    destruct (move_step_world w d cur next rc rn H1 H2 H3 H4)
      as (_ & _ & _ & _ & _ & _ & [->| ->]); [done|].
    apply Forall_app. split; [done|]. by repeat constructor. }
  intros w Hw. split; [|split; [|split; [|split]]].
  - intros room. by destruct (add_room_history w room) as (_ & _ & -> & _).
  - intros A B D.
    by destruct (connect_rooms_frame w A B D) as (_ & _ & _ & _ & -> & _).
  - done.
  - intros d. by apply Hmove.
  - intros ds. revert w Hw. induction ds as [|d ds IH]; intros w Hw; simpl;
      [done|]. by apply IH, Hmove.
Qed.

Lemma X12_witness :
  let G := examples.answering in
  let w := examples.world G ["A"] in
  Forall (eq EventClass) (seen_events w) ∧
  Forall (eq EventClass) (seen_events (moves (G := G) [NORTH; EAST] w)) ∧
  seen_events (moves (G := G) [NORTH; EAST] w) = [EventClass; EventClass].
Proof.
  intros G w.
  assert (Forall (eq EventClass) (seen_events w)) as Hw by constructor.
  split; [exact Hw|]. split; [|reflexivity].
  exact (proj2 (proj2 (proj2 (proj2
           (proj2 (X12_seen_events_hold_the_class_only (G := G)) w Hw))))
           [NORTH; EAST]).
Defined.

(** ** Building the world *)

Lemma connect_rooms_wf (w : GameWorld) (A B : string) (D : Direction) :
  world_wf w → world_wf (connect_rooms A B D w).2.
Proof.
  intros [Hinv [Hk1 Hk2]]. split; [by apply connect_rooms_inv|].
  destruct (rooms w !! A) as [a|] eqn:HA;
    [|by rewrite connect_rooms_absent by (by left)].
  destruct (rooms w !! B) as [b|] eqn:HB;
    [|by rewrite connect_rooms_absent by (by right)].
  destruct (Hk1 A a HA) as (ra & Ha & Hname).
  rewrite (connect_rooms_present w A B D a b ra) by done. split; simpl.
  - intros n l Hn. destruct (decide (l = a)) as [->|Hne].
    + rewrite lookup_insert_eq. eexists. split; [done|]. simpl.
      destruct (Hk1 n a Hn) as (r & Hr & <-). congruence.
    + rewrite lookup_insert_ne by done. by apply Hk1.
  - intros l r. destruct (decide (l = a)) as [->|Hne].
    + rewrite lookup_insert_eq. intros [= <-]. simpl. by apply Hk2.
    + rewrite lookup_insert_ne by done. apply Hk2.
Qed.

Lemma move_wf `{G : Generator} (w : GameWorld) (d : Direction) :
  world_wf w → world_wf (move d w).2.
Proof.
  intros [Hinv Hkeyed]. split; [by apply move_inv|].
  assert (heap (move d w).2 = heap w ∧ rooms (move d w).2 = rooms w) as [Hh Hr].
  { destruct (move_outcome w d) as
      [(res & -> & _)|[(cur & rc & next & _ & _ & _ & _ & ->)
                      |(cur & rc & next & rn & H1 & H2 & H3 & H4)]]; try done.
    by destruct (move_step_world w d cur next rc rn H1 H2 H3 H4)
      as (-> & -> & _). }
  unfold keyed_by_name. by rewrite Hh, Hr.
Qed.

Lemma moves_wf `{G : Generator} (ds : list Direction) :
  ∀ w, world_wf w → world_wf (moves ds w).
Proof.
  induction ds as [|d ds IH]; intros w Hw; simpl; [done|].
  by apply IH, move_wf.
Qed.

Lemma NoDup_directions : NoDup [NORTH; SOUTH; EAST; WEST].
Proof. apply (bool_decide_unpack _). by vm_compute. Qed.

Lemma world_wf_names_unique (w : GameWorld) : world_wf w → names_unique (heap w).
Proof.
  intros [_ [_ Hk2]] l1 l2 r1 r2 H1 H2 Hn.
  apply Hk2 in H1, H2. rewrite Hn in H1. congruence.
Qed.

Lemma world_wf_store_closed (w : GameWorld) : world_wf w → store_closed (heap w).
Proof.
  intros [[Hrooms _] [_ Hk2]] l r d l' Hl Hitem.
  destruct (Hrooms _ _ (Hk2 l r Hl)) as (r' & Hr' & Hkeys & Htargets).
  assert (r' = r) as -> by congruence.
  destruct (Htargets d l') as [n Hn].
  { apply dict_elem_of_get; [|done]. rewrite Hkeys.
    apply NoDup_directions. }
  destruct (Hrooms n l' Hn) as (rl & Hrl & _). eauto.
Qed.

(** A room is constructed and added under a name that is free. *)
Lemma new_room_added `{G : Generator} (w : GameWorld) (n d i c : string) :
  world_wf w → rooms w !! n = None →
  let l := fresh (dom (heap w)) in
  let w' := ((room ← new_Room n d i c; add_room room) w).2 in
  world_wf w' ∧
  heap w' = <[l := Room_init n d i c]> (heap w) ∧
  rooms w' = <[n := l]> (rooms w) ∧
  current_room w' = Some (default l (current_room w)).
Proof.
  intros [Hinv [Hk1 Hk2]] Hfree l w'.
  set (r0 := Room_init n d i c).
  set (w1 := set_heap (<[l := r0]> (heap w)) w).
  assert (w' = (add_room l w1).2) as -> by reflexivity.
  assert (heap w !! l = None) as Hl.
  { apply not_elem_of_dom. apply is_fresh. }
  assert (heap w1 !! l = Some r0) as Hr0 by apply lookup_insert_eq.
  assert (∀ l' r, heap w !! l' = Some r → heap w1 !! l' = Some r) as Hold.
  { intros l' r Hr. simpl. rewrite lookup_insert_ne; [done|]. congruence. }
  assert (graph_inv w1) as Hinv1.
  { split; [|exact (proj2 Hinv)].
    intros n' l' Hn'. destruct (proj1 Hinv n' l' Hn') as (r & Hr & Hok).
    exists r. split; [by apply Hold | exact Hok]. }
  destruct (add_room_graph w1 l r0 Hr0) as (Hh & Hrooms & Hcur).
  split; [split|].
  - apply (add_room_inv w1 l r0); try done.
    + simpl. by rewrite Hfree.
    + intros [] l'; simpl; discriminate.
  - unfold keyed_by_name. rewrite Hh, Hrooms. simpl. split.
    + intros n' l'. destruct (decide (n' = n)) as [->|Hne].
      * rewrite lookup_insert_eq. intros [= <-]. exists r0.
        split; [apply lookup_insert_eq | done].
      * rewrite lookup_insert_ne by done. intros Hn'.
        destruct (Hk1 n' l' Hn') as (r & Hr & Hname). exists r.
        split; [by apply Hold | done].
    + intros l' r. destruct (decide (l' = l)) as [->|Hne].
      * rewrite lookup_insert_eq. intros [= <-]. apply lookup_insert_eq.
      * rewrite lookup_insert_ne by done. intros Hr.
        rewrite lookup_insert_ne; [by apply Hk2|].
        intros Heq. apply Hk2 in Hr. rewrite <- Heq in Hr. congruence.
  - by rewrite Hh, Hrooms, Hcur.
Qed.

Lemma connect_rooms_returns (w : GameWorld) (A B : string) (D : Direction) :
  graph_inv w → (connect_rooms A B D w).1 = Ok tt.
Proof.
  intros Hinv.
  destruct (rooms w !! A) as [a|] eqn:HA;
    [|by rewrite connect_rooms_absent by (by left)].
  destruct (rooms w !! B) as [b|] eqn:HB;
    [|by rewrite connect_rooms_absent by (by right)].
  destruct (proj1 Hinv A a HA) as (ra & Ha & _).
  by rewrite (connect_rooms_present w A B D a b ra).
Qed.

Lemma Direction_of_value_spec (value : string) (d : Direction) :
  Direction_of_value value = Some d ↔ value = Direction_value d.
Proof.
  split; [|intros ->; by destruct d].
  unfold Direction_of_value.
  destruct (String.eqb_spec value "north") as [->|_]; [by intros [= <-]|].
  destruct (String.eqb_spec value "south") as [->|_]; [by intros [= <-]|].
  destruct (String.eqb_spec value "east") as [->|_]; [by intros [= <-]|].
  destruct (String.eqb_spec value "west") as [->|_]; [by intros [= <-]|].
  done.
Qed.

(** One pass of the loop over the connections. *)
Lemma connect_all_cons (conn : gmap string string)
    (rest : list (gmap string string)) (w : GameWorld) :
  main.connect_all (conn :: rest) w =
  match conn !! "room1", conn !! "room2", conn !! "direction" with
  | Some room1, Some room2, Some value =>
      match Direction_of_value value with
      | Some d =>
          match connect_rooms room1 room2 d w with
          | (Ok _, w') => main.connect_all rest w'
          | (Raise e, w') => (Raise e, w')
          end
      | None => (Raise ValueError, w)
      end
  | _, _, _ => (Raise KeyError, w)
  end.
Proof.
  simpl. unfold mbind, M_bind, main.getitem.
  destruct (conn !! "room1"); [|done].
  destruct (conn !! "room2"); [|done].
  destruct (conn !! "direction") as [value|]; [|done].
  simpl. by destruct (Direction_of_value value).
Qed.

Lemma connect_all_run (connections : list (gmap string string)) :
  ∀ w, world_wf w →
    ∃ res w', main.connect_all connections w = (res, w') ∧ world_wf w' ∧
      rooms w' = rooms w ∧ current_room w' = current_room w ∧
      visited_rooms w' = visited_rooms w ∧ current_event w' = current_event w ∧
      actions w' = actions w ∧ variables w' = variables w ∧
      (Forall connection_ok connections → res = Ok tt) ∧
      (∀ made conn todo,
         connections = (made ++ conn :: todo)%list →
         Forall connection_ok made → ¬ connection_ok conn →
         (connection_keys conn → res = Raise ValueError) ∧
         (¬ connection_keys conn → res = Raise KeyError)).
Proof.
  induction connections as [|conn rest IH]; intros w Hw.
  { exists (Ok tt), w. repeat (split; [done|]).
    intros [|? ?] ? ?; simpl; discriminate. }
  rewrite connect_all_cons.
  assert (∀ res : result unit,
            ¬ connection_ok conn →
            (connection_keys conn → res = Raise ValueError) →
            (¬ connection_keys conn → res = Raise KeyError) →
            ∃ res' w', (res, w) = (res', w') ∧ world_wf w' ∧
              rooms w' = rooms w ∧ current_room w' = current_room w ∧
              visited_rooms w' = visited_rooms w ∧
              current_event w' = current_event w ∧
              actions w' = actions w ∧ variables w' = variables w ∧
              (Forall connection_ok (conn :: rest) → res' = Ok tt) ∧
              (∀ made conn' todo,
                 conn :: rest = (made ++ conn' :: todo)%list →
                 Forall connection_ok made → ¬ connection_ok conn' →
                 (connection_keys conn' → res' = Raise ValueError) ∧
                 (¬ connection_keys conn' → res' = Raise KeyError))) as Hstop.
  { intros res Hbad Hvalue Hkey. exists res, w. repeat (split; [done|]). split.
    - by intros [? _]%Forall_cons_1.
    - intros [|first made] conn' todo; simpl; intros [= <- _] Hmade _.
      + done.
      + by apply Forall_cons_1 in Hmade as [? _]. }
  destruct (conn !! "room1") as [room1|] eqn:H1;
    [|apply Hstop;
      [intros ([? ?] & _); congruence | intros ([? ?] & _); congruence | done]].
  destruct (conn !! "room2") as [room2|] eqn:H2;
    [|apply Hstop;
      [intros (_ & [? ?] & _); congruence
      |intros (_ & [? ?] & _); congruence | done]].
  destruct (conn !! "direction") as [value|] eqn:H3;
    [|apply Hstop;
      [intros (_ & _ & ? & ?); congruence
      |intros (_ & _ & [? ?]); congruence | done]].
  destruct (Direction_of_value value) as [d|] eqn:Hd.
  - apply Direction_of_value_spec in Hd.
    assert (connection_ok conn) as Hok.
    { split; [by rewrite H1|]. split; [by rewrite H2|]. exists d. congruence. }
    pose proof (connect_rooms_returns w room1 room2 d (proj1 Hw)) as Hret.
    pose proof (connect_rooms_wf w room1 room2 d Hw) as Hw1.
    destruct (connect_rooms_frame w room1 room2 d)
      as (Hr & Hc & Hv & _ & _ & Hvars & He & Ha).
    destruct (connect_rooms room1 room2 d w) as [res1 w1] eqn:Hrun.
    simpl in *. subst res1.
    destruct (IH w1 Hw1)
      as (res & w' & Hrun' & Hw' & Hr' & Hc' & Hv' & He' & Ha' & Hvars' &
          Hall & Hfirst).
    exists res, w'. split; [done|]. split; [done|].
    split; [congruence|]. split; [congruence|]. split; [congruence|].
    split; [congruence|]. split; [congruence|]. split; [congruence|].
    split.
    + intros [_ Hrest]%Forall_cons_1. by apply Hall.
    + intros [|first made] conn' todo; simpl; intros [= <- Heq] Hmade Hbad.
      * done.
      * apply Forall_cons_1 in Hmade as [_ Hmade]. by apply (Hfirst made _ todo).
  - apply Hstop; [|done|].
    + intros (_ & _ & d & Hvalue). rewrite H3 in Hvalue.
      injection Hvalue as ->.
      by rewrite (proj2 (Direction_of_value_spec _ d) eq_refl) in Hd.
    + intros Hkeys. destruct Hkeys. unfold connection_keys.
      rewrite H1, H2, H3. eauto.
Qed.

Lemma add_rooms_cons `{G : Generator} (room_data : gmap string string)
    (rest : list (gmap string string)) (w : GameWorld) :
  room_data_ok room_data →
  main.add_rooms (room_data :: rest) w =
  match add_room (fresh (dom (heap w)))
          (set_heap (<[fresh (dom (heap w)) := room_of room_data]> (heap w)) w) with
  | (Ok _, w') => main.add_rooms rest w'
  | (Raise e, w') => (Raise e, w')
  end.
Proof.
  intros ([n Hn] & [d Hd] & [i Hi] & [c Hc]). simpl.
  unfold mbind, M_bind, main.getitem, room_of, field.
  rewrite Hn, Hd, Hi, Hc. reflexivity.
Qed.

Lemma add_rooms_further `{G : Generator} (rooms_list : list (gmap string string)) :
  ∀ w,
    world_wf w → is_Some (current_room w) →
    Forall room_data_ok rooms_list →
    NoDup (field "name" <$> rooms_list) →
    (∀ n, n ∈ field "name" <$> rooms_list → rooms w !! n = None) →
    ∃ w', main.add_rooms rooms_list w = (Ok tt, w') ∧ world_wf w' ∧
      dom (rooms w') = dom (rooms w) ∪ list_to_set (field "name" <$> rooms_list) ∧
      (∀ n l, rooms w !! n = Some l → rooms w' !! n = Some l) ∧
      current_room w' = current_room w ∧
      visited_rooms w' = visited_rooms w ∧ current_event w' = current_event w ∧
      actions w' = actions w ∧ variables w' = variables w.
Proof.
  induction rooms_list as [|room_data rest IH];
    intros w Hw [cur Hcur] Hok Hnodup Hfree.
  - exists w. split; [done|]. split; [done|].
    split; [simpl; by rewrite union_empty_r_L|]. by repeat split.
  - rewrite fmap_cons in Hnodup, Hfree.
    apply Forall_cons_1 in Hok as [Hok1 Hok].
    apply list.NoDup_cons in Hnodup as [Hn Hnodup].
    set (n := field "name" room_data) in *.
    assert (rooms w !! n = None) as Hfree_n
      by (apply Hfree; apply elem_of_cons; by left).
    destruct (new_room_added w n (field "description" room_data)
                (field "image_prompt" room_data) (field "canon_event" room_data)
                Hw Hfree_n) as (Hw1 & Hh1 & Hr1 & Hc1).
    fold (room_of room_data) in Hh1.
    set (l := fresh (dom (heap w))) in *.
    set (w0 := set_heap (<[l := room_of room_data]> (heap w)) w).
    assert (add_room l w0 = (Ok tt, set_rooms (<[n := l]> (rooms w0)) w0))
      as Hadd.
    { apply (add_room_further w0 l cur (room_of room_data)); [done|].
      apply lookup_insert_eq. }
    change ((room ← new_Room n (field "description" room_data)
                      (field "image_prompt" room_data)
                      (field "canon_event" room_data); add_room room) w)
      with (add_room l w0) in Hw1, Hh1, Hr1, Hc1.
    rewrite Hadd in Hw1, Hh1, Hr1, Hc1. simpl in Hw1, Hh1, Hr1, Hc1.
    destruct (IH _ Hw1)
      as (w' & Hrun & Hw' & Hdom & Hkeep & Hc' & Hv' & He' & Ha' & Hvars').
    { simpl. eauto. }
    { done. }
    { done. }
    { intros n' Hn'. simpl. rewrite lookup_insert_ne; [|by intros <-].
      apply Hfree. apply elem_of_cons; by right. }
    exists w'. rewrite add_rooms_cons by done. fold l w0. rewrite Hadd.
    simpl in *.
    split; [done|]. split; [done|].
    split; [rewrite Hdom; simpl; rewrite dom_insert_L; set_solver|].
    split.
    { intros n' l' Hn'. apply Hkeep. simpl. rewrite lookup_insert_ne; [done|].
      intros <-. congruence. }
    by repeat split.
Qed.

Lemma GameWorld_init_wf (order : list string) (vars : gmap string PyVal) :
  world_wf (GameWorld_init order vars).
Proof. repeat split; simpl; intros *; by rewrite ?lookup_empty. Qed.

(** The two loops of [run_game]. *)
Lemma run_game_loads `{G : Generator}
    (order : list string) (vars : gmap string PyVal)
    (first : gmap string string) (rest connections : list (gmap string string)) :
  Forall room_data_ok (first :: rest) →
  NoDup (field "name" <$> first :: rest) →
  let load := main.add_rooms (first :: rest);; main.connect_all connections in
  let n := field "name" first in
  let c := field "canon_event" first in
  match utils.generate_actions (Some (room_of first)) (Some (mkEvent c true)) vars with
  | Some a =>
      ∃ res w' l, load (GameWorld_init order vars) = (res, w') ∧
        world_wf w' ∧
        dom (rooms w') = list_to_set (field "name" <$> first :: rest) ∧
        current_room w' = Some l ∧ rooms w' !! n = Some l ∧
        visited_rooms w' = [n] ∧
        current_event w' = Some (mkEvent c true) ∧
        actions w' = Some a ∧ variables w' = vars ∧
        (Forall connection_ok connections → res = Ok tt) ∧
        (∀ made conn todo,
           connections = (made ++ conn :: todo)%list →
           Forall connection_ok made → ¬ connection_ok conn →
           (connection_keys conn → res = Raise ValueError) ∧
           (¬ connection_keys conn → res = Raise KeyError))
  | None =>
      ∃ w', load (GameWorld_init order vars) = (Raise GenerationFailed, w') ∧
        dom (rooms w') = {[n]} ∧ visited_rooms w' = [n] ∧ actions w' = None
  end.
Proof.
  intros [Hok1 Hok]%Forall_cons_1 Hnodup load n c. subst load.
  rewrite fmap_cons in Hnodup. fold n in Hnodup.
  apply list.NoDup_cons in Hnodup as [Hn Hnodup].
  set (w0 := GameWorld_init order vars).
  set (r0 := room_of first).
  set (l := fresh (dom (heap w0))).
  set (w0h := set_heap (<[l := r0]> (heap w0)) w0).
  pose proof (add_room_first w0h l r0 eq_refl (lookup_insert_eq _ _ _)) as Hadd.
  simpl in Hadd. fold n c in Hadd.
  destruct (new_room_added w0 n (field "description" first)
              (field "image_prompt" first) c
              (GameWorld_init_wf order vars) eq_refl)
    as (Hw1 & _ & Hr1 & Hc1).
  change ((room ← new_Room n (field "description" first)
                    (field "image_prompt" first) c; add_room room) w0)
    with (add_room l w0h) in Hw1, Hr1, Hc1.
  unfold mbind, M_bind.
  rewrite (add_rooms_cons first rest w0) by done. fold l r0 w0h.
  destruct (utils.generate_actions (Some r0) (Some (mkEvent c true)) vars)
    as [a|] eqn:Hgen; rewrite Hadd in *; simpl in Hw1, Hr1, Hc1.
  - destruct (add_rooms_further rest _ Hw1)
      as (w2 & Hrun2 & Hw2 & Hdom2 & Hkeep2 & Hc2 & Hv2 & He2 & Ha2 & Hvars2);
      [simpl; eauto | done | done | |].
    { intros n' Hn'. simpl. rewrite lookup_insert_ne; [done|]. by intros <-. }
    destruct (connect_all_run connections w2 Hw2)
      as (res & w3 & Hrun3 & Hw3 & Hr3 & Hc3 & Hv3 & He3 & Ha3 & Hvars3 &
          Hall & Hfirst).
    exists res, w3, l. rewrite Hrun2, Hrun3.
    split; [done|]. split; [done|].
    split.
    { rewrite Hr3, Hdom2. simpl.
      by rewrite dom_insert_L, dom_empty_L, union_empty_r_L. }
    split; [by rewrite Hc3, Hc2|].
    split; [rewrite Hr3; apply Hkeep2; simpl; apply lookup_insert_eq|].
    split; [by rewrite Hv3, Hv2|]. split; [by rewrite He3, He2|].
    split; [by rewrite Ha3, Ha2|]. split; [by rewrite Hvars3, Hvars2|].
    done.
  - eexists. split; [reflexivity|]. simpl.
    split; [by rewrite dom_insert_L, dom_empty_L, union_empty_r_L|done].
Qed.

(** X13: the two loops of [run_game], over rooms that have their four keys
    and distinct names, and any connections.  When the action generator
    answers for the first room, the loop over the rooms returns and the
    loop over the connections runs: whatever its outcome, [rooms] binds
    exactly the names given, the first room is the current room and the one
    entry of the history, its canon event is the current event, the answer
    is the action set, and the world has the invariant of the room graph
    with every room stored under its name.  The loops return when every
    connection has its three keys and the value of a member of [Direction]
    as direction; at the first connection that has not, they raise
    [KeyError] when a key is missing, and [ValueError] when the direction
    is another text (a capital in it is enough).  When the generator
    raises, the loops raise with the first room as the only room and no
    action set. *)
Theorem X13_run_game_builds_the_world `{G : Generator}
    (order : list string) (vars : gmap string PyVal)
    (first : gmap string string) (rest connections : list (gmap string string)) :
  Forall room_data_ok (first :: rest) →
  NoDup (field "name" <$> first :: rest) →
  let load := main.add_rooms (first :: rest);; main.connect_all connections in
  let n := field "name" first in
  let c := field "canon_event" first in
  match utils.generate_actions (Some (room_of first)) (Some (mkEvent c true)) vars with
  | Some a =>
      ∃ res w' l, load (GameWorld_init order vars) = (res, w') ∧
        world_wf w' ∧
        dom (rooms w') = list_to_set (field "name" <$> first :: rest) ∧
        current_room w' = Some l ∧ rooms w' !! n = Some l ∧
        visited_rooms w' = [n] ∧
        current_event w' = Some (mkEvent c true) ∧
        actions w' = Some a ∧ variables w' = vars ∧
        (Forall connection_ok connections → res = Ok tt) ∧
        (∀ made conn todo,
           connections = (made ++ conn :: todo)%list →
           Forall connection_ok made → ¬ connection_ok conn →
           (connection_keys conn → res = Raise ValueError) ∧
           (¬ connection_keys conn → res = Raise KeyError))
  | None =>
      ∃ w', load (GameWorld_init order vars) = (Raise GenerationFailed, w') ∧
        dom (rooms w') = {[n]} ∧ visited_rooms w' = [n] ∧ actions w' = None
  end.
Proof. apply run_game_loads. Qed.

Lemma three_rooms_ok :
  Forall room_data_ok examples.three_rooms ∧
  NoDup (field "name" <$> examples.three_rooms).
Proof.
  split.
  - repeat constructor; eexists; reflexivity.
  - apply (bool_decide_unpack _). by vm_compute.
Qed.

Lemma connections_ok (connections : list (gmap string string)) :
  forallb
    (fun conn =>
       bool_decide (is_Some (conn !! "room1")) &&
       bool_decide (is_Some (conn !! "room2")) &&
       bool_decide (is_Some (Direction_of_value (field "direction" conn))))
    connections = true →
  Forall connection_ok connections.
Proof.
  rewrite forallb_forall, list.Forall_forall. intros Hall conn Hin.
  apply list_elem_of_In, Hall in Hin.
  apply andb_true_iff in Hin as [[H1 H2]%andb_true_iff H3].
  apply bool_decide_eq_true in H1, H2, H3.
  split; [done|]. split; [done|]. destruct H3 as [d Hd].
  apply Direction_of_value_spec in Hd. exists d.
  unfold field in Hd. destruct (conn !! "direction") as [v|] eqn:Hv.
  - simpl in Hd. by rewrite Hd.
  - simpl in Hd. by destruct d.
Qed.

Lemma X13_witness :
  let G := examples.answering in
  (∃ w',
     (main.add_rooms examples.three_rooms;; main.connect_all examples.triangle)
       (GameWorld_init ["A"] examples.health) = (Ok tt, w') ∧
     world_wf w' ∧ visited_rooms w' = ["A"]) ∧
  (∃ w',
     (main.add_rooms examples.three_rooms;;
      main.connect_all [examples.connection "A" "B" "North"])
       (GameWorld_init ["A"] examples.health) = (Raise ValueError, w') ∧
     world_wf w').
Proof.
  intros G. destruct three_rooms_ok as [Hok Hnodup]. split.
  - pose proof (X13_run_game_builds_the_world (G := G) ["A"] examples.health
                  _ _ examples.triangle Hok Hnodup) as Hload.
    hnf in Hload.
    destruct Hload as (res & w' & l & Hrun & Hwf & _ & _ & _ & Hv & _ & _ & _ &
                       Hall & _).
    rewrite Hall in Hrun by (apply connections_ok; reflexivity).
    exists w'. split; [exact Hrun|]. split; [exact Hwf | exact Hv].
  - pose proof (X13_run_game_builds_the_world (G := G) ["A"] examples.health
                  _ _ [examples.connection "A" "B" "North"] Hok Hnodup) as Hload.
    hnf in Hload.
    destruct Hload as (res & w' & l & Hrun & Hwf & _ & _ & _ & _ & _ & _ & _ &
                       _ & Hfirst).
    destruct (Hfirst [] (examples.connection "A" "B" "North") [] eq_refl)
      as [Hvalue _].
    { constructor. }
    { intros (_ & _ & d & Hd). by destruct d. }
    rewrite Hvalue in Hrun by (repeat split; eexists; reflexivity).
    exists w'. split; [exact Hrun | exact Hwf].
Defined.

Lemma example_world_wf : world_wf (examples.world examples.answering ["A"]).
Proof.
  destruct three_rooms_ok as [Hok Hnodup].
  pose proof (run_game_loads (G := examples.answering) ["A"] examples.health
                _ _ examples.triangle Hok Hnodup) as Hload.
  hnf in Hload. destruct Hload as (res & w' & l & Hrun & Hwf & _).
  assert (examples.world examples.answering ["A"] = w') as ->; [|done].
  exact (f_equal snd Hrun).
Qed.

Lemma chain_world_wf : world_wf (examples.chain_world examples.answering ["A"]).
Proof.
  destruct three_rooms_ok as [Hok Hnodup].
  pose proof (run_game_loads (G := examples.answering) ["A"] examples.health
                _ _ examples.chain Hok Hnodup) as Hload.
  hnf in Hload. destruct Hload as (res & w' & l & Hrun & Hwf & _).
  assert (examples.chain_world examples.answering ["A"] = w') as ->; [|done].
  exact (f_equal snd Hrun).
Qed.

(** ** The variable-line parser, continued *)

(** X14: [parse_variables] returns a mapping exactly when every line is
    blank or holds one colon; otherwise it raises [ValueError], and it
    raises nothing else.  A line with two colons, like a time of day as a
    value, makes it raise just as a line without one does. *)
Theorem X14_parse_variables_succeeds_iff (lines : list string) :
  (Forall line_ok lines ↔ ∃ m, parse_variables lines = Ok m) ∧
  (¬ Forall line_ok lines ↔ parse_variables lines = Raise ValueError) ∧
  (∀ e, parse_variables lines = Raise e → e = ValueError) ∧
  parse_variables ["health: 100"; "time: 12:30"] = Raise ValueError.
Proof.
  unfold parse_variables.
  destruct (parse_variables_from_cases lines ∅) as [[Hall [m Hrun]]|[Hnot Hrun]];
    rewrite Hrun.
  - split; [split; eauto|]. split; [split; [done|done]|]. split; done.
  - split; [split; [done | by intros [? ?]]|]. split; [done|].
    split; [congruence | done].
Qed.

Lemma parse_value_typed (value : string) : typed_value (parse_value value).
Proof.
  unfold parse_value, typed_value.
  destruct (int _) eqn:Hint; [done|].
  destruct (String.eqb_spec (lower (strip_char dquote (strip value))) "true");
    [done|].
  destruct (String.eqb_spec (lower (strip_char dquote (strip value))) "false");
    done.
Qed.

Lemma parse_variables_from_entries (lines : list string) :
  ∀ m m',
    (∀ k v, m !! k = Some v → strip k = k ∧ typed_value v) →
    parse_variables_from m lines = Ok m' →
    ∀ k v, m' !! k = Some v → strip k = k ∧ typed_value v.
Proof.
  induction lines as [|line lines IH]; intros m m' Hm; simpl.
  - by intros [= <-].
  - unfold parse_line.
    destruct (is_empty (strip line)); [by apply IH|].
    destruct (split ":" line) as [|key [|value [|more rest]]]; try done.
    apply IH. intros k v [[<- <-]|[_ Hk]]%lookup_insert_Some; [|by apply Hm].
    split; [apply strip_by_idemp | apply parse_value_typed].
Qed.

(** X15: in a mapping that [parse_variables] returns, no key begins or
    ends with white space ([strip] leaves it as it is), and a value is an
    integer, a boolean, or a text that [int] refuses and whose lower-case
    form is neither "true" nor "false". *)
Theorem X15_parsed_entries_are_normal (lines : list string) (m : gmap string PyVal) :
  parse_variables lines = Ok m →
  ∀ k v, m !! k = Some v → strip k = k ∧ typed_value v.
Proof.
  apply parse_variables_from_entries. intros k v. by rewrite lookup_empty.
Qed.

Lemma X15_witness :
  (∃ m, parse_variables ["  mood  : 12 monkeys"; "age: 12"] = Ok m ∧
     m !! "mood" = Some (VStr "12 monkeys") ∧ strip "mood" = "mood" ∧
     typed_value (VStr "12 monkeys")) ∧
  typed_value (VStr (examples.ones 4301)).
Proof.
  split.
  - eexists. split; [reflexivity|]. split; [reflexivity|].
    exact (X15_parsed_entries_are_normal
             ["  mood  : 12 monkeys"; "age: 12"] _ eq_refl "mood"
             (VStr "12 monkeys") eq_refl).
  - assert (parse_variables ["big: " +:+ examples.ones 4301] =
              Ok (<["big" := VStr (examples.ones 4301)]> ∅)) as Hrun
      by (vm_compute; reflexivity).
    exact (proj2 (X15_parsed_entries_are_normal _ _ Hrun "big" _
                    (lookup_insert_eq _ _ _))).
Defined.

Lemma parse_variables_from_union (lines : list string) :
  ∀ m,
    parse_variables_from m lines =
    match parse_variables_from ∅ lines with
    | Ok parsed => Ok (parsed ∪ m)
    | Raise e => Raise e
    end.
Proof.
  induction lines as [|line lines IH]; intros m; simpl.
  - by rewrite (left_id_L ∅ (∪)).
  - unfold parse_line.
    destruct (is_empty (strip line)); [apply IH|].
    destruct (split ":" line) as [|key [|value [|more rest]]]; try done.
    rewrite IH. rewrite (IH (<[_ := _]> ∅)).
    destruct (parse_variables_from ∅ lines) as [parsed|e]; [|done].
    f_equal. rewrite insert_empty, <- (assoc_L (∪)).
    by rewrite <- insert_union_singleton_l.
Qed.

(** X16: parsing two lists of lines one after the other: when both parse,
    the lists joined give the mapping of the second list over that of the
    first (a name of both keeps the value of the second); when the first
    raises, the joined list raises. *)
Theorem X16_parse_variables_of_joined_lists (l1 l2 : list string) :
  (∀ m1 m2, parse_variables l1 = Ok m1 → parse_variables l2 = Ok m2 →
     parse_variables (l1 ++ l2) = Ok (m2 ∪ m1)) ∧
  (∀ e, parse_variables l1 = Raise e → parse_variables (l1 ++ l2) = Raise e) ∧
  (∀ m1 e, parse_variables l1 = Ok m1 → parse_variables l2 = Raise e →
     parse_variables (l1 ++ l2) = Raise e).
Proof.
  unfold parse_variables. rewrite parse_variables_from_app.
  split; [|split].
  - intros m1 m2 -> H2. by rewrite parse_variables_from_union, H2.
  - by intros e ->.
  - intros m1 e -> H2. by rewrite parse_variables_from_union, H2.
Qed.

Lemma X16_witness :
  parse_variables (["health: 100"; "armed: no"] ++ ["health: 90"]) =
  Ok ({["health" := VInt 90]} ∪ {["health" := VInt 100; "armed" := VStr "no"]}).
Proof.
  apply (proj1 (X16_parse_variables_of_joined_lists _ _)); reflexivity.
Defined.

(** ** The grid layout, continued *)

Lemma py_min_fin (a x : Z) : py_min (Fin a) (Fin x) = Fin (Z.min a x).
Proof.
  unfold py_min. simpl. destruct (Z.ltb_spec x a); f_equal; lia.
Qed.

Lemma py_max_fin (b x : Z) : py_max (Fin b) (Fin x) = Fin (Z.max b x).
Proof.
  unfold py_max. simpl. destruct (Z.ltb_spec b x); f_equal; lia.
Qed.

Section traversal_more.
Context (h : gmap loc Room) (s : loc) (rs : Room).
Context (Hclosed : store_closed h).
Implicit Types (st : bfs_state) (ds : list loc).

Lemma place_more ds cur rcur gx gy d lc rc st :
  cur ∈ ds → h !! cur = Some rcur →
  grid_positions (layout st) !! name rcur = Some (gx, gy) →
  (d, Some lc) ∈ connections rcur → h !! lc = Some rc →
  name rc ∉ visited st →
  bfs_base h rs ds st → bfs_more h s ds st →
  bfs_more h s ds
    (place lc (name rc) (gx + (offsets d).1) (gy + (offsets d).2) st).
Proof.
  intros Hcur Hrcur Hpos Hd Hrc Hfresh Hbase Hmore.
  assert (grid_positions (layout st) !! name rc = None) as Hnone.
  { apply eq_None_not_Some. by rewrite <- (base_visited _ _ _ _ Hbase). }
  constructor; simpl.
  - intros n Hn. rewrite fmap_app, fmap_app. simpl.
    destruct (decide (n = name rc)) as [->|Hne].
    + exists lc, rc. split; [|done]. right. apply elem_of_app. right.
      by apply list_elem_of_singleton.
    + rewrite lookup_insert_ne in Hn by done.
      destruct (more_named _ _ _ _ Hmore n Hn) as (l & r & Hl & Hr & Hname).
      exists l, r. split; [|done]. destruct Hl as [?|?]; [by left|].
      right. apply elem_of_app. by left.
  - intros l. rewrite fmap_app, fmap_app. simpl.
    intros [Hl|[Hl|Hl%list_elem_of_singleton]%elem_of_app].
    + apply (more_reachable _ _ _ _ Hmore). by left.
    + apply (more_reachable _ _ _ _ Hmore). by right.
    + subst l. eapply rtc_r.
      * apply (more_reachable _ _ _ _ Hmore). left. exact Hcur.
      * by exists rcur, d.
  - destruct (more_extents _ _ _ _ Hmore)
      as (a & b & c & e & Ha & Hb & Hc & He & Hx & Hy & Hspan).
    destruct (base_within _ _ _ _ Hbase _ _ Hpos) as (W1 & W2 & W3 & W4).
    rewrite Ha, Hb, Hc, He in *. simpl in W1, W2, W3, W4.
    apply Z.ltb_ge in W1, W2, W3, W4.
    rewrite !py_min_fin, !py_max_fin.
    eexists _, _, _, _. repeat (split; [reflexivity|]).
    rewrite map_size_insert_None by done.
    destruct d; simpl; lia.
  - rewrite map_size_insert_None by done.
    pose proof (more_count _ _ _ _ Hmore).
    pose proof (unplaced_place h lc rc (gx + (offsets d).1)
                  (gy + (offsets d).2) st Hrc Hfresh).
    lia.
Qed.

Lemma scan_item_more ds cur rcur gx gy st st' item :
  cur ∈ ds → h !! cur = Some rcur →
  grid_positions (layout st) !! name rcur = Some (gx, gy) →
  item ∈ connections rcur →
  bfs_base h rs ds st → bfs_more h s ds st →
  scan_item h gx gy st item = Some st' →
  bfs_more h s ds st'.
Proof.
  intros Hcur Hrcur Hpos Hitem Hbase Hmore.
  destruct item as [d [lc|]]; simpl; [|by intros [= <-]].
  destruct (Hclosed cur rcur d lc Hrcur Hitem) as [rc Hrc].
  rewrite Hrc. simpl.
  destruct (decide (name rc ∈ visited st)) as [Hv|Hv]; [by intros [= <-]|].
  pose proof (place_more ds cur rcur gx gy d lc rc st Hcur Hrcur Hpos Hitem
                Hrc Hv Hbase Hmore) as Hplace.
  destruct (offsets d) as [dx dy]. by intros [= <-].
Qed.

Lemma scan_items_more ds cur rcur gx gy items :
  ∀ st st',
    cur ∈ ds → h !! cur = Some rcur →
    grid_positions (layout st) !! name rcur = Some (gx, gy) →
    items ⊆ connections rcur →
    bfs_base h rs ds st → bfs_more h s ds st →
    scan_items h gx gy st items = Some st' →
    bfs_more h s ds st'.
Proof.
  induction items as [|item items IH];
    intros st st' Hcur Hrcur Hpos Hitems Hbase Hmore; simpl.
  - by intros [= <-].
  - assert (item ∈ connections rcur) as Hitem
      by (apply Hitems; apply elem_of_cons; by left).
    destruct (scan_item_spec h rs Hclosed ds cur rcur gx gy st item)
      as (st1 & Hrun1 & Hbase1 & Hsub1 & _); try done.
    rewrite Hrun1. simpl. apply IH; try done.
    + by eapply lookup_weaken.
    + intros x Hx. apply Hitems. apply elem_of_cons; by right.
    + by eapply scan_item_more.
Qed.

Lemma bfs_iteration_more ds st st' cur gx gy rest :
  queue st = (cur, gx, gy) :: rest →
  bfs_inv h s rs ds st → bfs_more h s ds st →
  bfs_iteration h st = Some st' →
  bfs_more h s (ds ++ [cur]) st'.
Proof.
  intros Hqueue (Hbase & Htrav & Hroot) Hmore.
  destruct (base_queue _ _ _ _ Hbase cur gx gy) as (rcur & Hrcur & Hpos).
  { rewrite Hqueue. apply elem_of_cons; by left. }
  unfold bfs_iteration. rewrite Hqueue, Hrcur. simpl.
  set (st0 := mkBfs (layout st) (visited st) rest).
  assert (∀ l, l ∈ ds ∨ l ∈ (queue st).*1.*1 →
               (l ∈ (ds ++ [cur])%list) ∨ l ∈ (queue st0).*1.*1) as Hmove.
  { intros l [Hl|Hl]; [left; apply elem_of_app; by left|].
    rewrite Hqueue in Hl. rewrite !fmap_cons in Hl. simpl in Hl.
    apply elem_of_cons in Hl as [->|Hl]; [|by right].
    left. apply elem_of_app. right. by apply list_elem_of_singleton. }
  assert (∀ l, (l ∈ (ds ++ [cur])%list) ∨ l ∈ (queue st0).*1.*1 →
               l ∈ ds ∨ l ∈ (queue st).*1.*1) as Hback.
  { rewrite Hqueue, !fmap_cons. simpl.
    intros l [[Hl|Hl%list_elem_of_singleton]%elem_of_app|Hl].
    - by left.
    - right. subst l. apply elem_of_cons; by left.
    - right. apply elem_of_cons; by right. }
  assert (bfs_base h rs (ds ++ [cur]) st0) as Hbase0.
  { constructor; simpl.
    - apply (base_root _ _ _ _ Hbase).
    - apply (base_visited _ _ _ _ Hbase).
    - intros l x y Hin. apply (base_queue _ _ _ _ Hbase).
      rewrite Hqueue. apply elem_of_cons; by right.
    - intros n p Hn.
      eapply (assigned_from_weaken _ _ ds _ (layout st)); [done| |].
      + intros l Hl. apply elem_of_app; by left.
      + by apply (base_parent _ _ _ _ Hbase).
    - apply (base_within _ _ _ _ Hbase). }
  assert (bfs_more h s (ds ++ [cur]) st0) as Hmore0.
  { constructor.
    - intros n Hn.
      destruct (more_named _ _ _ _ Hmore n Hn) as (l & r & Hl & Hr & Hname).
      exists l, r. split; [by apply Hmove | done].
    - intros l Hl. apply (more_reachable _ _ _ _ Hmore). by apply Hback.
    - apply (more_extents _ _ _ _ Hmore).
    - apply (more_count _ _ _ _ Hmore). }
  apply (scan_items_more (ds ++ [cur]) cur rcur gx gy); try done.
  apply elem_of_app; right. by apply list_elem_of_singleton.
Qed.

Lemma bfs_loop_more fuel :
  ∀ ds st,
    bfs_inv h s rs ds st → bfs_more h s ds st →
    (unplaced h st + length (queue st) ≤ fuel)%nat →
    ∃ st' ds', bfs_loop fuel h st = Some st' ∧
      bfs_inv h s rs ds' st' ∧ bfs_more h s ds' st' ∧ queue st' = [].
Proof.
  induction fuel as [|fuel IH]; intros ds st Hinv Hmore Hfuel.
  - destruct (queue st) as [|? ?] eqn:Hq; [|simpl in Hfuel; lia].
    exists st, ds. simpl. by rewrite Hq.
  - destruct (queue st) as [|[[cur gx] gy] rest] eqn:Hq.
    + exists st, ds. simpl. by rewrite Hq.
    + destruct (bfs_iteration_spec h s rs Hclosed ds st cur gx gy rest Hq Hinv)
        as (st1 & Hrun & Hinv1 & Hsub1 & Hm1 & _).
      pose proof (bfs_iteration_more ds st st1 cur gx gy rest Hq Hinv Hmore Hrun)
        as Hmore1.
      destruct (IH _ st1 Hinv1 Hmore1) as (st' & ds' & Hrun' & Hinv' & Hmore' & Hq');
        [rewrite Hq in Hm1; simpl in Hm1, Hfuel; lia|].
      exists st', ds'. simpl. rewrite Hq, Hrun. simpl. done.
Qed.

End traversal_more.

Lemma bfs_start_more (h : gmap loc Room) (s : loc) (rs : Room) :
  h !! s = Some rs → bfs_more h s [] (bfs_start s (name rs)).
Proof.
  intros Hs. constructor; simpl.
  - intros n Hn. exists s, rs. split; [right; by apply list_elem_of_singleton|].
    split; [done|]. destruct Hn as [p Hn].
    by apply lookup_insert_Some in Hn as [[? _]|[_ Hn]];
      [|rewrite lookup_empty in Hn].
  - intros l [Hl%elem_of_nil|Hl%list_elem_of_singleton]; [done|].
    subst l. apply rtc_refl.
  - exists 0, 0, 0, 0. repeat (split; [done|]).
    rewrite map_size_insert_None, map_size_empty by apply lookup_empty. lia.
  - destruct (bfs_start_inv h s rs Hs) as [_ Hm]. simpl in Hm.
    rewrite map_size_insert_None, map_size_empty by apply lookup_empty. lia.
Qed.

(** What the traversal leaves, for the theorems below. *)
Lemma layout_run_loop (w : GameWorld) (s : loc) (rs : Room) :
  store_closed (heap w) → current_room w = Some s → heap w !! s = Some rs →
  ∃ st ds,
    bfs_loop (size (heap w)) (heap w) (bfs_start s (name rs)) = Some st ∧
    calculate_room_positions w = Some (layout st) ∧
    bfs_inv (heap w) s rs ds st ∧ bfs_more (heap w) s ds st ∧ queue st = [].
Proof.
  intros Hclosed Hcur Hs.
  destruct (bfs_start_inv (heap w) s rs Hs) as [Hinv Hm].
  destruct (bfs_loop_more (heap w) s rs Hclosed (size (heap w)) [] _ Hinv
              (bfs_start_more (heap w) s rs Hs) Hm)
    as (st & ds & Hrun & Hinv' & Hmore' & Hq).
  exists st, ds. unfold calculate_room_positions.
  rewrite Hcur. simpl. rewrite Hs. simpl. rewrite Hrun. done.
Qed.

Lemma layout_run (w : GameWorld) (s : loc) (rs : Room) :
  store_closed (heap w) → current_room w = Some s → heap w !! s = Some rs →
  ∃ st ds,
    calculate_room_positions w = Some (layout st) ∧
    bfs_inv (heap w) s rs ds st ∧ bfs_more (heap w) s ds st ∧ queue st = [].
Proof.
  intros Hclosed Hcur Hs.
  destruct (layout_run_loop w s rs Hclosed Hcur Hs) as (st & ds & _ & Hrest).
  by exists st, ds.
Qed.

Lemma layout_sound (w : GameWorld) (s : loc) (rs : Room) (L : Layout) :
  store_closed (heap w) → current_room w = Some s → heap w !! s = Some rs →
  calculate_room_positions w = Some L →
  ∀ n, is_Some (grid_positions L !! n) →
    ∃ l r, reachable (heap w) s l ∧ heap w !! l = Some r ∧ name r = n.
Proof.
  intros Hclosed Hcur Hs Hcalc.
  destruct (layout_run w s rs Hclosed Hcur Hs)
    as (st & ds & Hrun & _ & Hmore & _).
  assert (L = layout st) as -> by congruence.
  intros n Hn.
  destruct (more_named _ _ _ _ Hmore n Hn) as (l & r & Hl & Hr & Hname).
  exists l, r. split; [|done]. by apply (more_reachable _ _ _ _ Hmore).
Qed.

(** With distinct names, every room that connections lead to from the
    start is taken off the queue before the queue is empty. *)
Lemma dequeued_all (h : gmap loc Room) (s : loc) (rs : Room) (ds : list loc)
    (st : bfs_state) :
  bfs_inv h s rs ds st → bfs_more h s ds st → queue st = [] →
  names_unique h →
  ∀ l, reachable h s l → l ∈ ds.
Proof.
  intros (Hbase & Htrav & Hroot) Hmore Hq Hunique.
  assert (∀ l, l ∈ ds ∨ l ∈ (queue st).*1.*1 → l ∈ ds) as Hds.
  { rewrite Hq. by intros l [?|?%elem_of_nil]. }
  apply (rtc_ind_r (fun l => l ∈ ds) s);
    [|intros l l' Hl (r & d & Hr & Hd) IH].
  - destruct Hroot as [?|Hin]; [done|]. rewrite Hq in Hin.
    by apply elem_of_nil in Hin.
  - destruct (Htrav l IH) as (r' & p & Hr' & _ & Hnext).
    assert (r' = r) as -> by congruence.
    destruct (Hnext d l' Hd) as (rc & Hrc & Hn).
    destruct (more_named _ _ _ _ Hmore _ Hn) as (l2 & r2 & Hl2 & Hr2 & Hname).
    rewrite (Hunique l' l2 rc r2); [by apply Hds|done|done|done].
Qed.

Lemma layout_complete (w : GameWorld) (s : loc) (rs : Room) (L : Layout) :
  store_closed (heap w) → current_room w = Some s → heap w !! s = Some rs →
  calculate_room_positions w = Some L →
  names_unique (heap w) →
  ∀ l r, reachable (heap w) s l → heap w !! l = Some r →
    is_Some (grid_positions L !! name r).
Proof.
  intros Hclosed Hcur Hs Hcalc Hunique.
  destruct (layout_run w s rs Hclosed Hcur Hs)
    as (st & ds & Hrun & Hinv & Hmore & Hq).
  assert (L = layout st) as -> by congruence.
  intros l r Hreach Hr.
  pose proof (dequeued_all _ _ _ _ _ Hinv Hmore Hq Hunique l Hreach) as Hl.
  destruct Hinv as (_ & Htrav & _).
  destruct (Htrav l Hl) as (r' & p & Hr' & Hp & _).
  assert (r' = r) as -> by congruence. eauto.
Qed.

(** A name that a scan of connections places gets the coordinate one step
    from the coordinate of the scan, in the direction of a connection
    that leads to a room of that name. *)
Lemma scan_item_new (h : gmap loc Room) (gx gy : Z) (st st' : bfs_state)
    (item : Direction * option loc) :
  scan_item h gx gy st item = Some st' →
  ∀ n p, grid_positions (layout st') !! n = Some p →
    grid_positions (layout st) !! n = Some p ∨
    ∃ d lc rc, item = (d, Some lc) ∧ h !! lc = Some rc ∧ name rc = n ∧
      p = shift (gx, gy) d.
Proof.
  destruct item as [d [lc|]]; simpl; [|intros [= <-]; auto].
  destruct (h !! lc) as [rc|] eqn:Hrc; simpl; [|done].
  destruct (decide _) as [Hv|Hv]; [intros [= <-]; auto|].
  pose proof (shift_offsets gx gy d) as Hshift.
  destruct (offsets d) as [dx dy]. simpl in Hshift.
  intros [= <-] n p. simpl.
  intros [[<- <-]|[_ Hp]]%lookup_insert_Some; [right|by left].
  by exists d, lc, rc.
Qed.

Lemma scan_items_new (h : gmap loc Room) (gx gy : Z)
    (items : list (Direction * option loc)) :
  ∀ st st',
    scan_items h gx gy st items = Some st' →
    ∀ n p, grid_positions (layout st') !! n = Some p →
      grid_positions (layout st) !! n = Some p ∨
      ∃ d lc rc, (d, Some lc) ∈ items ∧ h !! lc = Some rc ∧ name rc = n ∧
        p = shift (gx, gy) d.
Proof.
  induction items as [|item items IH]; intros st st'; simpl.
  - intros [= <-]. auto.
  - destruct (scan_item h gx gy st item) as [st1|] eqn:Hitem; simpl; [|done].
    intros Hrest n p Hn.
    destruct (IH st1 st' Hrest n p Hn) as [Hold|(d & lc & rc & Hin & Hnew)].
    + destruct (scan_item_new h gx gy st st1 item Hitem n p Hold)
        as [?|(d & lc & rc & -> & Hnew)]; [by left|].
      right. exists d, lc, rc. split; [|done]. apply elem_of_cons; by left.
    + right. exists d, lc, rc. split; [|done]. apply elem_of_cons; by right.
Qed.

(** C7: without a current room the layout is empty, with infinite extents.
    With a current room, in a store that no reference leaves, the layout is
    produced, and with [ds] the rooms that were taken off the queue:
    - the start room has (0, 0) and is one of [ds];
    - every room of [ds] is a room that connections lead to from the start
      room, it has a coordinate, and so has the name of each room that one
      of its connections leads to;
    - every name with a coordinate is the name of a room of [ds];
    - when no two stored rooms have one name, every room that connections
      lead to from the start room is one of [ds] and has a coordinate;
    - a coordinate in the layout is (0, 0) for the start room or else that
      of a room of [ds] moved one step in the direction of a connection
      that leads from it to a room of that name, a step north being
      (0, -1), south (0, 1), east (1, 0) and west (-1, 0);
    - the extents bound every coordinate;
    - what a name has been given after any number of passes of the loop is
      what it has in the end; and a pass takes the first entry off the
      queue, which holds a room with the coordinate that the layout has for
      it, leaves the other entries in front of those it adds, gives a
      coordinate to the name of every room that a connection of that room
      leads to, and gives a name that had none the coordinate of that room
      moved one step in the direction of such a connection. *)
Theorem C7_grid_layout (w : GameWorld) :
  store_closed (heap w) →
  (current_room w = None → calculate_room_positions w = Some empty_layout) ∧
  (∀ s rs,
     current_room w = Some s → heap w !! s = Some rs →
     ∃ L ds,
       calculate_room_positions w = Some L ∧
       grid_positions L !! name rs = Some (0, 0) ∧
       s ∈ ds ∧
       (∀ l, l ∈ ds → reachable (heap w) s l ∧ traversed (heap w) L l) ∧
       (∀ n, is_Some (grid_positions L !! n) →
          ∃ l r, l ∈ ds ∧ heap w !! l = Some r ∧ name r = n) ∧
       (names_unique (heap w) →
        ∀ l r, reachable (heap w) s l → heap w !! l = Some r →
          l ∈ ds ∧ is_Some (grid_positions L !! name r)) ∧
       (∀ n p, grid_positions L !! n = Some p →
          assigned_from (heap w) rs ds L n p) ∧
       (∀ n p, grid_positions L !! n = Some p → within L p) ∧
       (∀ k st,
          bfs_after k (heap w) (bfs_start s (name rs)) = Some st →
          grid_positions (layout st) ⊆ grid_positions L ∧
          ∀ cur gx gy rest,
            queue st = (cur, gx, gy) :: rest →
            ∃ st' rcur,
              bfs_iteration (heap w) st = Some st' ∧
              heap w !! cur = Some rcur ∧
              grid_positions (layout st) !! name rcur = Some (gx, gy) ∧
              rest `prefix_of` queue st' ∧
              traversed (heap w) (layout st') cur ∧
              ∀ n p, grid_positions (layout st') !! n = Some p →
                grid_positions (layout st) !! n = Some p ∨
                ∃ d lc rc,
                  (d, Some lc) ∈ connections rcur ∧ heap w !! lc = Some rc ∧
                  name rc = n ∧ p = shift (gx, gy) d)).
Proof.
  intros Hclosed. split.
  - intros Hnone. unfold calculate_room_positions. by rewrite Hnone.
  - intros s rs Hcur Hs.
    destruct (layout_run_loop w s rs Hclosed Hcur Hs)
      as (stf & ds & Hloop & Hrun & Hinv & Hmore & Hq).
    exists (layout stf), ds. split; [done|].
    pose proof Hinv as (Hbase & Htrav & Hroot).
    assert (∀ l, l ∈ ds ∨ l ∈ (queue stf).*1.*1 → l ∈ ds) as Hds.
    { rewrite Hq. by intros l [?|?%elem_of_nil]. }
    split; [apply (base_root _ _ _ _ Hbase)|].
    split; [destruct Hroot as [?|Hin]; [done|];
            rewrite Hq in Hin; by apply elem_of_nil in Hin|].
    split.
    { intros l Hl. split; [|by apply Htrav].
      apply (more_reachable _ _ _ _ Hmore). by left. }
    split.
    { intros n Hn.
      destruct (more_named _ _ _ _ Hmore n Hn) as (l & r & Hl & Hr & Hname).
      exists l, r. split; [by apply Hds | done]. }
    split.
    { intros Hunique l r Hreach Hr.
      pose proof (dequeued_all _ _ _ _ _ Hinv Hmore Hq Hunique l Hreach) as Hl.
      split; [done|].
      destruct (Htrav l Hl) as (r' & p & Hr' & Hp & _).
      assert (r' = r) as -> by congruence. eauto. }
    split; [apply (base_parent _ _ _ _ Hbase)|].
    split; [apply (base_within _ _ _ _ Hbase)|].
    destruct (bfs_start_inv (heap w) s rs Hs) as [Hinv0 _].
    intros k st Hafter. split.
    + by eapply (bfs_after_loop (heap w) s rs Hclosed k).
    + intros cur gx gy rest Hqueue.
      destruct (bfs_after_inv (heap w) s rs Hclosed k _ _ _ Hinv0 Hafter)
        as [dsk Hinvk].
      destruct (bfs_iteration_spec (heap w) s rs Hclosed dsk st cur gx gy rest
                  Hqueue Hinvk) as (st1 & Hrun1 & Hinv1 & _ & _ & Hfifo).
      destruct (base_queue _ _ _ _ (proj1 Hinvk) cur gx gy)
        as (rcur & Hrcur & Hpos).
      { rewrite Hqueue. apply elem_of_cons; by left. }
      exists st1, rcur. repeat (split; [done|]). split.
      * apply (proj1 (proj2 Hinv1)). apply elem_of_app; right.
        by apply list_elem_of_singleton.
      * unfold bfs_iteration in Hrun1. rewrite Hqueue, Hrcur in Hrun1.
        simpl in Hrun1. intros n p Hn.
        by apply (scan_items_new _ _ _ _ _ _ Hrun1 n p).
Qed.

(** The chain of the examples: its store, its start room and the room on
    the way to the third. *)
Lemma chain_world_rooms :
  let w := examples.chain_world examples.answering ["A"] in
  store_closed (heap w) ∧ names_unique (heap w) ∧
  current_room w = Some 0%nat ∧
  heap w !! 0%nat =
    Some (set_connections
            [(NORTH, Some 1%nat); (SOUTH, None); (EAST, None); (WEST, None)]
            (Room_init "A" "the bridge" "a bridge" "event of A")) ∧
  heap w !! 1%nat =
    Some (set_connections
            [(NORTH, None); (SOUTH, None); (EAST, Some 2%nat); (WEST, None)]
            (Room_init "B" "the hangar" "a hangar" "event of B")) ∧
  heap w !! 2%nat = Some (Room_init "C" "the brig" "a brig" "event of C").
Proof.
  intros w.
  split; [apply world_wf_store_closed, chain_world_wf|].
  split; [apply world_wf_names_unique, chain_world_wf|].
  repeat split.
Qed.

Lemma C7_witness :
  let w := examples.chain_world examples.answering ["A"] in
  store_closed (heap w) ∧
  ∃ L, calculate_room_positions w = Some L ∧
    grid_positions L !! "A" = Some (0, 0) ∧
    is_Some (grid_positions L !! "C") ∧
    ∀ n p, grid_positions L !! n = Some p → within L p.
Proof.
  intros w.
  destruct chain_world_rooms as (Hclosed & Hunique & Hcur & HA & HB & HC).
  split; [exact Hclosed|].
  destruct (C7_grid_layout w Hclosed) as (_ & Hlayout).
  destruct (Hlayout 0%nat _ Hcur HA)
    as (L & ds & Hrun & Hroot & _ & _ & _ & Hall & _ & Hwithin & _).
  exists L. split; [exact Hrun|]. split; [exact Hroot|].
  split; [|exact Hwithin].
  apply (Hall Hunique 2%nat _) in HC as [_ Hthird]; [exact Hthird|].
  eapply rtc_l; [eexists _, NORTH; split; [exact HA|]
                |eapply rtc_l; [eexists _, EAST; split; [exact HB|]|apply rtc_refl]].
  - apply elem_of_cons; by left.
  - apply elem_of_cons; right. apply elem_of_cons; right.
    apply elem_of_cons; by left.
Defined.

(** X17: the layout holds the rooms that connections lead to from the
    current room: a name with a coordinate is the name of a room object
    that is reachable from the current room, and, when no two stored rooms
    have one name, every reachable room has a coordinate for its name. *)
Theorem X17_layout_holds_the_reachable_rooms (w : GameWorld) (s : loc)
    (rs : Room) (L : Layout) :
  store_closed (heap w) → current_room w = Some s → heap w !! s = Some rs →
  calculate_room_positions w = Some L →
  (∀ n, is_Some (grid_positions L !! n) →
     ∃ l r, reachable (heap w) s l ∧ heap w !! l = Some r ∧ name r = n) ∧
  (names_unique (heap w) →
   ∀ l r, reachable (heap w) s l → heap w !! l = Some r →
     is_Some (grid_positions L !! name r)).
Proof.
  intros Hclosed Hcur Hs Hcalc. split.
  - by apply (layout_sound w s rs).
  - intros Hunique. by apply (layout_complete w s rs).
Qed.

(** X18: with a current room the extents are integers around 0, the
    columns and rows they span are together at most one more than the
    names that were placed, and these are at most the stored rooms; so the
    canvas of [draw_map] is sized, and its width and height are together at
    most 100 for each stored room and 184 more. *)
Theorem X18_extents_grow_with_the_rooms (w : GameWorld) (s : loc) (rs : Room)
    (L : Layout) :
  store_closed (heap w) → current_room w = Some s → heap w !! s = Some rs →
  calculate_room_positions w = Some L →
  ∃ a b c d,
    min_x L = Fin a ∧ max_x L = Fin b ∧ min_y L = Fin c ∧ max_y L = Fin d ∧
    (a ≤ 0 ≤ b)%Z ∧ (c ≤ 0 ≤ d)%Z ∧
    ((b - a + 1) + (d - c + 1) ≤ Z.of_nat (size (grid_positions L)) + 1)%Z ∧
    (size (grid_positions L) ≤ size (heap w))%nat ∧
    ∃ W H, canvas_size L = Some (W, H) ∧
      (W + H ≤ 100 * Z.of_nat (size (heap w)) + 184)%Z.
Proof.
  intros Hclosed Hcur Hs Hcalc.
  destruct (layout_run w s rs Hclosed Hcur Hs)
    as (st & ds & Hrun & _ & Hmore & _).
  assert (L = layout st) as -> by congruence.
  destruct (more_extents _ _ _ _ Hmore)
    as (a & b & c & d & Ha & Hb & Hc & Hd & Hx & Hy & Hspan).
  pose proof (more_count _ _ _ _ Hmore) as Hcount.
  exists a, b, c, d. repeat (split; [done|]).
  split; [lia|].
  unfold canvas_size. rewrite Ha, Hb, Hc, Hd. simpl.
  eexists _, _. split; [reflexivity|].
  unfold cell_size, margin, border_width. lia.
Qed.

(** X19: with a current room, the rectangle that [draw_map] draws for a
    room of the layout lies inside the canvas, the margin away from its
    left and top and the margin and the border away from its right and
    bottom; and the rectangles of two different coordinates touch at most
    along an edge. *)
Theorem X19_cells_fit_the_canvas (w : GameWorld) (s : loc) (rs : Room)
    (L : Layout) :
  store_closed (heap w) → current_room w = Some s → heap w !! s = Some rs →
  calculate_room_positions w = Some L →
  ∃ W H,
    canvas_size L = Some (W, H) ∧
    (∀ n p, grid_positions L !! n = Some p →
       ∃ x0 y0 x1 y1,
         room_rectangle L p.1 p.2 = Some (x0, y0, x1, y1) ∧
         (margin ≤ x0 ∧ x1 ≤ W - margin - border_width)%Z ∧
         (margin ≤ y0 ∧ y1 ≤ H - margin - border_width)%Z) ∧
    (∀ p q x0 y0 x1 y1 x0' y0' x1' y1',
       p ≠ q →
       room_rectangle L p.1 p.2 = Some (x0, y0, x1, y1) →
       room_rectangle L q.1 q.2 = Some (x0', y0', x1', y1') →
       (x1 ≤ x0' ∨ x1' ≤ x0 ∨ y1 ≤ y0' ∨ y1' ≤ y0)%Z).
Proof.
  intros Hclosed Hcur Hs Hcalc.
  destruct (layout_run w s rs Hclosed Hcur Hs)
    as (st & ds & Hrun & (Hbase & _) & Hmore & _).
  assert (L = layout st) as -> by congruence.
  destruct (more_extents _ _ _ _ Hmore)
    as (a & b & c & d & Ha & Hb & Hc & Hd & Hx & Hy & Hspan).
  unfold canvas_size, room_rectangle, cell_origin.
  rewrite Ha, Hb, Hc, Hd. simpl.
  eexists _, _. split; [reflexivity|]. split.
  - intros n [x y] Hn.
    destruct (base_within _ _ _ _ Hbase n _ Hn) as (W1 & W2 & W3 & W4).
    rewrite Ha, Hb, Hc, Hd in *. simpl in W1, W2, W3, W4.
    apply Z.ltb_ge in W1, W2, W3, W4.
    eexists _, _, _, _. split; [reflexivity|].
    unfold cell_size, margin, border_width. simpl. lia.
  - intros [x y] [x' y'] x0 y0 x1 y1 x0' y0' x1' y1' Hne.
    simpl. intros [= <- <- <- <-] [= <- <- <- <-].
    assert (x ≠ x' ∨ y ≠ y')%Z as Hdiff.
    { destruct (decide (x = x')) as [->|]; [|by left].
      right. intros ->. by apply Hne. }
    unfold cell_size, margin. lia.
Qed.

(** The world of the examples, its start room and its layout. *)
Lemma example_world_layout :
  let w := examples.world examples.answering ["A"] in
  store_closed (heap w) ∧ current_room w = Some 0%nat ∧
  heap w !! 0%nat =
    Some (set_connections
            [(NORTH, Some 1%nat); (SOUTH, None); (EAST, Some 2%nat); (WEST, None)]
            (Room_init "A" "the bridge" "a bridge" "event of A")) ∧
  calculate_room_positions w =
    Some {| grid_positions := {["A" := (0, 0); "B" := (0, -1); "C" := (1, 0)]};
            min_x := Fin 0; max_x := Fin 1; min_y := Fin (-1); max_y := Fin 0 |}.
Proof.
  intros w. split; [apply world_wf_store_closed, example_world_wf|].
  split; [reflexivity|]. split; [reflexivity|]. vm_compute. reflexivity.
Qed.

Lemma X17_witness :
  let w := examples.world examples.answering ["A"] in
  ∃ l r, reachable (heap w) 0%nat l ∧ heap w !! l = Some r ∧ name r = "C".
Proof.
  intros w.
  destruct example_world_layout as (Hclosed & Hcur & Hs & Hcalc).
  apply (proj1 (X17_layout_holds_the_reachable_rooms w _ _ _ Hclosed Hcur Hs Hcalc)).
  eexists. reflexivity.
Defined.

Lemma X18_witness :
  let w := examples.world examples.answering ["A"] in
  ∃ L W H, calculate_room_positions w = Some L ∧ canvas_size L = Some (W, H) ∧
    (W + H ≤ 484)%Z.
Proof.
  intros w.
  destruct example_world_layout as (Hclosed & Hcur & Hs & Hcalc).
  destruct (X18_extents_grow_with_the_rooms w _ _ _ Hclosed Hcur Hs Hcalc)
    as (a & b & c & d & _ & _ & _ & _ & _ & _ & _ & _ & W & H & Hsize & Hbound).
  eexists _, W, H. split; [exact Hcalc|]. split; [exact Hsize|].
  exact Hbound.
Defined.

Lemma X19_witness :
  let w := examples.world examples.answering ["A"] in
  ∃ L W H, calculate_room_positions w = Some L ∧ canvas_size L = Some (W, H) ∧
    ∃ x0 y0 x1 y1,
      room_rectangle L 1 0 = Some (x0, y0, x1, y1) ∧
      (margin ≤ x0 ∧ x1 ≤ W - margin - border_width)%Z.
Proof.
  intros w.
  destruct example_world_layout as (Hclosed & Hcur & Hs & Hcalc).
  destruct (X19_cells_fit_the_canvas w _ _ _ Hclosed Hcur Hs Hcalc)
    as (W & H & Hsize & Hfit & _).
  eexists _, W, H. split; [exact Hcalc|]. split; [exact Hsize|].
  destruct (Hfit "C" (1, 0) eq_refl) as (x0 & y0 & x1 & y1 & Hrect & Hx & _).
  exists x0, y0, x1, y1. split; [exact Hrect | exact Hx].
Defined.

(** ** The map during a session *)

Lemma moves_reach `{G : Generator} (ds : list Direction) :
  ∀ w cur,
    world_wf w → current_room w = Some cur →
    ∃ l, current_room (moves ds w) = Some l ∧ reachable (heap w) cur l ∧
      heap (moves ds w) = heap w ∧ rooms (moves ds w) = rooms w.
Proof.
  induction ds as [|d ds IH]; intros w cur Hw Hcur; simpl.
  - exists cur. repeat split; try done. apply rtc_refl.
  - pose proof (move_wf w d Hw) as Hw1.
    assert (∃ l1, current_room (move d w).2 = Some l1 ∧
                  reachable (heap w) cur l1 ∧
                  heap (move d w).2 = heap w ∧ rooms (move d w).2 = rooms w)
      as (l1 & Hc1 & Hreach1 & Hh1 & Hr1).
    { destruct (move_outcome w d) as
        [(res & Hrun & _)|[(c & rc & next & H1 & H2 & H3 & H4 & Hrun)
                          |(c & rc & next & rn & H1 & H2 & H3 & H4)]].
      - rewrite Hrun. exists cur. repeat split; try done. apply rtc_refl.
      - rewrite Hrun. exists next. repeat split; try done.
        apply rtc_once. exists rc, d. split; [congruence|].
        by apply dict_get_elem_of.
      - destruct (move_step_world w d c next rc rn H1 H2 H3 H4)
          as (Hh & Hr & _ & _ & Hc & _).
        exists next. repeat split; try done.
        apply rtc_once. exists rc, d. split; [congruence|].
        by apply dict_get_elem_of. }
    destruct (IH _ l1 Hw1 Hc1) as (l & Hc & Hreach & Hh & Hr).
    exists l. split; [done|]. split; [|split; congruence].
    unfold reachable in *. rewrite Hh1 in Hreach.
    by apply (transitivity (R := rtc (connected (heap w))) Hreach1).
Qed.

(** X20: the map keeps a cell for the current room.  In a world that has
    the invariant of the room graph with every room stored under its name,
    the layout that is computed before any number of moves has a
    coordinate for the name of the room that is current after them. *)
Theorem X20_map_shows_the_current_room `{G : Generator} (w : GameWorld)
    (s : loc) (L : Layout) (ds : list Direction) :
  world_wf w → current_room w = Some s →
  calculate_room_positions w = Some L →
  ∃ l r,
    current_room (moves ds w) = Some l ∧ heap (moves ds w) !! l = Some r ∧
    is_Some (grid_positions L !! name r).
Proof.
  intros Hw Hcur Hcalc.
  destruct (proj2 (proj1 Hw) s Hcur) as [n Hn].
  destruct (proj1 (proj1 Hw) n s Hn) as (rs & Hs & _).
  destruct (moves_reach ds w s Hw Hcur) as (l & Hc & Hreach & Hh & Hr).
  pose proof (moves_wf ds w Hw) as Hw'.
  destruct (proj2 (proj1 Hw') l Hc) as [n' Hn'].
  destruct (proj1 (proj1 Hw') n' l Hn') as (r & Hl & _).
  exists l, r. split; [done|]. split; [done|].
  apply (layout_complete w s rs L (world_wf_store_closed w Hw) Hcur Hs Hcalc
           (world_wf_names_unique w Hw) l r); [done | by rewrite <- Hh].
Qed.

Lemma X20_witness :
  let G := examples.answering in
  let w := examples.world G ["A"] in
  world_wf w ∧
  ∃ L l r, calculate_room_positions w = Some L ∧
    current_room (moves (G := G) [NORTH; EAST; WEST] w) = Some l ∧
    heap (moves (G := G) [NORTH; EAST; WEST] w) !! l = Some r ∧
    is_Some (grid_positions L !! name r).
Proof.
  intros G w. pose proof example_world_wf as Hw.
  split; [exact Hw|].
  destruct example_world_layout as (_ & Hcur & _ & Hcalc).
  destruct (X20_map_shows_the_current_room (G := G) w _ _ [NORTH; EAST; WEST]
              Hw Hcur Hcalc) as (l & r & Hc & Hl & Hn).
  eexists _, l, r. split; [exact Hcalc|]. split; [exact Hc|].
  split; [exact Hl | exact Hn].
Defined.

(** X21: [draw_map] finds the room of every name that it draws.  In a
    world that has the invariant of the room graph with every room stored
    under its name, a name of the layout is a key of [rooms], before and
    after any number of moves, so the lookup of the first loop of
    [draw_map] returns, with a room of that name, and does not raise
    [KeyError]. *)
Theorem X21_draw_map_finds_its_rooms `{G : Generator} (w : GameWorld)
    (s : loc) (L : Layout) (ds : list Direction) (n : string) :
  world_wf w → current_room w = Some s →
  calculate_room_positions w = Some L →
  is_Some (grid_positions L !! n) →
  ∃ r, draw_map_room n (moves ds w) = (Ok r, moves ds w) ∧ name r = n.
Proof.
  intros Hw Hcur Hcalc Hn.
  destruct (proj2 (proj1 Hw) s Hcur) as [n0 Hn0].
  destruct (proj1 (proj1 Hw) n0 s Hn0) as (rs & Hs & _).
  destruct (layout_sound w s rs L (world_wf_store_closed w Hw) Hcur Hs Hcalc n Hn)
    as (l & r & _ & Hl & Hname).
  destruct (moves_reach ds w s Hw Hcur) as (_ & _ & _ & Hh & Hr).
  exists r. split; [|done].
  unfold draw_map_room. run. rewrite Hr.
  rewrite <- Hname, (proj2 (proj2 Hw) l r Hl). by rewrite Hh, Hl.
Qed.

Lemma X21_witness :
  let G := examples.answering in
  let w := examples.world G ["A"] in
  ∃ r, draw_map_room "C" (moves (G := G) [NORTH] w) = (Ok r, moves (G := G) [NORTH] w) ∧
    name r = "C".
Proof.
  intros G w.
  destruct example_world_layout as (_ & Hcur & _ & Hcalc).
  refine (X21_draw_map_finds_its_rooms (G := G) w _ _ [NORTH] "C"
            example_world_wf Hcur Hcalc _).
  eexists. reflexivity.
Defined.

(** ** Redrawing after a move *)

Lemma moves_snoc `{G : Generator} (ds : list Direction) (d : Direction) :
  ∀ w, moves (ds ++ [d]) w = (move d (moves ds w)).2.
Proof. induction ds as [|d' ds IH]; intros w; simpl; [done|]. apply IH. Qed.

Lemma buttons_found (w : GameWorld) (d : Direction) :
  graph_inv w → ∃ b, button_state d w = (Ok b, w).
Proof.
  intros Hinv. destruct (current_room w) as [cur|] eqn:Hcur.
  - destruct (proj2 Hinv cur Hcur) as [n Hn].
    destruct (proj1 Hinv n cur Hn) as (rc & Hrc & Hkeys & _).
    rewrite (button_state_run w d cur rc) by done.
    destruct (dict_get_key d (connections rc)) as [v ->]; [|eauto].
    rewrite Hkeys. apply direction_in_keys.
  - exists None. unfold button_state. run. by rewrite Hcur.
Qed.

Lemma layout_rooms_found `{G : Generator} (w : GameWorld)
    (s : loc) (L : Layout) (ds : list Direction) (n : string) :
  world_wf w → current_room w = Some s →
  calculate_room_positions w = Some L →
  is_Some (grid_positions L !! n) →
  ∃ r, draw_map_room n (moves ds w) = (Ok r, moves ds w) ∧ name r = n.
Proof.
  intros Hw Hcur Hcalc Hn.
  destruct (proj2 (proj1 Hw) s Hcur) as [n0 Hn0].
  destruct (proj1 (proj1 Hw) n0 s Hn0) as (rs & Hs & _).
  destruct (layout_sound w s rs L (world_wf_store_closed w Hw) Hcur Hs Hcalc n Hn)
    as (l & r & _ & Hl & Hname).
  destruct (moves_reach ds w s Hw Hcur) as (_ & _ & _ & Hh & Hr).
  exists r. split; [|done].
  unfold draw_map_room. run. rewrite Hr.
  rewrite <- Hname, (proj2 (proj2 Hw) l r Hl). by rewrite Hh, Hl.
Qed.

Lemma move_returned `{G : Generator} (w : GameWorld) (d : Direction) :
  (move d w).1 = Ok tt →
  (move d w).2 = w ∨
  is_Some (current_event (move d w).2) ∧ is_Some (actions (move d w).2).
Proof.
  destruct (move_outcome w d) as
    [(res & -> & _)|[(cur & rc & next & _ & _ & _ & _ & ->)
                    |(cur & rc & next & rn & H1 & H2 & H3 & H4)]];
    [by left | done |].
  rewrite (move_run w d cur next rc rn) by done.
  destruct (event_for _ _); simpl; [|done].
  destruct (utils.generate_actions _ _ _); simpl; [|done].
  intros _. right. eauto.
Qed.

(** X9: a move and the redraw that follows it, at any point of a session.
    In a world that has the invariant of the room graph with every room
    stored under its name, and with the layout that was computed for it,
    after any number of moves a further [move] returns or raises because a
    generator call raised: its own lookup finds the key of the direction
    and raises no [KeyError].  In the world that it leaves, the lookups
    that the redraw of [update_display] makes return as well: the entry of
    the current room at each of the four directions, for the buttons, and
    the room of every name of the layout, for the map.  And when the move
    has returned, either it has left the world as it was (there is no
    redraw then) or the world has a current event and an action set for
    [update_display] to show. *)
Theorem X9_only_generators_fail `{G : Generator} (w : GameWorld) (s : loc)
    (L : Layout) (ds : list Direction) (d : Direction) :
  world_wf w → current_room w = Some s →
  calculate_room_positions w = Some L →
  let w0 := moves ds w in
  let w' := (move d w0).2 in
  ((move d w0).1 = Ok tt ∨ (move d w0).1 = Raise GenerationFailed) ∧
  ((move d w0).1 = Ok tt →
   w' = w0 ∨ is_Some (current_event w') ∧ is_Some (actions w')) ∧
  (∀ d', ∃ b, button_state d' w' = (Ok b, w')) ∧
  (∀ n, is_Some (grid_positions L !! n) →
     ∃ r, draw_map_room n w' = (Ok r, w') ∧ name r = n).
Proof.
  intros Hw Hcur Hcalc w0 w'.
  pose proof (moves_wf ds w Hw) as Hw0.
  pose proof (move_wf w0 d Hw0) as Hw'. fold w' in Hw'.
  split; [|split; [|split]].
  - destruct (move d w0) as [[[]|e] w1] eqn:Hmove; simpl; [by left|right].
    by rewrite (move_raises w0 w1 d e (proj1 Hw0) Hmove).
  - apply move_returned.
  - intros d'. apply buttons_found, Hw'.
  - intros n Hn. subst w' w0. rewrite <- moves_snoc.
    by apply (layout_rooms_found w s L).
Qed.

Lemma X9_witness :
  let G := examples.answering in
  let w := examples.world G ["A"] in
  let w' := (move (G := G) EAST (moves (G := G) [NORTH] w)).2 in
  (move (G := G) EAST (moves (G := G) [NORTH] w)).1 = Ok tt ∧
  (∃ b, button_state WEST w' = (Ok b, w')) ∧
  ∃ r, draw_map_room "B" w' = (Ok r, w') ∧ name r = "B".
Proof.
  intros G w w'.
  destruct example_world_layout as (_ & Hcur & _ & Hcalc).
  destruct (X9_only_generators_fail (G := G) w _ _ [NORTH] EAST
              example_world_wf Hcur Hcalc) as (_ & _ & Hbuttons & Hrooms).
  split; [reflexivity|]. split; [exact (Hbuttons WEST)|].
  apply Hrooms. eexists. reflexivity.
Defined.
